(** * The analyzer rules of go-mysql-server, embedded and verified

    The development follows the analyzer package (subquery resolution,
    cacheability analysis, join scope propagation, function resolution)
    and the CREATE TRIGGER row iterator of package plan.

    Go values are represented as follows: [int] as [Z], slices as [list],
    interfaces with a closed set of implementations as inductive types,
    [(value, error)] results as [Result], and a mutable local flag captured
    by a closure as a state threaded through the traversal. *)

From Stdlib Require Import ZArith Lia.
From stdpp Require Import base strings list gmap.

Local Open Scope Z_scope.

(** ** Errors and results *)

(** The error kinds the modelled code creates or tests for. *)
Inductive Error :=
| ErrColumnCountMismatch
| ErrColumnNotFound (name : string)
| ErrTableColumnNotFound (table name : string)
| ErrValidationResolved
| ErrFunctionNotFound (name : string)
| ErrInvalidArgumentNumber (name : string)
| ErrInvalidChildrenNumber
| ErrTriggersNotSupported (db : string)
| ErrMaxAnalysisIters
| ErrOther (code : Z)
| EOF.

Inductive Result (A : Type) :=
| Ok (a : A)
| Err (e : Error).
Arguments Ok {A} a.
Arguments Err {A} e.

Definition bindR {A B} (r : Result A) (k : A -> Result B) : Result B :=
  match r with
  | Ok a => k a
  | Err e => Err e
  end.

#[global] Instance Result_bind : MBind Result := fun A B k r => bindR r k.
#[global] Instance Result_ret : MRet Result := fun A a => Ok a.

Definition isOk {A} (r : Result A) : bool :=
  match r with Ok _ => true | Err _ => false end.

(** ** Change identity *)

(** [sql.TreeIdentity] is a Go [bool]: [SameTree = true], [NewTree = false];
    [&&] on identities is [andT]. *)
Inductive TreeIdentity := SameTree | NewTree.

Definition andT (a b : TreeIdentity) : TreeIdentity :=
  match a with
  | SameTree => b
  | NewTree => NewTree
  end.

Definition isSame (t : TreeIdentity) : bool :=
  match t with SameTree => true | NewTree => false end.

(** ** Plan nodes and expressions *)

Inductive JoinType := JoinTypeInner | JoinTypeLeft | JoinTypeRight.

(** Which of the interfaces [sql.Aggregation] and [sql.WindowAggregation] a
    resolved function implements. *)
Inductive FunctionKind := PlainFunction | Aggregation | WindowAggregation.

(** The window specification an unresolved call carries next to its
    arguments. *)
Record Window := MkWindow {
  PartitionBy : list string;
  OrderBy : list string;
  FrameName : string
}.

Scheme All for list.

(** Modelled from the spec: the plan operators and the expressions the
    rules name (packages plan and expression declare them; of these only
    [CreateTrigger] is among the source files).  A node holds its
    expressions and its ordered children, a join its kind and the
    scope length [WithScopeLen] sets, a subquery alias its column list, a
    subquery expression its plan and whether its results are cached.
    [*plan.IndexedJoin] is not a [plan.JoinNode]. *)
Inductive Node :=
| ResolvedTable (name : string) (width : nat)
| UnresolvedTable (name : string)
| Project (Projections : list Expression) (Child : Node)
| Filter (Cond : Expression) (Child : Node)
| JoinNode (jt : JoinType) (scopeLen : Z) (Cond : Expression) (l r : Node)
| IndexedJoin (jt : JoinType) (scopeLen : Z) (Cond : Expression) (l r : Node)
| SubqueryAlias (name : string) (Columns : list string) (Child : Node)
| TableAlias (name : string) (Child : Node)
| CachedResults (Child : Node)
| StripRowNode (Child : Node) (numCols : Z)
| QueryProcess (Child : Node)
| StartTransaction (Child : Node)
| TriggerBeginEndBlock (statements : list Node)
| CreateTrigger (TriggerName : string) (Table Body : Node)
with Expression :=
| Literal (v : Z)
| GetField (index : Z) (name : string)
| UnresolvedColumn (name : string)
| Equals (l r : Expression)
| UnresolvedFunction (name : string) (Arguments : list Expression)
    (window : option Window)
| FunctionCall (name : string) (kind : FunctionKind) (nondet : bool)
    (args : list Expression) (window : option Window)
| Subquery (Query : Node) (cached : bool).

(** Modelled from the spec: [Children()] of a node, as
    [CreateTrigger.Children] gives them. *)
Definition Children (n : Node) : list Node :=
  match n with
  | ResolvedTable _ _ | UnresolvedTable _ => []
  | Project _ c | Filter _ c | SubqueryAlias _ _ c | TableAlias _ c
  | CachedResults c | StripRowNode c _ | QueryProcess c
  | StartTransaction c => [c]
  | JoinNode _ _ _ l r | IndexedJoin _ _ _ l r | CreateTrigger _ l r => [l; r]
  | TriggerBeginEndBlock ss => ss
  end.

(** Modelled from the spec: [WithChildren(children...)], a copy of the node
    with the new children, [ErrInvalidChildrenNumber] when their number is
    not the node's (as [CreateTrigger.WithChildren] does). *)
Definition WithChildren (n : Node) (cs : list Node) : Result Node :=
  match n, cs with
  | ResolvedTable _ _, [] | UnresolvedTable _, [] => Ok n
  | Project es _, [c] => Ok (Project es c)
  | Filter e _, [c] => Ok (Filter e c)
  | SubqueryAlias nm cols _, [c] => Ok (SubqueryAlias nm cols c)
  | TableAlias nm _, [c] => Ok (TableAlias nm c)
  | CachedResults _, [c] => Ok (CachedResults c)
  | StripRowNode _ k, [c] => Ok (StripRowNode c k)
  | QueryProcess _, [c] => Ok (QueryProcess c)
  | StartTransaction _, [c] => Ok (StartTransaction c)
  | JoinNode jt sl e _ _, [l; r] => Ok (JoinNode jt sl e l r)
  | IndexedJoin jt sl e _ _, [l; r] => Ok (IndexedJoin jt sl e l r)
  | CreateTrigger nm _ _, [t; b] => Ok (CreateTrigger nm t b)
  | TriggerBeginEndBlock ss, _ =>
      if decide (length cs = length ss) then Ok (TriggerBeginEndBlock cs)
      else Err ErrInvalidChildrenNumber
  | _, _ => Err ErrInvalidChildrenNumber
  end.

(** Modelled from the spec: [Children()] and [WithChildren] of an
    expression.  A subquery expression owns a plan, not sub-expressions: its
    [Children()] is empty. *)
Definition ExprChildren (e : Expression) : list Expression :=
  match e with
  | Literal _ | GetField _ _ | UnresolvedColumn _ | Subquery _ _ => []
  | Equals l r => [l; r]
  | UnresolvedFunction _ args _ => args
  | FunctionCall _ _ _ args _ => args
  end.

Definition ExprWithChildren (e : Expression) (cs : list Expression)
  : Result Expression :=
  match e, cs with
  | Literal _, [] | GetField _ _, [] | UnresolvedColumn _, []
  | Subquery _ _, [] => Ok e
  | Equals _ _, [l; r] => Ok (Equals l r)
  | UnresolvedFunction nm args w, _ =>
      if decide (length cs = length args) then Ok (UnresolvedFunction nm cs w)
      else Err ErrInvalidChildrenNumber
  | FunctionCall nm k nd args w, _ =>
      if decide (length cs = length args) then Ok (FunctionCall nm k nd cs w)
      else Err ErrInvalidChildrenNumber
  | _, _ => Err ErrInvalidChildrenNumber
  end.

(** Modelled from the spec: [sql.Expressioner], the nodes that carry
    expressions, with [Expressions()] and [WithExpressions(...)].  A subquery
    alias is not one of them. *)
Definition isExpressioner (n : Node) : bool :=
  match n with
  | Project _ _ | Filter _ _ | JoinNode _ _ _ _ _ | IndexedJoin _ _ _ _ _ => true
  | _ => false
  end.

Definition Expressions (n : Node) : list Expression :=
  match n with
  | Project es _ => es
  | Filter e _ | JoinNode _ _ e _ _ | IndexedJoin _ _ e _ _ => [e]
  | _ => []
  end.

Definition WithExpressions (n : Node) (es : list Expression) : Result Node :=
  match n, es with
  | Project old c, _ =>
      if decide (length es = length old) then Ok (Project es c)
      else Err ErrInvalidChildrenNumber
  | Filter _ c, [e] => Ok (Filter e c)
  | JoinNode jt sl _ l r, [e] => Ok (JoinNode jt sl e l r)
  | IndexedJoin jt sl _ l r, [e] => Ok (IndexedJoin jt sl e l r)
  | _, _ => Err ErrInvalidChildrenNumber
  end.

(** Modelled from the spec: [Resolved()], true when the node's or
    expression's own metadata is bound and all its children are resolved
    (as [CreateTrigger.Resolved] does). *)
Fixpoint NodeResolved (n : Node) : bool :=
  match n with
  | ResolvedTable _ _ => true
  | UnresolvedTable _ => false
  | Project es c => forallb ExprResolved es && NodeResolved c
  | Filter e c => ExprResolved e && NodeResolved c
  | JoinNode _ _ e l r | IndexedJoin _ _ e l r =>
      ExprResolved e && NodeResolved l && NodeResolved r
  | SubqueryAlias _ _ c | TableAlias _ c | CachedResults c | StripRowNode c _
  | QueryProcess c | StartTransaction c => NodeResolved c
  | TriggerBeginEndBlock ss => forallb NodeResolved ss
  | CreateTrigger _ t b => NodeResolved t && NodeResolved b
  end
with ExprResolved (e : Expression) : bool :=
  match e with
  | Literal _ | GetField _ _ => true
  | UnresolvedColumn _ => false
  | Equals l r => ExprResolved l && ExprResolved r
  | UnresolvedFunction _ _ _ => false
  | FunctionCall _ _ _ args _ => forallb ExprResolved args
  | Subquery q _ => NodeResolved q
  end.

(** Modelled from the spec: [sql.NonDeterministicExpression]; function
    instances implement it and [IsNonDeterministic()] is their flag. *)
Definition IsNonDeterministic (e : Expression) : bool :=
  match e with
  | FunctionCall _ _ nd _ _ => nd
  | _ => false
  end.

(** ** The transformation engine (package visit) *)

(** Modelled from the spec: the loop over the children that every
    bottom-up transform runs, with the change identity protocol: the
    transformed children are taken in order, the first error aborts, a child
    reported [NewTree] replaces the old one in a copy of the children and a
    child reported [SameTree] is left as it was.  The identity returned is
    [SameTree] exactly when no copy was made. *)
Fixpoint collectChildren {A} (children : list A)
    (rs : list (Result (A * TreeIdentity))) : Result (list A * TreeIdentity) :=
  match children, rs with
  | c :: cs, r :: rs' =>
      '(c', same) ← r;
      '(cs', sameRest) ← collectChildren cs rs';
      Ok ((if isSame same then c else c') :: cs', andT same sameRest)
  | _, _ => Ok ([], SameTree)
  end.

Definition NodeFunc := Node -> Result (Node * TreeIdentity).

(** What [visit.Nodes] does at one node once its children are transformed. *)
Definition transformNode (f : NodeFunc) (node : Node)
    (rs : list (Result (Node * TreeIdentity))) : Result (Node * TreeIdentity) :=
  match Children node with
  | [] => f node
  | children =>
      '(newChildren, sameC) ← collectChildren children rs;
      node' ← (if isSame sameC then Ok node else WithChildren node newChildren);
      '(node'', sameN) ← f node';
      Ok (node'', andT sameC sameN)
  end.

(** Modelled from the spec: [visit.Nodes], the bottom-up node transform of
    the transformation engine (the package is not among the source files).
    It visits every node, children before parents, returns the new tree with
    its change identity, and aborts on the first error. *)
Fixpoint visit_Nodes (f : NodeFunc) (n : Node) : Result (Node * TreeIdentity) :=
  transformNode f n
    match n with
    | ResolvedTable _ _ | UnresolvedTable _ => []
    | Project _ c | Filter _ c | SubqueryAlias _ _ c | TableAlias _ c
    | CachedResults c | StripRowNode c _ | QueryProcess c
    | StartTransaction c => [visit_Nodes f c]
    | JoinNode _ _ _ l r | IndexedJoin _ _ _ l r | CreateTrigger _ l r =>
        [visit_Nodes f l; visit_Nodes f r]
    | TriggerBeginEndBlock ss => map (visit_Nodes f) ss
    end.

(** Modelled from the spec: [visit.TransformContext], the node, its parent
    ([None] at the root) and its position among the parent's children ([-1]
    at the root). *)
Record TransformContext := MkContext {
  ctxNode : Node;
  Parent : option Node;
  ChildNum : Z
}.

Definition CtxFunc := TransformContext -> Result (Node * TreeIdentity).
Definition SelectorFunc := TransformContext -> bool.

Definition selected (s : option SelectorFunc) (c : TransformContext) : bool :=
  match s with
  | None => true
  | Some sel => sel c
  end.

Definition transformNodeWithCtx (f : CtxFunc) (c : TransformContext)
    (rs : list (Result (Node * TreeIdentity))) : Result (Node * TreeIdentity) :=
  match Children (ctxNode c) with
  | [] => f c
  | children =>
      '(newChildren, sameC) ← collectChildren children rs;
      node' ← (if isSame sameC then Ok (ctxNode c)
               else WithChildren (ctxNode c) newChildren);
      '(node'', sameN) ← f (MkContext node' (Parent c) (ChildNum c));
      Ok (node'', andT sameC sameN)
  end.

(** [for i := range children]: the loop body applied to every child with
    its index. *)
Fixpoint mapWithIndex {A B} (h : A -> Z -> B) (l : list A) (i : Z) : list B :=
  match l with
  | [] => []
  | c :: l' => h c i :: mapWithIndex h l' (i + 1)
  end.

(** Modelled from the spec: the context-aware node transform behind
    [visit.NodesWithCtx].  The visitor receives the parent and the child's
    ordinal position; a child the selector rejects is skipped with its whole
    subtree. *)
Fixpoint nodesWithCtxHelper (s : option SelectorFunc) (f : CtxFunc)
    (n : Node) (parent : option Node) (childNum : Z)
  : Result (Node * TreeIdentity) :=
  let child (c : Node) (i : Z) :=
    if selected s (MkContext c (Some n) i)
    then nodesWithCtxHelper s f c (Some n) i
    else Ok (c, SameTree) in
  transformNodeWithCtx f (MkContext n parent childNum)
    match n with
    | ResolvedTable _ _ | UnresolvedTable _ => []
    | Project _ c | Filter _ c | SubqueryAlias _ _ c | TableAlias _ c
    | CachedResults c | StripRowNode c _ | QueryProcess c
    | StartTransaction c => [child c 0]
    | JoinNode _ _ _ l r | IndexedJoin _ _ _ l r | CreateTrigger _ l r =>
        [child l 0; child r 1]
    | TriggerBeginEndBlock ss => mapWithIndex child ss 0
    end.

Definition visit_NodesWithCtx (n : Node) (s : option SelectorFunc) (f : CtxFunc)
  : Result (Node * TreeIdentity) :=
  nodesWithCtxHelper s f n None (-1).

Definition ExprFunc := Expression -> Result (Expression * TreeIdentity).

Definition transformExpr (f : ExprFunc) (e : Expression)
    (rs : list (Result (Expression * TreeIdentity)))
  : Result (Expression * TreeIdentity) :=
  match ExprChildren e with
  | [] => f e
  | children =>
      '(newChildren, sameC) ← collectChildren children rs;
      e' ← (if isSame sameC then Ok e else ExprWithChildren e newChildren);
      '(e'', sameN) ← f e';
      Ok (e'', andT sameC sameN)
  end.

(** Modelled from the spec: the bottom-up transform of one expression, with
    the same protocol as [visit.Nodes]. *)
Fixpoint visit_Exprs (f : ExprFunc) (e : Expression)
  : Result (Expression * TreeIdentity) :=
  transformExpr f e
    match e with
    | Literal _ | GetField _ _ | UnresolvedColumn _ | Subquery _ _ => []
    | Equals l r => [visit_Exprs f l; visit_Exprs f r]
    | UnresolvedFunction _ args _ | FunctionCall _ _ _ args _ =>
        map (visit_Exprs f) args
    end.

Definition ExprWithNodeFunc := Node -> ExprFunc.

(** Modelled from the spec: the expression-within-node transform at one
    node.  A node that carries no expressions is returned as it is;
    otherwise every expression is transformed and the node is rebuilt when
    one of them changed. *)
Definition OneNodeExprsWithNode (f : ExprWithNodeFunc) (n : Node)
  : Result (Node * TreeIdentity) :=
  if isExpressioner n then
    '(newExprs, same) ←
      collectChildren (Expressions n) (map (visit_Exprs (f n)) (Expressions n));
    if isSame same then Ok (n, SameTree)
    else (n' ← WithExpressions n newExprs; Ok (n', NewTree))
  else Ok (n, SameTree).

(** Modelled from the spec: [visit.NodesExprsWithNode] applies the
    expression rewrite to every expression attached to every node of the
    tree; the rewrite receives the node the expression is attached to. *)
Definition visit_NodesExprsWithNode (n : Node) (f : ExprWithNodeFunc)
  : Result (Node * TreeIdentity) :=
  visit_Nodes (OneNodeExprsWithNode f) n.

(** Modelled from the spec: [sql.Inspect] walks an expression in depth-first
    order.  The visitor is called on every expression; when it returns
    [false] the children of that expression are skipped, and after the
    children of an expression it is called once more with [nil] ([None]).
    The visitor is a closure over local variables of its caller: their
    values are the state [S]. *)
Fixpoint sql_Inspect {S} (f : option Expression -> S -> bool * S)
    (e : Expression) (s : S) : S :=
  let '(descend, s1) := f (Some e) s in
  if descend then
    let s2 :=
      match e with
      | Literal _ | GetField _ _ | UnresolvedColumn _ | Subquery _ _ => s1
      | Equals l r => sql_Inspect f r (sql_Inspect f l s1)
      | UnresolvedFunction _ args _ | FunctionCall _ _ _ args _ =>
          fold_left (fun s c => sql_Inspect f c s) args s1
      end in
    snd (f None s2)
  else s1.

(** Modelled from the spec: [visit.Inspect], the same walk over the nodes
    of a plan. *)
Fixpoint visit_Inspect {S} (f : option Node -> S -> bool * S)
    (n : Node) (s : S) : S :=
  let '(descend, s1) := f (Some n) s in
  if descend then
    let s2 :=
      match n with
      | ResolvedTable _ _ | UnresolvedTable _ => s1
      | Project _ c | Filter _ c | SubqueryAlias _ _ c | TableAlias _ c
      | CachedResults c | StripRowNode c _ | QueryProcess c
      | StartTransaction c => visit_Inspect f c s1
      | JoinNode _ _ _ l r | IndexedJoin _ _ _ l r | CreateTrigger _ l r =>
          visit_Inspect f r (visit_Inspect f l s1)
      | TriggerBeginEndBlock ss =>
          fold_left (fun s c => visit_Inspect f c s) ss s1
      end in
    snd (f None s2)
  else s1.

(** ** Scopes *)

(** Modelled from the spec: the number of output columns of a plan (its
    [Schema()] length, which [schemaLength] returns). *)
Fixpoint schemaLength (n : Node) : Z :=
  match n with
  | ResolvedTable _ w => Z.of_nat w
  | UnresolvedTable _ => 0
  | Project es _ => Z.of_nat (length es)
  | Filter _ c | SubqueryAlias _ _ c | TableAlias _ c | CachedResults c
  | StripRowNode c _ | QueryProcess c | StartTransaction c => schemaLength c
  | JoinNode _ _ _ l r | IndexedJoin _ _ _ l r => schemaLength l + schemaLength r
  | TriggerBeginEndBlock _ | CreateTrigger _ _ _ => 0
  end.

(** Modelled from the spec: [*Scope] is a chain of the nodes of the
    enclosing query blocks, innermost first; the nil pointer ([None]) is the
    scope of a top-level statement. *)
Definition Scope := option (list Node).

(** [scope.newScope(node)] pushes one level. *)
Definition newScope (scope : Scope) (n : Node) : Scope :=
  match scope with
  | None => Some [n]
  | Some nodes => Some (n :: nodes)
  end.

(** [len(scope.Schema())]: the columns visible from all enclosing levels,
    which are the columns the children of each scope node produce. *)
Definition scopeSchemaLen (scope : Scope) : Z :=
  match scope with
  | None => 0
  | Some nodes =>
      fold_right (fun n acc =>
        fold_right (fun c acc' => schemaLength c + acc') acc (Children n)) 0 nodes
  end.

(** ** The analyzer *)

(** What a recursive analysis returns: Go's [(sql.Node, sql.TreeIdentity,
    error)].  The node is returned next to the error too, and
    [resolveSubqueryExpressions] reads it in that case. *)
Definition Analysis := (Node * TreeIdentity * option Error)%type.

(** A function of the catalog: what [NewInstance] checks and builds. *)
Record FunctionImpl := MkFunctionImpl {
  fnKind : FunctionKind;
  fnNonDeterministic : bool;
  fnArity : option nat
}.

(** The parts of [*Analyzer] the rules call.  The recursive entry points
    belong to the rule engine, which is not among the source files and runs
    these very rules; they are taken as they come. *)
Record Analyzer := MkAnalyzer {
  analyzeThroughBatch : Node -> Scope -> string -> Analysis;
  analyzeStartingAtBatch : Node -> Scope -> string -> Analysis;
  analyzeWithSelector : Node -> Scope -> Analysis;
  Catalog : gmap string FunctionImpl
}.

(** [StripPassthroughNodes] removes the top-level [QueryProcess] and
    [StartTransaction] wrappers. *)
Fixpoint StripPassthroughNodes (n : Node) : Node :=
  match n with
  | QueryProcess c => StripPassthroughNodes c
  | StartTransaction c => StripPassthroughNodes c
  | _ => n
  end.

(** [len(n.Columns) > 0] and [schemaLen != len(n.Columns)]. *)
Definition columnCountMismatch (Columns : list string) (Child : Node) : bool :=
  (0 <? Z.of_nat (length Columns))
  && negb (schemaLength Child =? Z.of_nat (length Columns)).

(** The visitor that [resolveSubqueries] and [finalizeSubqueries] share; they
    differ in the entry point of the recursive analysis. *)
Definition resolveSubqueryAlias (analyze : Node -> Scope -> string -> Analysis)
    (n : Node) : Result (Node * TreeIdentity) :=
  match n with
  | SubqueryAlias _ Columns Child =>
      (* subqueries do not have access to outer scope *)
      let '(child, same, err) := analyze Child None "default-rules" in
      match err with
      | Some e => Err e
      | None =>
          if columnCountMismatch Columns Child then Err ErrColumnCountMismatch
          else if isSame same then Ok (n, SameTree)
          else (newn ← WithChildren n [StripPassthroughNodes child];
                Ok (newn, NewTree))
      end
  | _ => Ok (n, SameTree)
  end.

Definition resolveSubqueries (a : Analyzer) (n : Node) (scope : Scope)
  : Result (Node * TreeIdentity) :=
  visit_Nodes (resolveSubqueryAlias (analyzeThroughBatch a)) n.

Definition finalizeSubqueries (a : Analyzer) (n : Node) (scope : Scope)
  : Result (Node * TreeIdentity) :=
  visit_Nodes (resolveSubqueryAlias (analyzeStartingAtBatch a)) n.

(** [sa.WithName(name)] and [ta.WithName(name)]. *)
Definition flattenTableAliases (a : Analyzer) (n : Node) (scope : Scope)
  : Result (Node * TreeIdentity) :=
  visit_Nodes (fun n =>
    match n with
    | TableAlias nm (SubqueryAlias _ cols c) => Ok (SubqueryAlias nm cols c, NewTree)
    | TableAlias nm (TableAlias _ c) => Ok (TableAlias nm c, NewTree)
    | _ => Ok (n, SameTree)
    end) n.

(** The deferred class of errors: [ErrValidationResolved.Is(err) ||
    sql.ErrTableColumnNotFound.Is(err) || sql.ErrColumnNotFound.Is(err)]. *)
Definition isDeferred (e : Error) : bool :=
  match e with
  | ErrValidationResolved | ErrTableColumnNotFound _ _ | ErrColumnNotFound _ => true
  | _ => false
  end.

(** [s.WithQuery(node)] keeps the other fields of the subquery. *)
Definition WithQuery (cached : bool) (q : Node) : Expression := Subquery q cached.

(** The visitor of [resolveSubqueryExpressions]. *)
Definition resolveSubqueryExpression (a : Analyzer) (scope : Scope)
    (n : Node) (e : Expression) : Result (Expression * TreeIdentity) :=
  match e with
  | Subquery Query cached =>
      let subScope := newScope scope n in
      let '(analyzed, same, err) := analyzeWithSelector a Query subScope in
      match err with
      | Some err =>
          if isDeferred err then
            (* keep the work we have and defer the remainder *)
            Ok (WithQuery cached analyzed, same)
          else Err err
      | None =>
          if isSame same then Ok (e, SameTree)
          else Ok (WithQuery cached (StripPassthroughNodes analyzed), NewTree)
      end
  | _ => Ok (e, SameTree)
  end.

Section ResolveSubqueryExpressions.
(** [nodesEqual] compares two plans; it is not among the source files and
    nothing below depends on what it computes. *)
Variable nodesEqual : Node -> Node -> bool.

Definition resolveSubqueryExpressions (a : Analyzer) (n : Node) (scope : Scope)
  : Result (Node * TreeIdentity) :=
  match visit_NodesExprsWithNode n (resolveSubqueryExpression a scope) with
  | Err err => Err err
  | Ok (newn, _) =>
      if nodesEqual newn n then Ok (n, SameTree) else Ok (newn, NewTree)
  end.
End ResolveSubqueryExpressions.

(** ** Cacheability *)

(** The closure of [exprIsCacheable]; its state is the local [cacheable]. *)
Definition exprIsCacheableVisit (lowestAllowedIdx : Z)
    (e : option Expression) (cacheable : bool) : bool * bool :=
  match e with
  | None => (true, cacheable)
  | Some e' =>
      let belowLowest :=
        match e' with
        | GetField index _ => index <? lowestAllowedIdx
        | _ => false
        end in
      if belowLowest then (false, false)
      else if IsNonDeterministic e' then (false, false)
      else (true, cacheable)
  end.

Definition exprIsCacheable (expr : Expression) (lowestAllowedIdx : Z) : bool :=
  sql_Inspect (exprIsCacheableVisit lowestAllowedIdx) expr true.

(** The loop over [er.Expressions()] in [nodeIsCacheable]: [true] when it
    reaches its end, [false] when it returns early. *)
Definition allExprsCacheable (es : list Expression) (lowestAllowedIdx : Z) : bool :=
  forallb (fun e => exprIsCacheable e lowestAllowedIdx) es.

(** The closure of [nodeIsCacheable]. *)
Definition nodeIsCacheableVisit (lowestAllowedIdx : Z)
    (node : option Node) (cacheable : bool) : bool * bool :=
  match node with
  | Some n =>
      if isExpressioner n then
        if allExprsCacheable (Expressions n) lowestAllowedIdx
        then (true, cacheable) else (false, false)
      else
        match n with
        | SubqueryAlias _ _ _ => (false, cacheable)
        | _ => (true, cacheable)
        end
  | None => (true, cacheable)
  end.

Definition nodeIsCacheable (n : Node) (lowestAllowedIdx : Z) : bool :=
  visit_Inspect (nodeIsCacheableVisit lowestAllowedIdx) n true.

(** [s.WithCachedResults()]. *)
Definition WithCachedResults (q : Node) : Expression := Subquery q true.

(** The visitor of [cacheSubqueryResults]. *)
Definition cacheSubqueryResult (scope : Scope) (n : Node) (e : Expression)
  : Result (Expression * TreeIdentity) :=
  match e with
  | Subquery Query _ =>
      if negb (ExprResolved e) then Ok (e, SameTree)
      else
        let scopeLen := scopeSchemaLen (newScope scope n) in
        let cacheable := nodeIsCacheable Query scopeLen in
        if cacheable then Ok (WithCachedResults Query, NewTree)
        else Ok (e, SameTree)
  | _ => Ok (e, SameTree)
  end.

Definition cacheSubqueryResults (a : Analyzer) (n : Node) (scope : Scope)
  : Result (Node * TreeIdentity) :=
  match n with
  | TriggerBeginEndBlock _ => Ok (n, SameTree)
  | _ => visit_NodesExprsWithNode n (cacheSubqueryResult scope)
  end.

(** ** Caching subquery aliases in joins *)

Definition isJoinNode (n : option Node) : bool :=
  match n with Some (JoinNode _ _ _ _ _) => true | _ => false end.

Definition isIndexedJoin (n : option Node) : bool :=
  match n with Some (IndexedJoin _ _ _ _ _) => true | _ => false end.

(** The first visitor: wrap a subquery alias under a join. *)
Definition cacheAliasUnderJoin (c : TransformContext) : Result (Node * TreeIdentity) :=
  if isJoinNode (Parent c) || isIndexedJoin (Parent c) then
    match ctxNode c with
    | SubqueryAlias _ _ _ => Ok (CachedResults (ctxNode c), NewTree)
    | _ => Ok (ctxNode c, SameTree)
    end
  else Ok (ctxNode c, SameTree).

(** The selector of the second pass: the primary operand of a join. *)
Definition primarySelector (c : TransformContext) : bool :=
  match Parent c with
  | Some (IndexedJoin _ _ _ _ _) => ChildNum c =? 0
  | Some (JoinNode jt _ _ _ _) =>
      match jt with
      | JoinTypeRight => ChildNum c =? 1
      | _ => ChildNum c =? 0
      end
  | _ => true
  end.

(** The second visitor: drop a [CachedResults]. *)
Definition uncache (c : TransformContext) : Result (Node * TreeIdentity) :=
  match ctxNode c with
  | CachedResults child => Ok (child, NewTree)
  | _ => Ok (ctxNode c, SameTree)
  end.

(** Go returns the node next to the error of the first pass; no error is
    raised by either visitor, and [Err] carries the error alone. *)
Definition cacheSubqueryAlisesInJoins (a : Analyzer) (n : Node) (scope : Scope)
  : Result (Node * TreeIdentity) :=
  '(n1, sameA) ← visit_NodesWithCtx n None cacheAliasUnderJoin;
  match scope with
  | None =>
      '(n2, sameD) ← visit_NodesWithCtx n1 (Some primarySelector) uncache;
      Ok (n2, andT sameA sameD)
  | Some _ => Ok (n1, andT sameA SameTree)
  end.

(** ** Join scope propagation *)

Definition isStripRowNode (n : Node) : bool :=
  match n with StripRowNode _ _ => true | _ => false end.

(** The visitor of [setJoinScopeLen]. *)
Definition setJoinScopeLenVisit (scopeLen : Z) (n : Node)
  : Result (Node * TreeIdentity) :=
  match n with
  | JoinNode jt _ cond l r =>
      (* nj := j.WithScopeLen(scopeLen) *)
      if negb (isStripRowNode l) then
        (nj ← WithChildren (JoinNode jt scopeLen cond l r)
                [StripRowNode l scopeLen; StripRowNode r scopeLen];
         Ok (nj, NewTree))
      else Ok (JoinNode jt scopeLen cond l r, SameTree)
  | _ => Ok (n, SameTree)
  end.

Definition setJoinScopeLen (a : Analyzer) (n : Node) (scope : Scope)
  : Result (Node * TreeIdentity) :=
  let scopeLen := scopeSchemaLen scope in
  if scopeLen =? 0 then Ok (n, SameTree)
  else visit_Nodes (setJoinScopeLenVisit scopeLen) n.

(** ** Function resolution *)

Fixpoint sequenceR {A} (rs : list (Result A)) : Result (list A) :=
  match rs with
  | [] => Ok []
  | r :: rs' => a ← r; as' ← sequenceR rs'; Ok (a :: as')
  end.

(** Modelled from the spec: [expression.TransformUp], the bottom-up rewrite
    of an expression in the transform API without change identity. *)
Fixpoint expression_TransformUp (f : Expression -> Result Expression)
    (e : Expression) : Result Expression :=
  match e with
  | Literal _ | GetField _ _ | UnresolvedColumn _ | Subquery _ _ => f e
  | Equals l r =>
      l' ← expression_TransformUp f l;
      r' ← expression_TransformUp f r;
      f (Equals l' r')
  | UnresolvedFunction nm args w =>
      args' ← sequenceR (map (expression_TransformUp f) args);
      f (UnresolvedFunction nm args' w)
  | FunctionCall nm k nd args w =>
      args' ← sequenceR (map (expression_TransformUp f) args);
      f (FunctionCall nm k nd args' w)
  end.

(** Modelled from the spec: [plan.TransformExpressions] rewrites the
    expressions attached to one node. *)
Definition plan_TransformExpressions (f : Expression -> Result Expression)
    (n : Node) : Result Node :=
  if isExpressioner n then
    es ← sequenceR (map (expression_TransformUp f) (Expressions n));
    WithExpressions n es
  else Ok n.

(** Modelled from the spec: [plan.TransformUp], the bottom-up rewrite of a
    plan in the transform API without change identity. *)
Fixpoint plan_TransformUp (f : Node -> Result Node) (n : Node) : Result Node :=
  match Children n with
  | [] => f n
  | _ =>
      cs ← sequenceR
        match n with
        | ResolvedTable _ _ | UnresolvedTable _ => []
        | Project _ c | Filter _ c | SubqueryAlias _ _ c | TableAlias _ c
        | CachedResults c | StripRowNode c _ | QueryProcess c
        | StartTransaction c => [plan_TransformUp f c]
        | JoinNode _ _ _ l r | IndexedJoin _ _ _ l r | CreateTrigger _ l r =>
            [plan_TransformUp f l; plan_TransformUp f r]
        | TriggerBeginEndBlock ss => map (plan_TransformUp f) ss
        end;
      n' ← WithChildren n cs;
      f n'
  end.

(** Modelled from the spec: [plan.TransformExpressionsUp] rewrites the
    expressions of every node of a plan, children first. *)
Definition plan_TransformExpressionsUp (n : Node)
    (f : Expression -> Result Expression) : Result Node :=
  plan_TransformUp (plan_TransformExpressions f) n.

(** Modelled from the spec: [a.Catalog.Function(ctx, name)]; a name the
    catalog does not hold is the error [ErrFunctionNotFound]
    ([UnknownFunction]). *)
Definition Catalog_Function (a : Analyzer) (name : string) : Result FunctionImpl :=
  match Catalog a !! name with
  | Some f => Ok f
  | None => Err (ErrFunctionNotFound name)
  end.

(** Modelled from the spec: [f.NewInstance(args)] instantiates the function
    with the arguments, after checking their number. *)
Definition NewInstance (name : string) (f : FunctionImpl)
    (args : list Expression) : Result Expression :=
  match fnArity f with
  | Some k =>
      if decide (length args = k)
      then Ok (FunctionCall name (fnKind f) (fnNonDeterministic f) args None)
      else Err (ErrInvalidArgumentNumber name)
  | None => Ok (FunctionCall name (fnKind f) (fnNonDeterministic f) args None)
  end.

(** [a.WithWindow(window)] of an aggregation or window aggregation. *)
Definition WithWindow (e : Expression) (w : option Window) : Result Expression :=
  match e with
  | FunctionCall nm k nd args _ => Ok (FunctionCall nm k nd args w)
  | _ => Ok e
  end.

Definition resolveFunctionsInExpr (a : Analyzer) (e : Expression)
  : Result Expression :=
  if ExprResolved e then Ok e
  else
    match e with
    | UnresolvedFunction n Arguments window =>
        f ← Catalog_Function a n;
        rf ← NewInstance n f Arguments;
        match rf with
        | FunctionCall _ WindowAggregation _ _ _ => WithWindow rf window
        | FunctionCall _ Aggregation _ _ _ => WithWindow rf window
        | _ => Ok rf
        end
    | _ => Ok e
    end.

Definition resolveFunctions (a : Analyzer) (n : Node) (scope : Scope)
  : Result Node :=
  plan_TransformUp (fun n =>
    if NodeResolved n then Ok n
    else plan_TransformExpressionsUp n (resolveFunctionsInExpr a)) n.

(** ** The row iterator of CREATE TRIGGER *)

Record TriggerDefinition := MkTriggerDefinition {
  Name : string;
  CreateStatement : string;
  CreatedAt : Z
}.

(** Modelled from the spec: a database.  [sql.TriggerDatabase] is the
    optional capability; a
    database that has it stores trigger definitions and may refuse one.  The
    log of the calls to [CreateTrigger] is kept next to the stored triggers
    to count the attempts. *)
Inductive Database :=
| PlainDatabase (name : string)
| TriggerDatabase (name : string) (triggers : list TriggerDefinition)
    (calls : list TriggerDefinition)
    (refuses : list TriggerDefinition -> TriggerDefinition -> option Error).

Definition Database_Name (db : Database) : string :=
  match db with
  | PlainDatabase nm => nm
  | TriggerDatabase nm _ _ _ => nm
  end.

Definition createTriggerCalls (db : Database) : list TriggerDefinition :=
  match db with
  | PlainDatabase _ => []
  | TriggerDatabase _ _ calls _ => calls
  end.

(** [tdb.CreateTrigger(ctx, definition)] on a trigger-capable database. *)
Definition Database_CreateTrigger (nm : string) (triggers calls : list TriggerDefinition)
    (refuses : list TriggerDefinition -> TriggerDefinition -> option Error)
    (d : TriggerDefinition) : Database * option Error :=
  match refuses triggers d with
  | Some e => (TriggerDatabase nm triggers (d :: calls) refuses, Some e)
  | None => (TriggerDatabase nm (d :: triggers) (d :: calls) refuses, None)
  end.

Inductive RowValue := OkResult (rowsAffected : Z).
Definition Row := list RowValue.

(** [createTriggerIter]: [once] is [true] when the [sync.Once] has fired.
    The database is shared with the session, so [Next] takes it and returns
    it. *)
Record createTriggerIter := MkCreateTriggerIter {
  once : bool;
  definition : TriggerDefinition
}.

Definition createTriggerIter_Next (c : createTriggerIter) (db : Database)
  : Result Row * createTriggerIter * Database :=
  let run := negb (once c) in
  let c' := MkCreateTriggerIter true (definition c) in
  if negb run then (Err EOF, c', db)
  else
    match db with
    | PlainDatabase _ => (Err (ErrTriggersNotSupported (Database_Name db)), c', db)
    | TriggerDatabase nm triggers calls refuses =>
        match Database_CreateTrigger nm triggers calls refuses (definition c) with
        | (db', Some err) => (Err err, c', db')
        | (db', None) => (Ok [OkResult 0], c', db')
        end
    end.

(** [n] calls to [Next] in a row: the results in order, and the final
    iterator and database. *)
Fixpoint createTriggerIter_run (n : nat) (c : createTriggerIter) (db : Database)
  : list (Result Row) * createTriggerIter * Database :=
  match n with
  | O => ([], c, db)
  | S n' =>
      let '(r, c1, db1) := createTriggerIter_Next c db in
      let '(rs, c2, db2) := createTriggerIter_run n' c1 db1 in
      (r :: rs, c2, db2)
  end.

(** [CreateTrigger.RowIter] builds the iterator with a fresh [sync.Once]. *)
Definition CreateTrigger_RowIter (TriggerName CreateTriggerString : string)
    (createdAt : Z) : createTriggerIter :=
  MkCreateTriggerIter false
    (MkTriggerDefinition TriggerName CreateTriggerString createdAt).

(** * Properties *)

(** ** The CREATE TRIGGER iterator *)

Lemma createTriggerIter_Next_done d db :
  createTriggerIter_Next (MkCreateTriggerIter true d) db
  = (Err EOF, MkCreateTriggerIter true d, db).
Proof. reflexivity. Qed.

Lemma createTriggerIter_run_done n d db :
  createTriggerIter_run n (MkCreateTriggerIter true d) db
  = (replicate n (Err EOF), MkCreateTriggerIter true d, db).
Proof.
  induction n as [|n IH]; [reflexivity|].
  cbn [createTriggerIter_run]. rewrite createTriggerIter_Next_done, IH.
  reflexivity.
Qed.

(** C10.  On a fresh iterator, as [RowIter] builds it, the first [Next]
    returns [ErrTriggersNotSupported] for a database without the trigger
    capability, the error of [CreateTrigger] when the database refuses the
    definition, and otherwise the single row [OkResult 0] after the trigger
    is stored; every later [Next] returns [io.EOF] and leaves the database
    alone, so [CreateTrigger] is called at most once. *)
Theorem createTriggerIter_Next_once (d : TriggerDefinition) (db : Database) (n : nat) :
  let '(rs, c', db') :=
    createTriggerIter_run (S n) (MkCreateTriggerIter false d) db in
  once c' = true
  /\ match db with
     | PlainDatabase nm =>
         rs = Err (ErrTriggersNotSupported nm) :: replicate n (Err EOF)
         /\ db' = db
     | TriggerDatabase nm triggers calls refuses =>
         match refuses triggers d with
         | Some err =>
             rs = Err err :: replicate n (Err EOF)
             /\ db' = TriggerDatabase nm triggers (d :: calls) refuses
         | None =>
             rs = Ok [OkResult 0] :: replicate n (Err EOF)
             /\ db' = TriggerDatabase nm (d :: triggers) (d :: calls) refuses
         end
     end
  /\ (length (createTriggerCalls db') <= S (length (createTriggerCalls db)))%nat.
Proof.
  cbn [createTriggerIter_run].
  destruct db as [nm|nm triggers calls refuses].
  - cbn. rewrite createTriggerIter_run_done. cbn. auto.
  - cbn. unfold Database_CreateTrigger.
    destruct (refuses triggers d) as [err|];
      rewrite createTriggerIter_run_done; cbn; auto.
Qed.

(** ** Cacheability of expressions and plans *)

(** The expressions contained in an expression: itself and, through
    [Children()], its sub-expressions. *)
Fixpoint subExprs (e : Expression) : list Expression :=
  e :: match e with
       | Literal _ | GetField _ _ | UnresolvedColumn _ | Subquery _ _ => []
       | Equals l r => subExprs l ++ subExprs r
       | UnresolvedFunction _ args _ | FunctionCall _ _ _ args _ =>
           concat (map subExprs args)
       end.

(** One expression passes the two tests of [exprIsCacheable]. *)
Definition exprAllowed (lowestAllowedIdx : Z) (e : Expression) : bool :=
  match e with
  | GetField index _ => negb (index <? lowestAllowedIdx)
  | _ => negb (IsNonDeterministic e)
  end.

Lemma list_all_Forall {A} (P : A -> Prop) (l : list A) :
  list_all A P l -> Forall P l.
Proof. induction 1; constructor; assumption. Qed.

Lemma exprIsCacheableVisit_allowed i e s :
  exprIsCacheableVisit i (Some e) s
  = if exprAllowed i e then (true, s) else (false, false).
Proof.
  unfold exprIsCacheableVisit, exprAllowed.
  destruct e; cbn; try reflexivity.
  - destruct (index <? i); reflexivity.
  - destruct nondet; reflexivity.
Qed.

Lemma sql_Inspect_unfold {S} (f : option Expression -> S -> bool * S) e s :
  sql_Inspect f e s
  = let '(descend, s1) := f (Some e) s in
    if descend then
      snd (f None (fold_left (fun s c => sql_Inspect f c s) (ExprChildren e) s1))
    else s1.
Proof. destruct e; cbn; destruct (f _ s) as [[] ?]; reflexivity. Qed.

Lemma subExprs_unfold e :
  subExprs e = e :: concat (map subExprs (ExprChildren e)).
Proof.
  destruct e; cbn; try reflexivity.
  rewrite app_nil_r. reflexivity.
Qed.

(** The flag only ever goes down: the walk returns the conjunction of the
    flag it started with and the tests of the expressions it contains. *)
Lemma exprIsCacheable_walk i e :
  forall s, sql_Inspect (exprIsCacheableVisit i) e s
            = s && forallb (exprAllowed i) (subExprs e).
Proof.
  assert (Hfold : forall es, Forall (fun e => forall s,
              sql_Inspect (exprIsCacheableVisit i) e s
              = s && forallb (exprAllowed i) (subExprs e)) es ->
            forall s, fold_left (fun s c => sql_Inspect (exprIsCacheableVisit i) c s) es s
                      = s && forallb (exprAllowed i) (concat (map subExprs es))).
  { induction 1 as [|x es Hx _ IH]; intros s; cbn.
    - rewrite andb_true_r. reflexivity.
    - rewrite IH, Hx, forallb_app, andb_assoc. reflexivity. }
  induction e; intros s; rewrite sql_Inspect_unfold, subExprs_unfold,
    exprIsCacheableVisit_allowed; cbn [forallb ExprChildren];
    (destruct (exprAllowed i _); [|cbn; rewrite andb_false_r; reflexivity]);
    cbn [snd exprIsCacheableVisit andb].
  1-3, 7: cbn; rewrite andb_true_r; reflexivity.
  - apply Hfold. repeat constructor; assumption.
  - apply Hfold, list_all_Forall. assumption.
  - apply Hfold, list_all_Forall. assumption.
Qed.

Lemma exprIsCacheable_forallb e i :
  exprIsCacheable e i = forallb (exprAllowed i) (subExprs e).
Proof. unfold exprIsCacheable. rewrite exprIsCacheable_walk. reflexivity. Qed.

Definition isSubqueryAlias (n : Node) : bool :=
  match n with SubqueryAlias _ _ _ => true | _ => false end.

(** Every node of a plan. *)
Fixpoint allNodes (n : Node) : list Node :=
  n :: match n with
       | ResolvedTable _ _ | UnresolvedTable _ => []
       | Project _ c | Filter _ c | SubqueryAlias _ _ c | TableAlias _ c
       | CachedResults c | StripRowNode c _ | QueryProcess c
       | StartTransaction c => allNodes c
       | JoinNode _ _ _ l r | IndexedJoin _ _ _ l r | CreateTrigger _ l r =>
           allNodes l ++ allNodes r
       | TriggerBeginEndBlock ss => concat (map allNodes ss)
       end.

(** The nodes of a plan that are not beneath a subquery alias. *)
Fixpoint nodesAboveAliases (n : Node) : list Node :=
  n :: match n with
       | ResolvedTable _ _ | UnresolvedTable _ | SubqueryAlias _ _ _ => []
       | Project _ c | Filter _ c | TableAlias _ c
       | CachedResults c | StripRowNode c _ | QueryProcess c
       | StartTransaction c => nodesAboveAliases c
       | JoinNode _ _ _ l r | IndexedJoin _ _ _ l r | CreateTrigger _ l r =>
           nodesAboveAliases l ++ nodesAboveAliases r
       | TriggerBeginEndBlock ss => concat (map nodesAboveAliases ss)
       end.

Lemma visit_Inspect_unfold {S} (f : option Node -> S -> bool * S) n s :
  visit_Inspect f n s
  = let '(descend, s1) := f (Some n) s in
    if descend then
      snd (f None (fold_left (fun s c => visit_Inspect f c s) (Children n) s1))
    else s1.
Proof. destruct n; cbn; destruct (f _ s) as [[] ?]; reflexivity. Qed.

Lemma nodesAboveAliases_unfold n :
  nodesAboveAliases n
  = n :: if isSubqueryAlias n then []
         else concat (map nodesAboveAliases (Children n)).
Proof. destruct n; cbn; rewrite ?app_nil_r; reflexivity. Qed.

Lemma allNodes_unfold n :
  allNodes n = n :: concat (map allNodes (Children n)).
Proof. destruct n; cbn; rewrite ?app_nil_r; reflexivity. Qed.

Lemma Node_Children_ind (P : Node -> Prop) :
  (forall n, Forall P (Children n) -> P n) -> forall n, P n.
Proof.
  intros H. induction n; apply H; cbn; repeat constructor; try assumption.
  apply list_all_Forall. assumption.
Qed.

Lemma nodeIsCacheableVisit_Some w n s :
  nodeIsCacheableVisit w (Some n) s
  = if allExprsCacheable (Expressions n) w
    then (negb (isSubqueryAlias n), s) else (false, false).
Proof. destruct n; cbn; try reflexivity; destruct (allExprsCacheable _ _); reflexivity. Qed.

Lemma nodeIsCacheable_walk w n :
  forall s, visit_Inspect (nodeIsCacheableVisit w) n s
            = s && forallb (fun m => allExprsCacheable (Expressions m) w)
                     (nodesAboveAliases n).
Proof.
  induction n as [n IH] using Node_Children_ind. intros s.
  rewrite visit_Inspect_unfold, nodesAboveAliases_unfold, nodeIsCacheableVisit_Some.
  cbn [forallb].
  destruct (allExprsCacheable (Expressions n) w); cbn [andb];
    [|rewrite andb_false_r; reflexivity].
  destruct (isSubqueryAlias n); cbn [negb snd nodeIsCacheableVisit forallb];
    [rewrite andb_true_r; reflexivity|].
  revert s. induction IH as [|c cs Hc _ IHcs]; intros s; cbn.
  - rewrite andb_true_r. reflexivity.
  - rewrite IHcs, Hc, forallb_app, andb_assoc. reflexivity.
Qed.

Lemma nodeIsCacheable_forallb n w :
  nodeIsCacheable n w
  = forallb (fun m => allExprsCacheable (Expressions m) w) (nodesAboveAliases n).
Proof. unfold nodeIsCacheable. rewrite nodeIsCacheable_walk. reflexivity. Qed.

(** What the spec asks of the expressions of a cacheable subtree: every
    column reference is at or above the lowest allowed index, and no
    expression reports itself non-deterministic. *)
Definition refsAtOrAbove (i : Z) (e : Expression) : Prop :=
  (forall idx nm, GetField idx nm ∈ subExprs e -> i <= idx)
  /\ (forall s, s ∈ subExprs e -> IsNonDeterministic s = false).

Lemma exprAllowed_all i (es : list Expression) :
  forallb (exprAllowed i) es = true
  <-> (forall idx nm, GetField idx nm ∈ es -> i <= idx)
      /\ (forall s, s ∈ es -> IsNonDeterministic s = false).
Proof.
  rewrite forallb_forall. split.
  - intros H. split.
    + intros idx nm Hin. apply list_elem_of_In, H in Hin. cbn in Hin.
      apply negb_true_iff, Z.ltb_ge in Hin. exact Hin.
    + intros s Hin. apply list_elem_of_In, H in Hin.
      destruct s; try reflexivity. cbn in Hin.
      apply negb_true_iff in Hin. exact Hin.
  - intros [Hidx Hnd] x Hin. apply list_elem_of_In in Hin.
    destruct x; try reflexivity.
    + cbn. apply negb_true_iff, Z.ltb_ge. eapply Hidx, Hin.
    + cbn. apply negb_true_iff. apply (Hnd _ Hin).
Qed.

Lemma exprIsCacheable_iff e i :
  exprIsCacheable e i = true <-> refsAtOrAbove i e.
Proof. rewrite exprIsCacheable_forallb. apply exprAllowed_all. Qed.

Lemma nodeIsCacheable_iff q i :
  nodeIsCacheable q i = true
  <-> forall n e, n ∈ nodesAboveAliases q -> e ∈ Expressions n -> refsAtOrAbove i e.
Proof.
  rewrite nodeIsCacheable_forallb, forallb_forall. split.
  - intros H n e Hn He. apply list_elem_of_In, H in Hn.
    unfold allExprsCacheable in Hn. rewrite forallb_forall in Hn.
    apply exprIsCacheable_iff, Hn, list_elem_of_In, He.
  - intros H n Hn. unfold allExprsCacheable. rewrite forallb_forall.
    intros e He. apply exprIsCacheable_iff.
    apply (H n e); apply list_elem_of_In; assumption.
Qed.

Lemma nodesAboveAliases_allNodes q n :
  n ∈ nodesAboveAliases q -> n ∈ allNodes q.
Proof.
  revert n. induction q as [q IH] using Node_Children_ind. intros n.
  rewrite nodesAboveAliases_unfold, allNodes_unfold.
  intros [->|Hin]%elem_of_cons; [left|right].
  destruct (isSubqueryAlias q); [inversion Hin|].
  induction IH as [|c cs Hc _ IHcs]; cbn in *; [inversion Hin|].
  apply elem_of_app in Hin as [Hin|Hin]; apply elem_of_app; auto.
Qed.

(** A plan all of whose column references are at or above the width, with
    no non-deterministic expression, is cacheable. *)
Lemma nodeIsCacheable_true q i :
  (forall n e, n ∈ allNodes q -> e ∈ Expressions n -> refsAtOrAbove i e) ->
  nodeIsCacheable q i = true.
Proof.
  intros H. apply nodeIsCacheable_iff. intros n e Hn.
  apply H, nodesAboveAliases_allNodes, Hn.
Qed.

(** A column reference below the width, in an expression of a node that is
    not beneath a subquery alias, makes the plan uncacheable. *)
Lemma nodeIsCacheable_false q i n e idx nm :
  n ∈ nodesAboveAliases q -> e ∈ Expressions n ->
  GetField idx nm ∈ subExprs e -> idx < i ->
  nodeIsCacheable q i = false.
Proof.
  intros Hn He Hgf Hlt. apply not_true_iff_false. intros Hc.
  destruct (proj1 (nodeIsCacheable_iff q i) Hc n e Hn He) as [Hidx _].
  specialize (Hidx idx nm Hgf). lia.
Qed.

(** The rule marks a resolved subquery expression exactly when its plan is
    cacheable at the width of the scope it is evaluated in. *)
Lemma cacheSubqueryResult_Subquery scope n q c :
  cacheSubqueryResult scope n (Subquery q c)
  = if NodeResolved q && nodeIsCacheable q (scopeSchemaLen (newScope scope n))
    then Ok (Subquery q true, NewTree)
    else Ok (Subquery q c, SameTree).
Proof.
  unfold cacheSubqueryResult. cbn [ExprResolved].
  destruct (NodeResolved q); cbn; [|reflexivity].
  destruct (nodeIsCacheable q _); reflexivity.
Qed.

(** C2, as amended.  [exprIsCacheable e i] holds exactly when every column
    reference contained in [e] has index at least [i] and no sub-expression
    reports itself non-deterministic; [nodeIsCacheable q i], the flag
    [cacheable] of a subquery expression with plan [q] at scope width [i],
    holds exactly when this is so for every expression of every node of [q]
    that is not beneath a subquery alias.  Consequently it holds when this is
    so for every expression of every node of [q], and a column reference
    below [i] in an expression of a node that is not beneath a subquery alias
    makes it false; the rule marks a resolved subquery expression exactly
    when the flag holds. *)
Theorem cacheable_iff (e : Expression) (q : Node) (i : Z) :
  (exprIsCacheable e i = true <-> refsAtOrAbove i e)
  /\ (nodeIsCacheable q i = true
      <-> forall n e', n ∈ nodesAboveAliases q -> e' ∈ Expressions n ->
                       refsAtOrAbove i e')
  /\ ((forall n e', n ∈ allNodes q -> e' ∈ Expressions n -> refsAtOrAbove i e') ->
      nodeIsCacheable q i = true)
  /\ (forall n e' idx nm,
        n ∈ nodesAboveAliases q -> e' ∈ Expressions n ->
        GetField idx nm ∈ subExprs e' -> idx < i ->
        nodeIsCacheable q i = false)
  /\ (forall scope n c,
        cacheSubqueryResult scope n (Subquery q c)
        = if NodeResolved q && nodeIsCacheable q (scopeSchemaLen (newScope scope n))
          then Ok (Subquery q true, NewTree)
          else Ok (Subquery q c, SameTree)).
Proof.
  split; [apply exprIsCacheable_iff|].
  split; [apply nodeIsCacheable_iff|].
  split; [apply nodeIsCacheable_true|].
  split; [apply nodeIsCacheable_false|].
  intros scope n c. apply cacheSubqueryResult_Subquery.
Qed.

(** [SELECT (SELECT x FROM t) FROM o], with two columns in the outer scope:
    the subquery is cacheable while it reads its own column 2, and no longer
    when it reads the outer column 1 as well. *)
Lemma cacheable_iff_witness :
  let t := ResolvedTable "t" 1 in
  nodeIsCacheable (Project [GetField 2 "x"] t) 2 = true
  /\ nodeIsCacheable (Project [GetField 2 "x"; GetField 1 "o"] t) 2 = false.
Proof.
  cbv zeta. split.
  - apply (proj1 (proj2 (proj2
      (cacheable_iff (Literal 0) (Project [GetField 2 "x"] (ResolvedTable "t" 1)) 2)))).
    intros n e' Hn He'. cbn in Hn.
    apply elem_of_cons in Hn as [->|Hn].
    + cbn in He'. apply list_elem_of_singleton in He'. subst e'.
      apply exprIsCacheable_iff. reflexivity.
    + apply list_elem_of_singleton in Hn. subst n. cbn in He'. inversion He'.
  - apply (proj1 (proj2 (proj2 (proj2
      (cacheable_iff (Literal 0)
         (Project [GetField 2 "x"; GetField 1 "o"] (ResolvedTable "t" 1)) 2))))
      (Project [GetField 2 "x"; GetField 1 "o"] (ResolvedTable "t" 1))
      (GetField 1 "o") 1 "o").
    + left.
    + cbn. right. left.
    + left.
    + lia.
Defined.

(** C2, as stated, fails: in the plan below every column reference was at
    or above the width 2 and the plan was cacheable; the reference to column
    0 added beneath the subquery alias leaves it cacheable. *)
Lemma cacheable_below_alias_counterexample :
  let inner := Project [GetField 0 "a"] (ResolvedTable "t" 1) in
  let q := Project [GetField 2 "x"] (SubqueryAlias "s" [] inner) in
  inner ∈ allNodes q
  /\ GetField 0 "a" ∈ Expressions inner
  /\ 0 < 2
  /\ nodeIsCacheable q 2 = true
  /\ ~ (forall (p : Node) (w : Z) n e' idx nm,
          n ∈ allNodes p -> e' ∈ Expressions n ->
          GetField idx nm ∈ subExprs e' -> idx < w ->
          nodeIsCacheable p w = false).
Proof.
  cbv zeta.
  assert (Hin : Project [GetField 0 "a"] (ResolvedTable "t" 1)
                ∈ allNodes (Project [GetField 2 "x"]
                    (SubqueryAlias "s" []
                      (Project [GetField 0 "a"] (ResolvedTable "t" 1))))).
  { cbn. do 2 right. left. }
  assert (He : GetField 0 "a"
               ∈ Expressions (Project [GetField 0 "a"] (ResolvedTable "t" 1))).
  { cbn. left. }
  split; [exact Hin|]. split; [exact He|]. split; [lia|].
  split; [reflexivity|].
  intros H.
  specialize (H _ 2 _ _ 0 "a" Hin He ltac:(cbn; left) ltac:(lia)).
  discriminate H.
Qed.

(** ** The transformation engine on visitors that keep their word

    A visitor is honest when it never fails and returns the node it was
    given whenever it reports [SameTree].  For such a visitor the bottom-up
    transforms compute a plain recursive rewrite, and they are honest
    themselves. *)

(** The rewrite a context-aware transform computes: every selected child is
    rewritten, then the node itself, which sees its parent as it was. *)
Fixpoint rewriteWithCtx (s : option SelectorFunc) (g : TransformContext -> Node)
    (n : Node) (parent : option Node) (childNum : Z) : Node :=
  let child (c : Node) (i : Z) :=
    if selected s (MkContext c (Some n) i)
    then rewriteWithCtx s g c (Some n) i else c in
  let n' :=
    match n with
    | ResolvedTable _ _ | UnresolvedTable _ => n
    | Project es c => Project es (child c 0)
    | Filter e c => Filter e (child c 0)
    | SubqueryAlias nm cols c => SubqueryAlias nm cols (child c 0)
    | TableAlias nm c => TableAlias nm (child c 0)
    | CachedResults c => CachedResults (child c 0)
    | StripRowNode c k => StripRowNode (child c 0) k
    | QueryProcess c => QueryProcess (child c 0)
    | StartTransaction c => StartTransaction (child c 0)
    | JoinNode jt sl e l r => JoinNode jt sl e (child l 0) (child r 1)
    | IndexedJoin jt sl e l r => IndexedJoin jt sl e (child l 0) (child r 1)
    | CreateTrigger nm t b => CreateTrigger nm (child t 0) (child b 1)
    | TriggerBeginEndBlock ss => TriggerBeginEndBlock (mapWithIndex child ss 0)
    end in
  g (MkContext n' parent childNum).

(** A child's result, honest: the value [c'] stands for the child [c]. *)
Definition honestResult {A} (c : A) (r : Result (A * TreeIdentity)) (c' : A) : Prop :=
  exists id, r = Ok (c', id) /\ (id = SameTree -> c' = c).

Lemma collectChildren_honest {A} (cs cs' : list A) rs :
  Forall3 honestResult cs rs cs' ->
  exists id, collectChildren cs rs = Ok (cs', id) /\ (id = SameTree -> cs' = cs).
Proof.
  induction 1 as [|c r c' cs rs cs' (id & -> & Hid) _ (idr & IH & Hidr)]; cbn.
  - eauto.
  - rewrite IH. cbn. exists (andT id idr). split.
    + destruct id; cbn; [rewrite Hid by reflexivity|]; reflexivity.
    + destruct id; cbn; [|discriminate]. intros ->.
      rewrite Hid, Hidr by reflexivity. reflexivity.
Qed.

Lemma WithChildren_same_length n cs :
  length cs = length (Children n) ->
  exists n', WithChildren n cs = Ok n'.
Proof.
  destruct n; cbn [Children length]; intros Hlen;
    try (destruct cs as [|c1 [|c2 [|c3 cs]]]; try discriminate Hlen;
         cbn; eauto; fail).
  cbn. rewrite decide_True by assumption. eauto.
Qed.

Lemma WithChildren_Children n n' :
  WithChildren n (Children n) = Ok n' -> n' = n.
Proof.
  destruct n; cbn; try (intros H; inversion H; reflexivity).
  rewrite decide_True by reflexivity. intros H; inversion H; reflexivity.
Qed.

(** One node, given honest results for its children and a visitor that is
    honest on the rebuilt node. *)
Lemma transformNodeWithCtx_local (f : CtxFunc) n parent i rs cs' n' out idn :
  Forall3 honestResult (Children n) rs cs' ->
  WithChildren n cs' = Ok n' ->
  f (MkContext n' parent i) = Ok (out, idn) ->
  (idn = SameTree -> out = n') ->
  honestResult n (transformNodeWithCtx f (MkContext n parent i) rs) out.
Proof.
  intros Hrs Hwc Hf Hhon. unfold transformNodeWithCtx, honestResult.
  cbn [ctxNode Parent ChildNum].
  destruct (collectChildren_honest _ _ _ Hrs) as (idc & Hcc & Hidc).
  assert (Hn' : idc = SameTree -> n' = n).
  { intros Hs. rewrite (Hidc Hs) in Hwc. apply WithChildren_Children, Hwc. }
  destruct (Children n) as [|c0 cs0] eqn:Hch.
  - inversion Hrs; subst. rewrite <- Hch in Hwc.
    apply WithChildren_Children in Hwc. subst n'.
    rewrite Hf. eauto.
  - rewrite Hcc. cbn.
    replace (if isSame idc then Ok n else WithChildren n cs') with (Ok (A:=Node) n').
    2:{ destruct idc; cbn; [rewrite Hn' by reflexivity; reflexivity|auto]. }
    cbn. rewrite Hf. cbn. eexists. split; [reflexivity|].
    destruct idc; cbn; [|discriminate]. intros Hs.
    rewrite (Hhon Hs). auto.
Qed.

Section HonestCtx.
Variable s : option SelectorFunc.
Variable f : CtxFunc.
Variable g : TransformContext -> Node.
Variable idf : TransformContext -> TreeIdentity.
Hypothesis f_total : forall c, f c = Ok (g c, idf c).
Hypothesis f_honest : forall c, idf c = SameTree -> g c = ctxNode c.

Lemma honestResult_child (rec : Result (Node * TreeIdentity)) (c spec : Node) (b : bool) :
  honestResult c rec spec ->
  honestResult c (if b then rec else Ok (c, SameTree)) (if b then spec else c).
Proof. destruct b; [auto|]. intros _. exists SameTree. auto. Qed.

Lemma nodesWithCtxHelper_honest n :
  forall parent i,
    honestResult n (nodesWithCtxHelper s f n parent i) (rewriteWithCtx s g n parent i).
Proof.
  induction n as [| | | | | | | | | | | |ss IH|]; intros parent i;
    cbn [nodesWithCtxHelper rewriteWithCtx];
    try (eapply transformNodeWithCtx_local;
         [cbn [Children]; repeat constructor; apply honestResult_child; auto
         |reflexivity|apply f_total|apply f_honest]).
  apply list_all_Forall in IH.
  eapply transformNodeWithCtx_local with
    (cs' := mapWithIndex (fun c j =>
              if selected s (MkContext c (Some (TriggerBeginEndBlock ss)) j)
              then rewriteWithCtx s g c (Some (TriggerBeginEndBlock ss)) j
              else c) ss 0).
  - cbn [Children]. generalize 0. set (p := TriggerBeginEndBlock ss). clearbody p.
    induction IH as [|c cs Hc _ IHcs]; intros j; cbn [mapWithIndex]; constructor.
    + apply honestResult_child, Hc.
    + apply IHcs.
  - cbn. rewrite decide_True; [reflexivity|].
    generalize 0. generalize (TriggerBeginEndBlock ss).
    clear. induction ss as [|c cs IHcs]; intros p j; cbn; [reflexivity|].
    f_equal. apply IHcs.
  - apply f_total.
  - apply f_honest.
Qed.

(** An honest visitor makes [visit.NodesWithCtx] honest, and the tree it
    returns is the plain rewrite. *)
Lemma visit_NodesWithCtx_honest n :
  exists id, visit_NodesWithCtx n s f = Ok (rewriteWithCtx s g n None (-1), id)
             /\ (id = SameTree -> rewriteWithCtx s g n None (-1) = n).
Proof. apply nodesWithCtxHelper_honest. Qed.
End HonestCtx.

(** ** Caching subquery aliases in joins *)

Definition isJoinParent (n : Node) : bool :=
  match n with
  | JoinNode _ _ _ _ _ | IndexedJoin _ _ _ _ _ => true
  | _ => false
  end.

(** What the first pass is to compute: a subquery alias that is a direct
    child of a join or indexed join is wrapped in [CachedResults]. *)
Fixpoint wrapJoinAliases (underJoin : bool) (n : Node) : Node :=
  let n' :=
    match n with
    | ResolvedTable _ _ | UnresolvedTable _ => n
    | Project es c => Project es (wrapJoinAliases false c)
    | Filter e c => Filter e (wrapJoinAliases false c)
    | SubqueryAlias nm cols c => SubqueryAlias nm cols (wrapJoinAliases false c)
    | TableAlias nm c => TableAlias nm (wrapJoinAliases false c)
    | CachedResults c => CachedResults (wrapJoinAliases false c)
    | StripRowNode c k => StripRowNode (wrapJoinAliases false c) k
    | QueryProcess c => QueryProcess (wrapJoinAliases false c)
    | StartTransaction c => StartTransaction (wrapJoinAliases false c)
    | JoinNode jt sl e l r =>
        JoinNode jt sl e (wrapJoinAliases true l) (wrapJoinAliases true r)
    | IndexedJoin jt sl e l r =>
        IndexedJoin jt sl e (wrapJoinAliases true l) (wrapJoinAliases true r)
    | CreateTrigger nm t b =>
        CreateTrigger nm (wrapJoinAliases false t) (wrapJoinAliases false b)
    | TriggerBeginEndBlock ss => TriggerBeginEndBlock (map (wrapJoinAliases false) ss)
    end in
  if underJoin && isSubqueryAlias n then CachedResults n' else n'.

(** What the second pass is to compute: the decorators on the path of the
    primary operands are removed.  The primary operand of a right join is
    its second child, of any other join and of an indexed join the first;
    the other operand of a join is left as it is. *)
Fixpoint unwrapPrimary (n : Node) : Node :=
  match n with
  | ResolvedTable _ _ | UnresolvedTable _ => n
  | CachedResults c => unwrapPrimary c
  | Project es c => Project es (unwrapPrimary c)
  | Filter e c => Filter e (unwrapPrimary c)
  | SubqueryAlias nm cols c => SubqueryAlias nm cols (unwrapPrimary c)
  | TableAlias nm c => TableAlias nm (unwrapPrimary c)
  | StripRowNode c k => StripRowNode (unwrapPrimary c) k
  | QueryProcess c => QueryProcess (unwrapPrimary c)
  | StartTransaction c => StartTransaction (unwrapPrimary c)
  | JoinNode JoinTypeRight sl e l r => JoinNode JoinTypeRight sl e l (unwrapPrimary r)
  | JoinNode jt sl e l r => JoinNode jt sl e (unwrapPrimary l) r
  | IndexedJoin jt sl e l r => IndexedJoin jt sl e (unwrapPrimary l) r
  | CreateTrigger nm t b => CreateTrigger nm (unwrapPrimary t) (unwrapPrimary b)
  | TriggerBeginEndBlock ss => TriggerBeginEndBlock (map unwrapPrimary ss)
  end.

(** The two visitors as honest rewrites. *)
Definition cacheAliasUnderJoin_node (c : TransformContext) : Node :=
  if (isJoinNode (Parent c) || isIndexedJoin (Parent c)) && isSubqueryAlias (ctxNode c)
  then CachedResults (ctxNode c) else ctxNode c.

Definition cacheAliasUnderJoin_id (c : TransformContext) : TreeIdentity :=
  if (isJoinNode (Parent c) || isIndexedJoin (Parent c)) && isSubqueryAlias (ctxNode c)
  then NewTree else SameTree.

Lemma cacheAliasUnderJoin_total c :
  cacheAliasUnderJoin c = Ok (cacheAliasUnderJoin_node c, cacheAliasUnderJoin_id c).
Proof.
  unfold cacheAliasUnderJoin, cacheAliasUnderJoin_node, cacheAliasUnderJoin_id.
  destruct (isJoinNode (Parent c) || isIndexedJoin (Parent c)); cbn;
    destruct (ctxNode c); reflexivity.
Qed.

Lemma cacheAliasUnderJoin_honest c :
  cacheAliasUnderJoin_id c = SameTree -> cacheAliasUnderJoin_node c = ctxNode c.
Proof.
  unfold cacheAliasUnderJoin_node, cacheAliasUnderJoin_id.
  destruct (_ && _); [discriminate|reflexivity].
Qed.

Definition uncache_node (c : TransformContext) : Node :=
  match ctxNode c with
  | CachedResults child => child
  | n => n
  end.

Definition uncache_id (c : TransformContext) : TreeIdentity :=
  match ctxNode c with
  | CachedResults _ => NewTree
  | _ => SameTree
  end.

Lemma uncache_total c : uncache c = Ok (uncache_node c, uncache_id c).
Proof. unfold uncache, uncache_node, uncache_id. destruct (ctxNode c); reflexivity. Qed.

Lemma uncache_honest c : uncache_id c = SameTree -> uncache_node c = ctxNode c.
Proof.
  unfold uncache_node, uncache_id. destruct (ctxNode c); try reflexivity; discriminate.
Qed.

Lemma rewrite_wrapJoinAliases n :
  forall parent i,
    rewriteWithCtx None cacheAliasUnderJoin_node n parent i
    = wrapJoinAliases (isJoinNode parent || isIndexedJoin parent) n.
Proof.
  induction n as [| | | | | | | | | | | |ss IH|]; intros parent i;
    cbn [rewriteWithCtx wrapJoinAliases selected];
    rewrite ?IHn, ?IHn1, ?IHn2; unfold cacheAliasUnderJoin_node;
    cbn [ctxNode Parent isSubqueryAlias isJoinNode isIndexedJoin orb andb];
    rewrite ?andb_false_r, ?andb_true_r; try reflexivity.
  f_equal. generalize 0. apply list_all_Forall in IH.
  set (p := TriggerBeginEndBlock ss).
  assert (Hp : isJoinNode (Some p) || isIndexedJoin (Some p) = false) by reflexivity.
  clearbody p.
  induction IH as [|c cs Hc _ IHcs]; intros j; cbn; [reflexivity|].
  f_equal; [|apply IHcs].
  fold cacheAliasUnderJoin_node. rewrite Hc, Hp. reflexivity.
Qed.

Lemma rewrite_unwrapPrimary n :
  forall parent i,
    rewriteWithCtx (Some primarySelector) uncache_node n parent i = unwrapPrimary n.
Proof.
  induction n as [| | | |jt ? ? l IHl r IHr| | | | | | | |ss IH|]; intros parent i;
    cbn [rewriteWithCtx unwrapPrimary selected primarySelector Parent ChildNum];
    try (destruct jt; cbn [Z.eqb Pos.eqb]);
    rewrite ?IHn, ?IHn1, ?IHn2, ?IHl, ?IHr; try reflexivity.
  unfold uncache_node at 1. cbn [ctxNode]. f_equal.
  generalize 0. apply list_all_Forall in IH.
  set (p := TriggerBeginEndBlock ss).
  assert (Hp : forall c j, primarySelector (MkContext c (Some p) j) = true)
    by reflexivity.
  clearbody p.
  induction IH as [|c cs Hc _ IHcs]; intros j; cbn [mapWithIndex map selected];
    [reflexivity|].
  rewrite ?Hp, Hc. f_equal. apply IHcs.
Qed.

(** The two passes compute the two rewrites. *)
Lemma cacheSubqueryAlisesInJoins_rewrites a n :
  (forall sc, exists id,
      cacheSubqueryAlisesInJoins a n (Some sc) = Ok (wrapJoinAliases false n, id))
  /\ (exists id,
      cacheSubqueryAlisesInJoins a n None
      = Ok (unwrapPrimary (wrapJoinAliases false n), id)).
Proof.
  unfold cacheSubqueryAlisesInJoins.
  destruct (visit_NodesWithCtx_honest None _ _ _
              cacheAliasUnderJoin_total cacheAliasUnderJoin_honest n)
    as (id1 & -> & _).
  rewrite rewrite_wrapJoinAliases. cbn [isJoinNode isIndexedJoin orb].
  split.
  - intros sc. cbn. eauto.
  - cbn.
    destruct (visit_NodesWithCtx_honest (Some primarySelector) _ _ _
                uncache_total uncache_honest (wrapJoinAliases false n))
      as (id2 & -> & _).
    rewrite rewrite_unwrapPrimary. cbn. eauto.
Qed.

(** The number of [CachedResults] decorators in a plan. *)
Fixpoint cachedCount (n : Node) : nat :=
  match n with
  | ResolvedTable _ _ | UnresolvedTable _ => 0
  | CachedResults c => S (cachedCount c)
  | Project _ c | Filter _ c | SubqueryAlias _ _ c | TableAlias _ c
  | StripRowNode c _ | QueryProcess c | StartTransaction c => cachedCount c
  | JoinNode _ _ _ l r | IndexedJoin _ _ _ l r | CreateTrigger _ l r =>
      cachedCount l + cachedCount r
  | TriggerBeginEndBlock ss => sum_list (map cachedCount ss)
  end%nat.

(** The number of subquery aliases that are direct children of a join. *)
Fixpoint aliasesUnderJoins (underJoin : bool) (n : Node) : nat :=
  ((if underJoin && isSubqueryAlias n then 1 else 0)
   + match n with
     | ResolvedTable _ _ | UnresolvedTable _ => 0
     | Project _ c | Filter _ c | SubqueryAlias _ _ c | TableAlias _ c
     | CachedResults c | StripRowNode c _ | QueryProcess c
     | StartTransaction c => aliasesUnderJoins false c
     | JoinNode _ _ _ l r | IndexedJoin _ _ _ l r =>
         aliasesUnderJoins true l + aliasesUnderJoins true r
     | CreateTrigger _ l r => aliasesUnderJoins false l + aliasesUnderJoins false r
     | TriggerBeginEndBlock ss => sum_list (map (aliasesUnderJoins false) ss)
     end)%nat.

(** Is the primary operand of this join the first child? *)
Definition primaryIsFirst (jt : JoinType) : bool :=
  match jt with JoinTypeRight => false | _ => true end.

(** Some join of the plan has a subquery alias without decorator as a direct
    child; with [secondaryOnly], as a child other than its primary operand. *)
Fixpoint bareAliasUnderJoin (secondaryOnly : bool) (n : Node) : bool :=
  match n with
  | ResolvedTable _ _ | UnresolvedTable _ => false
  | Project _ c | Filter _ c | SubqueryAlias _ _ c | TableAlias _ c
  | CachedResults c | StripRowNode c _ | QueryProcess c
  | StartTransaction c => bareAliasUnderJoin secondaryOnly c
  | JoinNode jt _ _ l r =>
      (isSubqueryAlias l && negb (secondaryOnly && primaryIsFirst jt))
      || (isSubqueryAlias r && negb (secondaryOnly && negb (primaryIsFirst jt)))
      || bareAliasUnderJoin secondaryOnly l || bareAliasUnderJoin secondaryOnly r
  | IndexedJoin _ _ _ l r =>
      (isSubqueryAlias l && negb secondaryOnly) || isSubqueryAlias r
      || bareAliasUnderJoin secondaryOnly l || bareAliasUnderJoin secondaryOnly r
  | CreateTrigger _ l r =>
      bareAliasUnderJoin secondaryOnly l || bareAliasUnderJoin secondaryOnly r
  | TriggerBeginEndBlock ss => existsb (bareAliasUnderJoin secondaryOnly) ss
  end.

(** A [CachedResults] lies on the path of the primary operands. *)
Fixpoint cachedOnPrimaryPath (n : Node) : bool :=
  match n with
  | ResolvedTable _ _ | UnresolvedTable _ => false
  | CachedResults _ => true
  | Project _ c | Filter _ c | SubqueryAlias _ _ c | TableAlias _ c
  | StripRowNode c _ | QueryProcess c | StartTransaction c => cachedOnPrimaryPath c
  | JoinNode jt _ _ l r =>
      if primaryIsFirst jt then cachedOnPrimaryPath l else cachedOnPrimaryPath r
  | IndexedJoin _ _ _ l _ => cachedOnPrimaryPath l
  | CreateTrigger _ l r => cachedOnPrimaryPath l || cachedOnPrimaryPath r
  | TriggerBeginEndBlock ss => existsb cachedOnPrimaryPath ss
  end.

Lemma isSubqueryAlias_wrapJoinAliases n :
  isSubqueryAlias (wrapJoinAliases true n) = false.
Proof. destruct n; reflexivity. Qed.

Lemma existsb_map_false {A} (h : A -> A) (p : A -> bool) (l : list A) :
  Forall (fun x => p (h x) = false) l -> existsb p (map h l) = false.
Proof. induction 1 as [|x l Hx _ IH]; cbn; [reflexivity|]. rewrite Hx, IH. reflexivity. Qed.

Lemma wrapJoinAliases_wraps n :
  forall b so, bareAliasUnderJoin so (wrapJoinAliases b n) = false.
Proof.
  induction n as [| | | | | | | | | | | |ss IH|]; intros b so;
    cbn [wrapJoinAliases isSubqueryAlias andb]; rewrite ?andb_false_r;
    try (destruct b); cbn [andb bareAliasUnderJoin];
    rewrite ?isSubqueryAlias_wrapJoinAliases, ?IHn, ?IHn1, ?IHn2; try reflexivity.
  all: apply existsb_map_false; apply list_all_Forall in IH;
    eapply Forall_impl; [exact IH|]; cbn; auto.
Qed.

Lemma wrapJoinAliases_count n :
  forall b, cachedCount (wrapJoinAliases b n)
            = (cachedCount n + aliasesUnderJoins b n)%nat.
Proof.
  induction n as [| | | | | | | | | | | |ss IH|]; intros b;
    cbn [wrapJoinAliases isSubqueryAlias andb aliasesUnderJoins];
    rewrite ?andb_false_r; try (destruct b); cbn [andb cachedCount];
    rewrite ?IHn, ?IHn1, ?IHn2; try lia.
  all: apply list_all_Forall in IH; cbn [Nat.add];
    induction IH as [|c cs Hc _ IHcs]; cbn; [reflexivity|];
    rewrite Hc; cbn in IHcs; lia.
Qed.

Lemma unwrapPrimary_clears n : cachedOnPrimaryPath (unwrapPrimary n) = false.
Proof.
  induction n as [| | | |jt ? ? l IHl r IHr| | | | | | | |ss IH|];
    cbn [unwrapPrimary]; try (destruct jt);
    cbn [cachedOnPrimaryPath primaryIsFirst];
    rewrite ?IHn, ?IHn1, ?IHn2, ?IHl, ?IHr; try reflexivity.
  apply existsb_map_false, list_all_Forall, IH.
Qed.

Lemma bareAliasUnderJoin_secondary n :
  bareAliasUnderJoin false n = false -> bareAliasUnderJoin true n = false.
Proof.
  induction n as [| | | |jt ? ? l IHl r IHr| | | | | | | |ss IH|];
    cbn [bareAliasUnderJoin andb negb]; rewrite ?andb_true_r, ?andb_false_r;
    try reflexivity; try assumption.
  - intros H. repeat (apply orb_false_elim in H as [H ?]).
    rewrite H, IHl, IHr by assumption.
    match goal with H : isSubqueryAlias r = false |- _ => rewrite H end.
    reflexivity.
  - intros H. repeat (apply orb_false_elim in H as [H ?]).
    rewrite IHn1, IHn2 by assumption.
    match goal with H : isSubqueryAlias _ = false |- _ => rewrite H end.
    reflexivity.
  - apply list_all_Forall in IH.
    induction IH as [|c cs Hc _ IHcs]; cbn; [reflexivity|].
    intros [H1 H2]%orb_false_elim. rewrite Hc, IHcs by assumption. reflexivity.
  - intros [H1 H2]%orb_false_elim. rewrite IHn1, IHn2 by assumption. reflexivity.
Qed.

(** The second pass leaves no join with an undecorated subquery alias as
    its other operand. *)
Lemma unwrapPrimary_keeps_secondary n :
  bareAliasUnderJoin false n = false ->
  bareAliasUnderJoin true (unwrapPrimary n) = false.
Proof.
  induction n as [| | | |jt ? ? l IHl r IHr| | | | | | | |ss IH|];
    cbn [unwrapPrimary bareAliasUnderJoin]; try reflexivity; try assumption.
  - intros H. repeat (apply orb_false_elim in H as [H ?]).
    rewrite andb_true_r in *.
    destruct jt; cbn [bareAliasUnderJoin primaryIsFirst andb negb];
      rewrite ?andb_false_r, ?andb_true_r;
      repeat match goal with
             | H : isSubqueryAlias _ = false |- _ => rewrite H; clear H
             end;
      rewrite ?IHl, ?IHr, ?bareAliasUnderJoin_secondary by assumption;
      rewrite ?orb_false_r; reflexivity.
  - intros H. repeat (apply orb_false_elim in H as [H ?]).
    cbn [andb negb]. rewrite andb_false_r.
    repeat match goal with
           | H : isSubqueryAlias _ = false |- _ => rewrite H; clear H
           end.
    rewrite IHn1, bareAliasUnderJoin_secondary by assumption. reflexivity.
  - apply list_all_Forall in IH.
    induction IH as [|c cs Hc _ IHcs]; cbn; [reflexivity|].
    intros [H1 H2]%orb_false_elim. rewrite Hc by assumption. apply IHcs, H2.
  - intros [H1 H2]%orb_false_elim. rewrite IHn1, IHn2 by assumption. reflexivity.
Qed.

(** C3.  [cacheSubqueryAlisesInJoins] returns, in a non-empty scope, the
    plan in which every subquery alias that is a direct child of a join or
    indexed join is wrapped in [CachedResults]: no join is left with an
    undecorated alias, and no decorator is removed (the decorators are those
    of the input and one per alias under a join).  In the empty scope it
    returns that plan with the decorators removed along the path of the
    primary operands (child 1 of a right join, child 0 of every other join
    and of an indexed join): no decorator is left on that path, and the
    subquery aliases that are the other operand of a join keep theirs. *)
Theorem cacheSubqueryAlisesInJoins_spec (a : Analyzer) (n : Node) :
  let wrapped := wrapJoinAliases false n in
  (forall sc, exists id,
      cacheSubqueryAlisesInJoins a n (Some sc) = Ok (wrapped, id))
  /\ (exists id,
      cacheSubqueryAlisesInJoins a n None = Ok (unwrapPrimary wrapped, id))
  /\ bareAliasUnderJoin false wrapped = false
  /\ cachedCount wrapped = (cachedCount n + aliasesUnderJoins false n)%nat
  /\ cachedOnPrimaryPath (unwrapPrimary wrapped) = false
  /\ bareAliasUnderJoin true (unwrapPrimary wrapped) = false.
Proof.
  cbv zeta.
  destruct (cacheSubqueryAlisesInJoins_rewrites a n) as [Hsome Hnone].
  repeat split; try assumption.
  - apply wrapJoinAliases_wraps.
  - apply wrapJoinAliases_count.
  - apply unwrapPrimary_clears.
  - apply unwrapPrimary_keeps_secondary, wrapJoinAliases_wraps.
Qed.

(** [SELECT * FROM (SELECT 1) AS s1 JOIN (SELECT 2) AS s2]: at the top
    level [s1] loses its decorator and [s2] keeps it; for a right join it is
    the other way round; inside a subquery both keep it. *)
Example cacheSubqueryAlisesInJoins_s1_s2 (a : Analyzer) :
  let s1 := SubqueryAlias "s1" [] (Project [Literal 1] (ResolvedTable "dual" 0)) in
  let s2 := SubqueryAlias "s2" [] (Project [Literal 2] (ResolvedTable "dual" 0)) in
  let top := ResolvedTable "t" 2 in
  cacheSubqueryAlisesInJoins a (JoinNode JoinTypeInner 0 (Literal 1) s1 s2) None
    = Ok (JoinNode JoinTypeInner 0 (Literal 1) s1 (CachedResults s2), NewTree)
  /\ cacheSubqueryAlisesInJoins a (JoinNode JoinTypeRight 0 (Literal 1) s1 s2) None
    = Ok (JoinNode JoinTypeRight 0 (Literal 1) (CachedResults s1) s2, NewTree)
  /\ cacheSubqueryAlisesInJoins a (JoinNode JoinTypeInner 0 (Literal 1) s1 s2)
       (Some [top])
    = Ok (JoinNode JoinTypeInner 0 (Literal 1) (CachedResults s1) (CachedResults s2),
          NewTree).
Proof. repeat split; reflexivity. Qed.

(** ** Join scope propagation *)

Lemma transformNode_local (f : NodeFunc) n rs cs' n' out idn :
  Forall3 honestResult (Children n) rs cs' ->
  WithChildren n cs' = Ok n' ->
  f n' = Ok (out, idn) ->
  (idn = SameTree -> out = n') ->
  honestResult n (transformNode f n rs) out.
Proof.
  intros Hrs Hwc Hf Hhon.
  change (transformNode f n rs)
    with (transformNodeWithCtx (fun c => f (ctxNode c)) (MkContext n None 0) rs).
  eapply transformNodeWithCtx_local; eassumption.
Qed.

(** What the rule is to compute at width [k]: every join is annotated with
    [k], and both its operands are wrapped in a [StripRowNode] unless its
    left operand is one already. *)
Fixpoint annotateJoins (k : Z) (n : Node) : Node :=
  match n with
  | ResolvedTable _ _ | UnresolvedTable _ => n
  | Project es c => Project es (annotateJoins k c)
  | Filter e c => Filter e (annotateJoins k c)
  | SubqueryAlias nm cols c => SubqueryAlias nm cols (annotateJoins k c)
  | TableAlias nm c => TableAlias nm (annotateJoins k c)
  | CachedResults c => CachedResults (annotateJoins k c)
  | StripRowNode c w => StripRowNode (annotateJoins k c) w
  | QueryProcess c => QueryProcess (annotateJoins k c)
  | StartTransaction c => StartTransaction (annotateJoins k c)
  | JoinNode jt _ e l r =>
      if isStripRowNode l
      then JoinNode jt k e (annotateJoins k l) (annotateJoins k r)
      else JoinNode jt k e (StripRowNode (annotateJoins k l) k)
                           (StripRowNode (annotateJoins k r) k)
  | IndexedJoin jt sl e l r =>
      IndexedJoin jt sl e (annotateJoins k l) (annotateJoins k r)
  | CreateTrigger nm t b => CreateTrigger nm (annotateJoins k t) (annotateJoins k b)
  | TriggerBeginEndBlock ss => TriggerBeginEndBlock (map (annotateJoins k) ss)
  end.

(** Every join whose left operand is a [StripRowNode] already carries the
    width [k]: the plan was not annotated for another width before. *)
Fixpoint adaptedJoinsCarry (k : Z) (n : Node) : bool :=
  match n with
  | ResolvedTable _ _ | UnresolvedTable _ => true
  | Project _ c | Filter _ c | SubqueryAlias _ _ c | TableAlias _ c
  | CachedResults c | StripRowNode c _ | QueryProcess c
  | StartTransaction c => adaptedJoinsCarry k c
  | JoinNode _ sl _ l r =>
      (negb (isStripRowNode l) || (sl =? k))
      && adaptedJoinsCarry k l && adaptedJoinsCarry k r
  | IndexedJoin _ _ _ l r | CreateTrigger _ l r =>
      adaptedJoinsCarry k l && adaptedJoinsCarry k r
  | TriggerBeginEndBlock ss => forallb (adaptedJoinsCarry k) ss
  end.

(** Every join of the plan carries the width [k] and has a [StripRowNode] as
    its left operand. *)
Fixpoint joinsAnnotated (k : Z) (n : Node) : bool :=
  match n with
  | ResolvedTable _ _ | UnresolvedTable _ => true
  | Project _ c | Filter _ c | SubqueryAlias _ _ c | TableAlias _ c
  | CachedResults c | StripRowNode c _ | QueryProcess c
  | StartTransaction c => joinsAnnotated k c
  | JoinNode _ sl _ l r =>
      (sl =? k) && isStripRowNode l && joinsAnnotated k l && joinsAnnotated k r
  | IndexedJoin _ _ _ l r | CreateTrigger _ l r =>
      joinsAnnotated k l && joinsAnnotated k r
  | TriggerBeginEndBlock ss => forallb (joinsAnnotated k) ss
  end.

(** Every join of the plan has a [StripRowNode] as each of its operands. *)
Fixpoint bothOperandsAdapted (n : Node) : bool :=
  match n with
  | ResolvedTable _ _ | UnresolvedTable _ => true
  | Project _ c | Filter _ c | SubqueryAlias _ _ c | TableAlias _ c
  | CachedResults c | StripRowNode c _ | QueryProcess c
  | StartTransaction c => bothOperandsAdapted c
  | JoinNode _ _ _ l r =>
      isStripRowNode l && isStripRowNode r
      && bothOperandsAdapted l && bothOperandsAdapted r
  | IndexedJoin _ _ _ l r | CreateTrigger _ l r =>
      bothOperandsAdapted l && bothOperandsAdapted r
  | TriggerBeginEndBlock ss => forallb bothOperandsAdapted ss
  end.

Lemma isStripRowNode_annotateJoins k n :
  isStripRowNode (annotateJoins k n) = isStripRowNode n.
Proof. destruct n; try reflexivity. cbn. destruct (isStripRowNode n1); reflexivity. Qed.

Lemma forallb_map_true {A} (h : A -> A) (p : A -> bool) (l : list A) :
  Forall (fun x => p (h x) = true) l -> forallb p (map h l) = true.
Proof. induction 1 as [|x l Hx _ IH]; cbn; [reflexivity|]. rewrite Hx, IH. reflexivity. Qed.

Lemma annotateJoins_annotated k n : joinsAnnotated k (annotateJoins k n) = true.
Proof.
  induction n as [| | | |jt sl e l IHl r IHr| | | | | | | |ss IH|];
    cbn [annotateJoins joinsAnnotated];
    rewrite ?IHn, ?IHn1, ?IHn2; try reflexivity.
  - destruct (isStripRowNode l) eqn:Hl; cbn [joinsAnnotated isStripRowNode];
      rewrite ?isStripRowNode_annotateJoins, ?Hl, IHl, IHr, Z.eqb_refl; reflexivity.
  - apply forallb_map_true, list_all_Forall, IH.
Qed.

Lemma setJoinScopeLenVisit_other k n :
  match n with JoinNode _ _ _ _ _ => False | _ => True end ->
  setJoinScopeLenVisit k n = Ok (n, SameTree).
Proof. destruct n; cbn; intros H; try reflexivity; destruct H. Qed.

Lemma visit_Nodes_setJoinScopeLen k n :
  adaptedJoinsCarry k n = true ->
  honestResult n (visit_Nodes (setJoinScopeLenVisit k) n) (annotateJoins k n).
Proof.
  induction n as [| | | |jt sl e l IHl r IHr| | | | | | | |ss IH|];
    cbn [adaptedJoinsCarry]; intros H;
    repeat match goal with
           | H : _ && _ = true |- _ => apply andb_prop in H as [H ?]
           end;
    cbn [visit_Nodes annotateJoins];
    try (eapply transformNode_local;
         [cbn [Children]; repeat constructor; auto
         |reflexivity
         |apply setJoinScopeLenVisit_other; exact I
         |reflexivity]).
  - eapply transformNode_local with
      (n' := JoinNode jt sl e (annotateJoins k l) (annotateJoins k r))
      (idn := if isStripRowNode l then SameTree else NewTree).
    + cbn [Children]. repeat constructor; auto.
    + reflexivity.
    + cbn [setJoinScopeLenVisit]. rewrite isStripRowNode_annotateJoins.
      destruct (isStripRowNode l); reflexivity.
    + destruct (isStripRowNode l); [|discriminate].
      cbn in H. apply Z.eqb_eq in H. subst sl. reflexivity.
  - apply list_all_Forall in IH.
    eapply transformNode_local with (cs' := map (annotateJoins k) ss).
    + cbn [Children]. clear -IH H.
      induction IH as [|c cs Hc _ IHcs]; cbn in *; constructor;
        apply andb_prop in H as [H1 H2]; auto.
    + cbn. rewrite length_map, decide_True by reflexivity. reflexivity.
    + reflexivity.
    + reflexivity.
Qed.

Definition idleAnalysis (n : Node) : Analysis := (n, SameTree, None).

(** An analyzer whose recursive analysis changes nothing, for the examples. *)
Definition idleAnalyzer : Analyzer :=
  MkAnalyzer (fun n _ _ => idleAnalysis n) (fun n _ _ => idleAnalysis n)
             (fun n _ => idleAnalysis n) ∅.

(** C7, as amended.  When the schema of the outer scope is empty the rule
    returns its input with [SameTree].  Otherwise, with [k] the width of
    that schema and on a plan that was not annotated for another width, it
    returns the plan in which every join is annotated with [k] and both
    operands of a join are wrapped in [StripRowNode k] unless the left
    operand is a [StripRowNode] already; in that plan every join carries
    [k] and has a [StripRowNode] as its left operand, and it is the input
    itself when the rule reports [SameTree]. *)
Theorem setJoinScopeLen_spec (a : Analyzer) (n : Node) (scope : Scope) :
  let k := scopeSchemaLen scope in
  (k = 0 -> setJoinScopeLen a n scope = Ok (n, SameTree))
  /\ (k <> 0 -> adaptedJoinsCarry k n = true ->
      exists id,
        setJoinScopeLen a n scope = Ok (annotateJoins k n, id)
        /\ joinsAnnotated k (annotateJoins k n) = true
        /\ (id = SameTree -> annotateJoins k n = n)).
Proof.
  cbv zeta. unfold setJoinScopeLen. split.
  - intros ->. reflexivity.
  - intros Hk Hn. rewrite (proj2 (Z.eqb_neq _ _) Hk).
    destruct (visit_Nodes_setJoinScopeLen _ _ Hn) as (id & Hv & Hid).
    exists id. rewrite Hv. auto using annotateJoins_annotated.
Qed.

Lemma setJoinScopeLen_spec_witness :
  let fresh := Project [GetField 0 "x"]
                 (JoinNode JoinTypeInner 0 (Literal 1)
                    (ResolvedTable "a" 1) (ResolvedTable "b" 1)) in
  let outer := Filter (Literal 1) (ResolvedTable "o" 2) in
  (setJoinScopeLen idleAnalyzer fresh None = Ok (fresh, SameTree))
  /\ (exists id,
        setJoinScopeLen idleAnalyzer fresh (Some [outer])
        = Ok (annotateJoins 2 fresh, id)
        /\ joinsAnnotated 2 (annotateJoins 2 fresh) = true
        /\ (id = SameTree -> annotateJoins 2 fresh = fresh)).
Proof.
  cbv zeta. split.
  - apply (proj1 (setJoinScopeLen_spec idleAnalyzer _ None)). reflexivity.
  - apply (proj2 (setJoinScopeLen_spec idleAnalyzer _
             (Some [Filter (Literal 1) (ResolvedTable "o" 2)]))).
    + vm_compute. discriminate.
    + reflexivity.
Defined.

(** C7, as stated, fails: the left operand of this join is a [StripRowNode]
    and its right operand is not; at width 2 the rule returns the join as it
    is, the right operand without adapter. *)
Lemma setJoinScopeLen_left_only_counterexample :
  let j := JoinNode JoinTypeInner 2 (Literal 1)
             (StripRowNode (ResolvedTable "a" 1) 2) (ResolvedTable "b" 1) in
  let scope := Some [Filter (Literal 1) (ResolvedTable "o" 2)] in
  scopeSchemaLen scope = 2
  /\ setJoinScopeLen idleAnalyzer j scope = Ok (j, SameTree)
  /\ bothOperandsAdapted j = false
  /\ ~ (forall a n sc t id,
          scopeSchemaLen sc <> 0 -> setJoinScopeLen a n sc = Ok (t, id) ->
          bothOperandsAdapted t = true).
Proof.
  cbv zeta. split; [reflexivity|]. split; [reflexivity|]. split; [reflexivity|].
  intros H.
  specialize (H idleAnalyzer
    (JoinNode JoinTypeInner 2 (Literal 1)
       (StripRowNode (ResolvedTable "a" 1) 2) (ResolvedTable "b" 1))
    (Some [Filter (Literal 1) (ResolvedTable "o" 2)]) _ _
    ltac:(vm_compute; discriminate) eq_refl).
  discriminate H.
Qed.

(** ** The change identity of the rules *)

Lemma mapWithIndex_map {A B} (h : A -> B) (l : list A) i :
  mapWithIndex (fun c _ => h c) l i = map h l.
Proof. revert i. induction l as [|c l IH]; intros i; cbn; [|rewrite IH]; reflexivity. Qed.

(** [visit.Nodes] is the context-aware transform without selector whose
    visitor looks at the node only. *)
Lemma visit_Nodes_as_ctx (f : NodeFunc) n :
  forall parent i,
    nodesWithCtxHelper None (fun c => f (ctxNode c)) n parent i = visit_Nodes f n.
Proof.
  induction n as [| | | | | | | | | | | |ss IH|]; intros parent i;
    cbn [nodesWithCtxHelper visit_Nodes selected];
    rewrite ?IHn, ?IHn1, ?IHn2; try reflexivity.
  change (transformNodeWithCtx (fun c => f (ctxNode c))
            (MkContext (TriggerBeginEndBlock ss) parent i))
    with (transformNode f (TriggerBeginEndBlock ss)).
  f_equal. apply list_all_Forall in IH.
  generalize 0. generalize (Some (TriggerBeginEndBlock ss)).
  induction IH as [|c cs Hc _ IHcs]; intros p j; cbn; [reflexivity|].
  rewrite Hc, IHcs. reflexivity.
Qed.

(** An honest visitor makes [visit.Nodes] honest. *)
Lemma visit_Nodes_honest (f : NodeFunc) (g : Node -> Node) (idf : Node -> TreeIdentity) :
  (forall n, f n = Ok (g n, idf n)) ->
  (forall n, idf n = SameTree -> g n = n) ->
  forall n, exists t id, visit_Nodes f n = Ok (t, id) /\ (id = SameTree -> t = n).
Proof.
  intros Hf Hhon n. rewrite <- (visit_Nodes_as_ctx f n None (-1)).
  eexists.
  apply (nodesWithCtxHelper_honest None (fun c => f (ctxNode c))
           (fun c => g (ctxNode c)) (fun c => idf (ctxNode c))).
  - intros c. apply Hf.
  - intros c. apply Hhon.
Qed.

(** [resolveSubqueryExpressions] reports [SameTree] only with its input. *)
Lemma resolveSubqueryExpressions_SameTree nodesEqual a n scope t :
  resolveSubqueryExpressions nodesEqual a n scope = Ok (t, SameTree) -> t = n.
Proof.
  unfold resolveSubqueryExpressions.
  destruct (visit_NodesExprsWithNode _ _) as [[newn id]|err]; [|discriminate].
  destruct (nodesEqual newn n); intros H; inversion H; reflexivity.
Qed.

(** [cacheSubqueryAlisesInJoins] reports [SameTree] only with its input. *)
Lemma cacheSubqueryAlisesInJoins_SameTree a n scope t :
  cacheSubqueryAlisesInJoins a n scope = Ok (t, SameTree) -> t = n.
Proof.
  unfold cacheSubqueryAlisesInJoins.
  destruct (visit_NodesWithCtx_honest None _ _ _
              cacheAliasUnderJoin_total cacheAliasUnderJoin_honest n)
    as (id1 & -> & H1).
  cbn. destruct scope as [sc|].
  - cbn. intros H. inversion H as [[Ht Hid]].
    destruct id1; [|discriminate]. auto.
  - destruct (visit_NodesWithCtx_honest (Some primarySelector) _ _ _
                uncache_total uncache_honest
                (rewriteWithCtx None cacheAliasUnderJoin_node n None (-1)))
      as (id2 & -> & H2).
    cbn. intros H. inversion H as [[Ht Hid]].
    destruct id1; [|discriminate]. cbn in Hid.
    rewrite H2, H1 by auto. reflexivity.
Qed.

(** [flattenTableAliases] reports [SameTree] only with its input. *)
Lemma flattenTableAliases_SameTree a n scope t :
  flattenTableAliases a n scope = Ok (t, SameTree) -> t = n.
Proof.
  unfold flattenTableAliases. intros H.
  edestruct (visit_Nodes_honest
    (fun n => match n with
              | TableAlias nm (SubqueryAlias _ cols c) => Ok (SubqueryAlias nm cols c, NewTree)
              | TableAlias nm (TableAlias _ c) => Ok (TableAlias nm c, NewTree)
              | _ => Ok (n, SameTree)
              end)
    (fun n => match n with
              | TableAlias nm (SubqueryAlias _ cols c) => SubqueryAlias nm cols c
              | TableAlias nm (TableAlias _ c) => TableAlias nm c
              | _ => n
              end)
    (fun n => match n with
              | TableAlias nm (SubqueryAlias _ cols c) => NewTree
              | TableAlias nm (TableAlias _ c) => NewTree
              | _ => SameTree
              end)) as (t' & id & Hv & Hid).
  - intros m. destruct m as [| | | | | | |? c| | | | | |]; try reflexivity.
    destruct c; reflexivity.
  - intros m. destruct m as [| | | | | | |? c| | | | | |]; try reflexivity.
    destruct c; try reflexivity; discriminate.
  - rewrite Hv in H. inversion H; subst. auto.
Qed.

(** C1 fails for [setJoinScopeLen]: a join whose left operand is a
    [StripRowNode] already, annotated for the width 1, is returned annotated
    for the width 2 of the scope, a different plan, together with
    [SameTree]. *)
Theorem setJoinScopeLen_SameTree_changed :
  let j := JoinNode JoinTypeInner 1 (Literal 1)
             (StripRowNode (ResolvedTable "a" 1) 1)
             (StripRowNode (ResolvedTable "b" 1) 1) in
  let j2 := JoinNode JoinTypeInner 2 (Literal 1)
             (StripRowNode (ResolvedTable "a" 1) 1)
             (StripRowNode (ResolvedTable "b" 1) 1) in
  let scope := Some [Filter (Literal 1) (ResolvedTable "o" 2)] in
  setJoinScopeLen idleAnalyzer j scope = Ok (j2, SameTree) /\ j2 <> j.
Proof. cbv zeta. split; [reflexivity|discriminate]. Qed.

(** ** Trigger blocks and subquery caching *)

(** Handed a trigger block itself, the rule returns it untouched. *)
Lemma cacheSubqueryResults_trigger_root a ss scope :
  cacheSubqueryResults a (TriggerBeginEndBlock ss) scope
  = Ok (TriggerBeginEndBlock ss, SameTree).
Proof. reflexivity. Qed.

(** C9 fails for a trigger block that is not the root of the plan handed to
    the rule.  The block below holds [SELECT (SELECT 1) FROM t].  Handed the
    block, the rule returns it as it is; handed the [CreateTrigger] node
    whose body the block is, it walks into the block and marks the subquery
    expression as cacheable. *)
Theorem cacheSubqueryResults_nested_trigger_block :
  let q := Project [Literal 1] (ResolvedTable "dual" 0) in
  let block cached :=
    TriggerBeginEndBlock [Project [Subquery q cached] (ResolvedTable "t" 1)] in
  let table := ResolvedTable "t" 1 in
  cacheSubqueryResults idleAnalyzer (block false) None = Ok (block false, SameTree)
  /\ cacheSubqueryResults idleAnalyzer (CreateTrigger "trg" table (block false)) None
     = Ok (CreateTrigger "trg" table (block true), NewTree).
Proof. cbv zeta. split; reflexivity. Qed.

(** ** The column count of a subquery alias *)

Lemma visit_Nodes_unfold (f : NodeFunc) n :
  visit_Nodes f n = transformNode f n (map (visit_Nodes f) (Children n)).
Proof. destruct n; reflexivity. Qed.

Lemma collectChildren_fixed (cs : list Node) (rec : Node -> Result (Node * TreeIdentity)) :
  Forall (fun c => rec c = Ok (c, SameTree)) cs ->
  collectChildren cs (map rec cs) = Ok (cs, SameTree).
Proof.
  induction 1 as [|c cs Hc _ IH]; cbn; [reflexivity|].
  rewrite Hc, IH. reflexivity.
Qed.

(** A visitor that leaves every node of a plan alone leaves the plan alone. *)
Lemma visit_Nodes_fixed (f : NodeFunc) n :
  Forall (fun m => f m = Ok (m, SameTree)) (allNodes n) ->
  visit_Nodes f n = Ok (n, SameTree).
Proof.
  induction n as [n IH] using Node_Children_ind.
  rewrite allNodes_unfold, visit_Nodes_unfold. intros Hall.
  apply Forall_cons in Hall as [Hn Hcs].
  assert (Hrec : Forall (fun c => visit_Nodes f c = Ok (c, SameTree)) (Children n)).
  { clear Hn. induction IH as [|c cs Hc _ IHcs]; constructor; cbn in Hcs;
      apply Forall_app in Hcs as [H1 H2]; auto. }
  unfold transformNode. revert Hrec.
  destruct (Children n) as [|c0 cs0]; intros Hrec; [exact Hn|].
  rewrite (collectChildren_fixed _ _ Hrec). cbn. rewrite Hn. reflexivity.
Qed.

Definition aliasFree (n : Node) : bool :=
  forallb (fun m => negb (isSubqueryAlias m)) (allNodes n).

Lemma resolveSubqueryAlias_aliasFree analyze n :
  aliasFree n = true -> visit_Nodes (resolveSubqueryAlias analyze) n = Ok (n, SameTree).
Proof.
  intros H. apply visit_Nodes_fixed. unfold aliasFree in H.
  rewrite forallb_forall in H. apply Forall_forall. intros m Hm.
  apply list_elem_of_In, H in Hm. destruct m; try reflexivity. discriminate Hm.
Qed.

(** ** Errors of the transforms

    The transforms raise no error of their own: an error they return is an
    error of the visitor, and when they succeed the visitor succeeded on
    every node or expression it was to visit. *)



Lemma WithChildren_Expressions n cs n' :
  WithChildren n cs = Ok n' -> Expressions n' = Expressions n.
Proof.
  destruct n; cbn; try (destruct cs as [|c1 [|c2 [|c3 cs]]]; cbn;
    intros H; inversion H; reflexivity).
  destruct (decide _); intros H; inversion H; reflexivity.
Qed.





Lemma WithExpressions_same_length n es :
  isExpressioner n = true -> length es = length (Expressions n) ->
  exists n', WithExpressions n es = Ok n'.
Proof.
  destruct n; try discriminate; cbn [Expressions length]; intros _ Hlen;
    try (destruct es as [|c1 [|c2 cs]]; try discriminate Hlen; cbn; eauto; fail).
  cbn. rewrite decide_True by assumption. eauto.
Qed.



Lemma elem_of_concat {A} (x : A) (ls : list (list A)) :
  x ∈ concat ls -> exists l, x ∈ l /\ l ∈ ls.
Proof.
  induction ls as [|l ls IH]; cbn; [inversion 1|].
  intros [H|H]%elem_of_app.
  - exists l. split; [assumption|left].
  - destruct (IH H) as (l' & Hx & Hl). exists l'. split; [assumption|right; assumption].
Qed.




(** ** Deferred and fatal errors of subquery expressions *)
















(** An analysis that fails with a fatal error, and one that makes progress
    and fails with a deferred error. *)
Definition fatalAnalyzer : Analyzer :=
  MkAnalyzer (fun c _ _ => (c, SameTree, Some (ErrOther 1)))
             (fun c _ _ => (c, SameTree, Some (ErrOther 1)))
             (fun c _ => (c, SameTree, Some (ErrOther 1))) ∅.

Definition partialAnalyzer : Analyzer :=
  MkAnalyzer (fun c _ _ => idleAnalysis c) (fun c _ _ => idleAnalysis c)
             (fun c _ => (QueryProcess (Filter (Literal 1) c), NewTree,
                          Some (ErrColumnNotFound "x"))) ∅.




(** The partially analyzed query is kept in place, with the wrapper nodes
    of the top-level analysis it came with. *)
Example resolveSubqueryExpressions_keeps_partial :
  let q := Project [UnresolvedColumn "x"] (ResolvedTable "t" 1) in
  resolveSubqueryExpressions (fun _ _ => false) partialAnalyzer
    (Project [Subquery q false] (ResolvedTable "u" 1)) None
  = Ok (Project [Subquery (QueryProcess (Filter (Literal 1) q)) false]
          (ResolvedTable "u" 1), NewTree).
Proof. reflexivity. Qed.

(** ** Function resolution *)

(** The catalog holds the name, and the call has the number of arguments
    the function takes. *)
Definition knownCall (a : Analyzer) (nm : string) (nargs : nat) : bool :=
  match Catalog a !! nm with
  | Some f =>
      match fnArity f with
      | Some k => bool_decide (nargs = k)
      | None => true
      end
  | None => false
  end.

(** Every unresolved call of the expression is a known call. *)
Fixpoint callsKnown (a : Analyzer) (e : Expression) : bool :=
  match e with
  | Literal _ | GetField _ _ | UnresolvedColumn _ | Subquery _ _ => true
  | Equals l r => callsKnown a l && callsKnown a r
  | UnresolvedFunction nm args _ =>
      knownCall a nm (length args) && forallb (callsKnown a) args
  | FunctionCall _ _ _ args _ => forallb (callsKnown a) args
  end.

(** The window an instance of the function carries: the window of the call
    for an aggregation or window aggregation, none otherwise. *)
Definition instanceWindow (f : FunctionImpl) (w : option Window) : option Window :=
  match fnKind f with
  | PlainFunction => None
  | Aggregation | WindowAggregation => w
  end.

(** What resolution is to compute: every unresolved call whose name the
    catalog holds becomes the instance of that function on the resolved
    arguments. *)
Fixpoint instantiate (a : Analyzer) (e : Expression) : Expression :=
  match e with
  | Literal _ | GetField _ _ | UnresolvedColumn _ | Subquery _ _ => e
  | Equals l r => Equals (instantiate a l) (instantiate a r)
  | UnresolvedFunction nm args w =>
      match Catalog a !! nm with
      | Some f =>
          FunctionCall nm (fnKind f) (fnNonDeterministic f)
            (map (instantiate a) args) (instanceWindow f w)
      | None => UnresolvedFunction nm (map (instantiate a) args) w
      end
  | FunctionCall nm k nd args w => FunctionCall nm k nd (map (instantiate a) args) w
  end.

Definition isUnresolvedFunction (e : Expression) : bool :=
  match e with UnresolvedFunction _ _ _ => true | _ => false end.

(** An unresolved call is left in the expression. *)
Fixpoint hasUnresolvedFunction (e : Expression) : bool :=
  match e with
  | Literal _ | GetField _ _ | UnresolvedColumn _ | Subquery _ _ => false
  | Equals l r => hasUnresolvedFunction l || hasUnresolvedFunction r
  | UnresolvedFunction _ _ _ => true
  | FunctionCall _ _ _ args _ => existsb hasUnresolvedFunction args
  end.

Lemma resolveFunctionsInExpr_other a e :
  isUnresolvedFunction e = false -> resolveFunctionsInExpr a e = Ok e.
Proof.
  unfold resolveFunctionsInExpr. destruct (ExprResolved e); [reflexivity|].
  destruct e; try reflexivity. discriminate.
Qed.

Lemma resolveFunctionsInExpr_unknown a nm args w :
  Catalog a !! nm = None ->
  resolveFunctionsInExpr a (UnresolvedFunction nm args w) = Err (ErrFunctionNotFound nm).
Proof.
  intros H. unfold resolveFunctionsInExpr, Catalog_Function. cbn. rewrite H. reflexivity.
Qed.

Lemma resolveFunctionsInExpr_known a nm args w f :
  Catalog a !! nm = Some f -> knownCall a nm (length args) = true ->
  resolveFunctionsInExpr a (UnresolvedFunction nm args w)
  = Ok (FunctionCall nm (fnKind f) (fnNonDeterministic f) args (instanceWindow f w)).
Proof.
  intros H Hk. unfold resolveFunctionsInExpr, Catalog_Function, knownCall in *.
  cbn. rewrite H in *. cbn. unfold NewInstance, instanceWindow.
  destruct (fnArity f) as [k|].
  - apply bool_decide_eq_true in Hk. rewrite decide_True by assumption.
    cbn. destruct (fnKind f); reflexivity.
  - cbn. destruct (fnKind f); reflexivity.
Qed.

Lemma sequenceR_map {A B} (rec : A -> Result B) (h : A -> B) (l : list A) :
  Forall (fun x => rec x = Ok (h x)) l -> sequenceR (map rec l) = Ok (map h l).
Proof. induction 1 as [|x l Hx _ IH]; cbn; [reflexivity|]. rewrite Hx, IH. reflexivity. Qed.

Lemma forallb_Forall_impl {A} (p : A -> bool) (P : A -> Prop) (l : list A) :
  Forall (fun x => p x = true -> P x) l -> forallb p l = true -> Forall P l.
Proof.
  induction 1 as [|x l Hx _ IH]; cbn; [constructor|].
  intros [H1 H2]%andb_prop. constructor; auto.
Qed.

(** When every unresolved call is known, the transform returns the
    expression with every call instantiated. *)
Lemma expression_TransformUp_known a e :
  callsKnown a e = true ->
  expression_TransformUp (resolveFunctionsInExpr a) e = Ok (instantiate a e).
Proof.
  induction e as [v|i nm|nm|l IHl r IHr|nm args IH w|nm k nd args IH w|q c];
    cbn [callsKnown expression_TransformUp instantiate]; intros H;
    try (apply resolveFunctionsInExpr_other; reflexivity).
  - apply andb_prop in H as [H1 H2]. rewrite IHl, IHr by assumption. cbn.
    apply resolveFunctionsInExpr_other. reflexivity.
  - apply andb_prop in H as [Hk Hargs].
    apply list_all_Forall in IH.
    rewrite (sequenceR_map _ (instantiate a) args)
      by (apply (forallb_Forall_impl _ _ _ IH Hargs)).
    cbn. unfold knownCall in Hk.
    destruct (Catalog a !! nm) as [f|] eqn:Hf; [|discriminate].
    apply resolveFunctionsInExpr_known; [assumption|].
    unfold knownCall. rewrite Hf, length_map. assumption.
  - apply list_all_Forall in IH.
    rewrite (sequenceR_map _ (instantiate a) args)
      by (apply (forallb_Forall_impl _ _ _ IH H)).
    cbn. apply resolveFunctionsInExpr_other. reflexivity.
Qed.

Lemma instantiate_resolves a e :
  callsKnown a e = true -> hasUnresolvedFunction (instantiate a e) = false.
Proof.
  induction e as [v|i nm|nm|l IHl r IHr|nm args IH w|nm k nd args IH w|q c];
    cbn [callsKnown instantiate hasUnresolvedFunction]; intros H; try reflexivity.
  - apply andb_prop in H as [H1 H2]. rewrite IHl, IHr by assumption. reflexivity.
  - apply andb_prop in H as [Hk Hargs]. unfold knownCall in Hk.
    destruct (Catalog a !! nm) as [f|]; [|discriminate]. cbn.
    apply existsb_map_false. apply list_all_Forall in IH.
    apply (forallb_Forall_impl _ _ _ IH Hargs).
  - apply existsb_map_false. apply list_all_Forall in IH.
    apply (forallb_Forall_impl _ _ _ IH H).
Qed.

Lemma sequenceR_Ok {A} (rs : list (Result A)) l :
  sequenceR rs = Ok l -> Forall (fun r => isOk r = true) rs.
Proof.
  revert l. induction rs as [|r rs IH]; intros l; cbn; [constructor|].
  destruct r as [x|]; cbn; [|discriminate].
  destruct (sequenceR rs) as [l'|] eqn:Hrs; cbn; [|discriminate].
  intros _. constructor; [reflexivity|]. eapply IH. reflexivity.
Qed.

Lemma sequenceR_Err {A} (rs : list (Result A)) err :
  sequenceR rs = Err err -> Err err ∈ rs.
Proof.
  induction rs as [|r rs IH]; cbn; [discriminate|].
  destruct r as [x|e]; cbn.
  - destruct (sequenceR rs) as [l'|e'] eqn:Hrs; cbn; [discriminate|].
    intros H. inversion H; subst. right. auto.
  - intros H. inversion H; subst. left.
Qed.

Lemma sequenceR_fails {A} (rs : list (Result A)) r :
  r ∈ rs -> isOk r = false -> isOk (sequenceR rs) = false.
Proof.
  intros Hin Hr. destruct (sequenceR rs) as [l|] eqn:Hrs; [|reflexivity].
  apply sequenceR_Ok in Hrs. rewrite Forall_forall in Hrs.
  rewrite (Hrs r Hin) in Hr. discriminate.
Qed.

Lemma elem_of_subExprs_args (x : Expression) (args : list Expression) :
  x ∈ concat (map subExprs args) -> exists c, c ∈ args /\ x ∈ subExprs c.
Proof.
  intros (l & Hx & Hl)%elem_of_concat.
  apply list_elem_of_fmap in Hl as (c & -> & Hc). eauto.
Qed.

Lemma expression_TransformUp_args_fail f (args : list Expression) x :
  Forall (fun c => x ∈ subExprs c -> isOk (expression_TransformUp f c) = false) args ->
  x ∈ concat (map subExprs args) ->
  isOk (sequenceR (map (expression_TransformUp f) args)) = false.
Proof.
  intros IH (c & Hc & Hx)%elem_of_subExprs_args.
  rewrite Forall_forall in IH.
  apply (sequenceR_fails _ (expression_TransformUp f c)).
  - apply list_elem_of_fmap. eauto.
  - apply (IH c Hc Hx).
Qed.

(** An unresolved call to a name the catalog does not hold makes the
    transform of the expression fail. *)
Lemma expression_TransformUp_unknown a e nm args w :
  UnresolvedFunction nm args w ∈ subExprs e ->
  Catalog a !! nm = None ->
  isOk (expression_TransformUp (resolveFunctionsInExpr a) e) = false.
Proof.
  intros Hin Hnone. revert Hin.
  induction e as [v|i nm'|nm'|l IHl r IHr|nm' args' IH w'|nm' k nd args' IH w'|q c];
    cbn [subExprs expression_TransformUp];
    intros [Heq|Hin]%elem_of_cons; try discriminate Heq;
    try (inversion Hin; fail).
  - apply elem_of_app in Hin as [Hin|Hin].
    + specialize (IHl Hin).
      destruct (expression_TransformUp _ l); [discriminate IHl|reflexivity].
    + specialize (IHr Hin).
      destruct (expression_TransformUp _ l); [|reflexivity]. cbn.
      destruct (expression_TransformUp _ r); [discriminate IHr|reflexivity].
  - inversion Heq; subst.
    destruct (sequenceR _) as [cs|]; [|reflexivity]. cbn [mbind Result_bind bindR].
    rewrite resolveFunctionsInExpr_unknown by assumption. reflexivity.
  - apply list_all_Forall in IH.
    pose proof (expression_TransformUp_args_fail _ _ _ IH Hin) as Hf.
    destruct (sequenceR _); [discriminate Hf|reflexivity].
  - apply list_all_Forall in IH.
    pose proof (expression_TransformUp_args_fail _ _ _ IH Hin) as Hf.
    destruct (sequenceR _); [discriminate Hf|reflexivity].
Qed.

(** The errors of function resolution: the catalog does not hold the name,
    or the function does not take that many arguments. *)
Definition catalogError (a : Analyzer) (err : Error) : Prop :=
  match err with
  | ErrFunctionNotFound nm => Catalog a !! nm = None
  | ErrInvalidArgumentNumber nm => is_Some (Catalog a !! nm)
  | _ => False
  end.

Lemma resolveFunctionsInExpr_Err a e err :
  resolveFunctionsInExpr a e = Err err -> catalogError a err.
Proof.
  unfold resolveFunctionsInExpr. destruct (ExprResolved e); [discriminate|].
  destruct e; try discriminate.
  unfold Catalog_Function. destruct (Catalog a !! name) as [f|] eqn:Hf; cbn.
  - unfold NewInstance. destruct (fnArity f) as [k|].
    + destruct (decide _); cbn.
      * destruct (fnKind f); discriminate.
      * intros H. inversion H; subst. cbn. rewrite Hf. eauto.
    + cbn. destruct (fnKind f); discriminate.
  - intros H. inversion H; subst. exact Hf.
Qed.

Lemma expression_TransformUp_Err a e err :
  expression_TransformUp (resolveFunctionsInExpr a) e = Err err -> catalogError a err.
Proof.
  induction e as [v|i nm'|nm'|l IHl r IHr|nm' args' IH w'|nm' k nd args' IH w'|q c];
    cbn [expression_TransformUp]; try apply resolveFunctionsInExpr_Err.
  - destruct (expression_TransformUp _ l); cbn [mbind Result_bind bindR];
      [|intros H; apply IHl; assumption].
    destruct (expression_TransformUp _ r); cbn [mbind Result_bind bindR];
      [|intros H; apply IHr; assumption].
    apply resolveFunctionsInExpr_Err.
  - destruct (sequenceR _) as [cs|e1] eqn:Hs; cbn [mbind Result_bind bindR];
      [apply resolveFunctionsInExpr_Err|].
    intros H. inversion H; subst.
    apply sequenceR_Err, list_elem_of_fmap in Hs as (c & Hc & Hin).
    apply list_all_Forall in IH. rewrite Forall_forall in IH. apply (IH c Hin). auto.
  - destruct (sequenceR _) as [cs|e1] eqn:Hs; cbn [mbind Result_bind bindR];
      [apply resolveFunctionsInExpr_Err|].
    intros H. inversion H; subst.
    apply sequenceR_Err, list_elem_of_fmap in Hs as (c & Hc & Hin).
    apply list_all_Forall in IH. rewrite Forall_forall in IH. apply (IH c Hin). auto.
Qed.

Lemma sequenceR_length {A} (rs : list (Result A)) l :
  sequenceR rs = Ok l -> length l = length rs.
Proof.
  revert l. induction rs as [|r rs IH]; intros l; cbn.
  - intros H. inversion H. reflexivity.
  - destruct r as [x|]; cbn; [|discriminate].
    destruct (sequenceR rs) as [l'|] eqn:Hrs; cbn; [|discriminate].
    intros H. inversion H. cbn. rewrite (IH l' eq_refl). reflexivity.
Qed.

Lemma plan_TransformUp_unfold f n :
  plan_TransformUp f n
  = match Children n with
    | [] => f n
    | _ => cs ← sequenceR (map (plan_TransformUp f) (Children n));
           n' ← WithChildren n cs; f n'
    end.
Proof. destruct n; reflexivity. Qed.

Lemma plan_TransformUp_Err f n err :
  plan_TransformUp f n = Err err -> exists m, f m = Err err.
Proof.
  induction n as [n IH] using Node_Children_ind.
  rewrite plan_TransformUp_unfold.
  destruct (Children n) as [|c0 cs0] eqn:Hch; [eauto|].
  rewrite <- Hch in *.
  destruct (sequenceR _) as [cs|e1] eqn:Hs; cbn [mbind Result_bind bindR].
  - apply sequenceR_length in Hs. rewrite length_map in Hs.
    destruct (WithChildren_same_length n cs Hs) as [n' ->]. eauto.
  - intros H. inversion H; subst.
    apply sequenceR_Err, list_elem_of_fmap in Hs as (c & Hc & Hin).
    rewrite Forall_forall in IH. apply (IH c Hin). auto.
Qed.

Lemma plan_TransformUp_Ok f n r :
  plan_TransformUp f n = Ok r ->
  forall m, m ∈ allNodes n ->
            exists m', isOk (f m') = true /\ Expressions m' = Expressions m.
Proof.
  revert r. induction n as [n IH] using Node_Children_ind. intros r.
  rewrite plan_TransformUp_unfold, allNodes_unfold.
  destruct (Children n) as [|c0 cs0] eqn:Hch.
  - intros Hf m Hm. cbn in Hm. apply list_elem_of_singleton in Hm. subst m.
    exists n. rewrite Hf. auto.
  - rewrite <- Hch in *.
    destruct (sequenceR _) as [cs|e1] eqn:Hs; cbn [mbind Result_bind bindR];
      [|discriminate].
    destruct (WithChildren n cs) as [n2|] eqn:Hn2; cbn [mbind Result_bind bindR];
      [|discriminate].
    intros Hf m Hm. apply elem_of_cons in Hm as [->|Hm].
    { exists n2. rewrite Hf. split; [reflexivity|].
      apply (WithChildren_Expressions _ _ _ Hn2). }
    apply sequenceR_Ok in Hs.
    apply elem_of_concat in Hm as (l & Hml & Hl).
    apply list_elem_of_fmap in Hl as (c & -> & Hc).
    rewrite Forall_forall in IH. rewrite Forall_forall in Hs.
    specialize (Hs (plan_TransformUp f c) ltac:(apply list_elem_of_fmap; eauto)).
    destruct (plan_TransformUp f c) as [rc|] eqn:Hvc; [|discriminate Hs].
    apply (IH c Hc rc Hvc m Hml).
Qed.

Lemma plan_TransformExpressions_Err g n err :
  plan_TransformExpressions g n = Err err ->
  exists e, expression_TransformUp g e = Err err.
Proof.
  unfold plan_TransformExpressions. destruct (isExpressioner n) eqn:Hex; [|discriminate].
  destruct (sequenceR _) as [es|e1] eqn:Hs; cbn [mbind Result_bind bindR].
  - apply sequenceR_length in Hs. rewrite length_map in Hs.
    destruct (WithExpressions_same_length n es Hex Hs) as [n' ->]. discriminate.
  - intros H. inversion H; subst.
    apply sequenceR_Err, list_elem_of_fmap in Hs as (c & Hc & Hin). eauto.
Qed.

Lemma plan_TransformExpressions_Ok g n r :
  plan_TransformExpressions g n = Ok r ->
  forall e, e ∈ Expressions n -> isOk (expression_TransformUp g e) = true.
Proof.
  unfold plan_TransformExpressions. destruct (isExpressioner n) eqn:Hex.
  - destruct (sequenceR _) as [es|e1] eqn:Hs; cbn [mbind Result_bind bindR];
      [|discriminate].
    intros _ e He. apply sequenceR_Ok in Hs. rewrite Forall_forall in Hs.
    apply Hs, list_elem_of_fmap. eauto.
  - intros _ e He. destruct n; try discriminate Hex; cbn in He; inversion He.
Qed.

Lemma ExprResolved_no_call e x :
  ExprResolved e = true -> x ∈ subExprs e -> isUnresolvedFunction x = false.
Proof.
  revert x.
  induction e as [v|i nm'|nm'|l IHl r IHr|nm' args' IH w'|nm' k nd args' IH w'|q c];
    cbn [ExprResolved subExprs]; intros x Hres [->|Hin]%elem_of_cons;
    try reflexivity; try discriminate Hres; try (inversion Hin; fail).
  - apply andb_prop in Hres as [H1 H2].
    apply elem_of_app in Hin as [Hin|Hin]; auto.
  - apply elem_of_subExprs_args in Hin as (c & Hc & Hx).
    apply list_all_Forall in IH. rewrite Forall_forall in IH.
    rewrite forallb_forall in Hres.
    apply (IH c Hc x); [apply Hres, list_elem_of_In, Hc|exact Hx].
Qed.

Lemma NodeResolved_Expressions m e :
  NodeResolved m = true -> e ∈ Expressions m -> ExprResolved e = true.
Proof.
  destruct m; cbn; intros Hres He; try (inversion He; fail);
    repeat match goal with
           | H : _ && _ = true |- _ => apply andb_prop in H as [H ?]
           end.
  - rewrite forallb_forall in Hres. apply Hres, list_elem_of_In, He.
  - apply list_elem_of_singleton in He. subst. assumption.
  - apply list_elem_of_singleton in He. subst. assumption.
  - apply list_elem_of_singleton in He. subst. assumption.
Qed.

(** An unresolved call to a name the catalog does not hold, anywhere in the
    expressions of the plan, makes [resolveFunctions] fail. *)
Lemma resolveFunctions_unknown a n scope m e nm args w :
  m ∈ allNodes n -> e ∈ Expressions m ->
  UnresolvedFunction nm args w ∈ subExprs e ->
  Catalog a !! nm = None ->
  isOk (resolveFunctions a n scope) = false.
Proof.
  intros Hm He Hcall Hnone. unfold resolveFunctions.
  destruct (plan_TransformUp _ n) as [r|] eqn:Hr; [|reflexivity]. exfalso.
  destruct (plan_TransformUp_Ok _ _ _ Hr m Hm) as (m' & Hok & Hexprs).
  rewrite <- Hexprs in He.
  destruct (NodeResolved m') eqn:Hres.
  { pose proof (ExprResolved_no_call _ _ (NodeResolved_Expressions _ _ Hres He) Hcall).
    discriminate. }
  unfold plan_TransformExpressionsUp in Hok.
  destruct (plan_TransformUp _ m') as [r'|] eqn:Hr'; [|discriminate Hok].
  destruct (plan_TransformUp_Ok _ _ _ Hr' m' ltac:(rewrite allNodes_unfold; left))
    as (m2 & Hok2 & Hexprs2).
  rewrite <- Hexprs2 in He.
  destruct (plan_TransformExpressions _ m2) as [r2|] eqn:Hr2; [|discriminate Hok2].
  pose proof (plan_TransformExpressions_Ok _ _ _ Hr2 e He) as Hee.
  rewrite (expression_TransformUp_unknown a e nm args w Hcall Hnone) in Hee.
  discriminate.
Qed.

Lemma resolveFunctions_Err a n scope err :
  resolveFunctions a n scope = Err err -> catalogError a err.
Proof.
  unfold resolveFunctions. intros (m & Hm)%plan_TransformUp_Err.
  destruct (NodeResolved m); [discriminate|].
  apply plan_TransformUp_Err in Hm as (m2 & Hm2).
  apply plan_TransformExpressions_Err in Hm2 as (e & He).
  apply (expression_TransformUp_Err _ _ _ He).
Qed.

(** The plan with every known call of every expression instantiated. *)
Fixpoint instantiatePlan (a : Analyzer) (n : Node) : Node :=
  match n with
  | ResolvedTable _ _ | UnresolvedTable _ => n
  | Project es c => Project (map (instantiate a) es) (instantiatePlan a c)
  | Filter e c => Filter (instantiate a e) (instantiatePlan a c)
  | JoinNode jt sl e l r =>
      JoinNode jt sl (instantiate a e) (instantiatePlan a l) (instantiatePlan a r)
  | IndexedJoin jt sl e l r =>
      IndexedJoin jt sl (instantiate a e) (instantiatePlan a l) (instantiatePlan a r)
  | SubqueryAlias nm cols c => SubqueryAlias nm cols (instantiatePlan a c)
  | TableAlias nm c => TableAlias nm (instantiatePlan a c)
  | CachedResults c => CachedResults (instantiatePlan a c)
  | StripRowNode c k => StripRowNode (instantiatePlan a c) k
  | QueryProcess c => QueryProcess (instantiatePlan a c)
  | StartTransaction c => StartTransaction (instantiatePlan a c)
  | CreateTrigger nm t b => CreateTrigger nm (instantiatePlan a t) (instantiatePlan a b)
  | TriggerBeginEndBlock ss => TriggerBeginEndBlock (map (instantiatePlan a) ss)
  end.

(** Every unresolved call in the expressions of the plan is a known call. *)
Fixpoint planCallsKnown (a : Analyzer) (n : Node) : bool :=
  forallb (callsKnown a) (Expressions n)
  && match n with
     | ResolvedTable _ _ | UnresolvedTable _ => true
     | Project _ c | Filter _ c | SubqueryAlias _ _ c | TableAlias _ c
     | CachedResults c | StripRowNode c _ | QueryProcess c
     | StartTransaction c => planCallsKnown a c
     | JoinNode _ _ _ l r | IndexedJoin _ _ _ l r | CreateTrigger _ l r =>
         planCallsKnown a l && planCallsKnown a r
     | TriggerBeginEndBlock ss => forallb (planCallsKnown a) ss
     end.

(** No unresolved call is left in the expressions of the plan. *)
Fixpoint planHasUnresolvedFunction (n : Node) : bool :=
  existsb hasUnresolvedFunction (Expressions n)
  || match n with
     | ResolvedTable _ _ | UnresolvedTable _ => false
     | Project _ c | Filter _ c | SubqueryAlias _ _ c | TableAlias _ c
     | CachedResults c | StripRowNode c _ | QueryProcess c
     | StartTransaction c => planHasUnresolvedFunction c
     | JoinNode _ _ _ l r | IndexedJoin _ _ _ l r | CreateTrigger _ l r =>
         planHasUnresolvedFunction l || planHasUnresolvedFunction r
     | TriggerBeginEndBlock ss => existsb planHasUnresolvedFunction ss
     end.

Lemma plan_TransformExpressions_known a n :
  forallb (callsKnown a) (Expressions n) = true ->
  plan_TransformExpressions (resolveFunctionsInExpr a) n
  = Ok match n with
       | Project es c => Project (map (instantiate a) es) c
       | Filter e c => Filter (instantiate a e) c
       | JoinNode jt sl e l r => JoinNode jt sl (instantiate a e) l r
       | IndexedJoin jt sl e l r => IndexedJoin jt sl (instantiate a e) l r
       | _ => n
       end.
Proof.
  intros H. unfold plan_TransformExpressions.
  destruct (isExpressioner n) eqn:Hex; [|destruct n; try discriminate Hex; reflexivity].
  rewrite (sequenceR_map _ (instantiate a)).
  2:{ apply Forall_forall. intros e He. apply expression_TransformUp_known.
      rewrite forallb_forall in H. apply H, list_elem_of_In, He. }
  destruct n; try discriminate Hex; cbn; try reflexivity.
  rewrite length_map, decide_True by reflexivity. reflexivity.
Qed.

(** One pass of [plan.TransformExpressionsUp] instantiates the plan. *)
Lemma plan_TransformExpressionsUp_known a n :
  planCallsKnown a n = true ->
  plan_TransformExpressionsUp n (resolveFunctionsInExpr a) = Ok (instantiatePlan a n).
Proof.
  unfold plan_TransformExpressionsUp.
  induction n as [| | | | | | | | | | | |ss IH|]; cbn [planCallsKnown]; intros H;
    repeat match goal with
           | H : _ && _ = true |- _ => apply andb_prop in H as [H ?]
           end;
    cbn [plan_TransformUp Children instantiatePlan];
    rewrite ?IHn, ?IHn1, ?IHn2 by assumption;
    cbn [map sequenceR mbind Result_bind bindR WithChildren];
    try (rewrite plan_TransformExpressions_known by assumption; reflexivity).
  destruct ss as [|s0 ss].
  - rewrite plan_TransformExpressions_known by assumption. reflexivity.
  - apply list_all_Forall in IH.
    rewrite (sequenceR_map _ (instantiatePlan a))
      by (apply (forallb_Forall_impl _ _ _ IH); assumption).
    cbn [mbind Result_bind bindR]. unfold WithChildren.
    rewrite length_map, decide_True by reflexivity. cbn [mbind Result_bind bindR].
    rewrite plan_TransformExpressions_known by reflexivity. reflexivity.
Qed.

Lemma map_id_Forall {A} (h : A -> A) (l : list A) :
  Forall (fun x => h x = x) l -> map h l = l.
Proof. induction 1 as [|x l Hx _ IH]; cbn; [|rewrite Hx, IH]; reflexivity. Qed.

Lemma existsb_Forall_impl {A} (p : A -> bool) (P : A -> Prop) (l : list A) :
  Forall (fun x => p x = false -> P x) l -> existsb p l = false -> Forall P l.
Proof.
  induction 1 as [|x l Hx _ IH]; cbn; [constructor|].
  intros [H1 H2]%orb_false_elim. constructor; auto.
Qed.

Lemma Forall_forallb {A} (p : A -> bool) (l : list A) :
  Forall (fun x => p x = true) l -> forallb p l = true.
Proof. induction 1 as [|x l Hx _ IH]; cbn; [|rewrite Hx, IH]; reflexivity. Qed.

Lemma Forall_existsb {A} (p : A -> bool) (l : list A) :
  Forall (fun x => p x = false) l -> existsb p l = false.
Proof. induction 1 as [|x l Hx _ IH]; cbn; [|rewrite Hx, IH]; reflexivity. Qed.

Lemma instantiate_resolved a e :
  hasUnresolvedFunction e = false -> instantiate a e = e.
Proof.
  induction e as [v|i nm|nm|l IHl r IHr|nm args IH w|nm k nd args IH w|q c];
    cbn [hasUnresolvedFunction instantiate]; intros H; try reflexivity;
    try discriminate H.
  - apply orb_false_elim in H as [H1 H2]. rewrite IHl, IHr by assumption. reflexivity.
  - apply list_all_Forall in IH.
    rewrite (map_id_Forall _ _ (existsb_Forall_impl _ _ _ IH H)). reflexivity.
Qed.

Lemma callsKnown_resolved a e :
  hasUnresolvedFunction e = false -> callsKnown a e = true.
Proof.
  induction e as [v|i nm|nm|l IHl r IHr|nm args IH w|nm k nd args IH w|q c];
    cbn [hasUnresolvedFunction callsKnown]; intros H; try reflexivity;
    try discriminate H.
  - apply orb_false_elim in H as [H1 H2]. rewrite IHl, IHr by assumption. reflexivity.
  - apply list_all_Forall in IH.
    apply Forall_forallb, (existsb_Forall_impl _ _ _ IH H).
Qed.

Lemma ExprResolved_no_calls e :
  ExprResolved e = true -> hasUnresolvedFunction e = false.
Proof.
  induction e as [v|i nm|nm|l IHl r IHr|nm args IH w|nm k nd args IH w|q c];
    cbn [hasUnresolvedFunction ExprResolved]; intros H; try reflexivity;
    try discriminate H.
  - apply andb_prop in H as [H1 H2]. rewrite IHl, IHr by assumption. reflexivity.
  - apply list_all_Forall in IH.
    apply Forall_existsb, (forallb_Forall_impl _ _ _ IH H).
Qed.

Lemma planCallsKnown_unfold a n :
  planCallsKnown a n
  = forallb (callsKnown a) (Expressions n) && forallb (planCallsKnown a) (Children n).
Proof. destruct n; cbn; rewrite ?andb_true_r; reflexivity. Qed.

Lemma planHasUnresolvedFunction_unfold n :
  planHasUnresolvedFunction n
  = existsb hasUnresolvedFunction (Expressions n)
    || existsb planHasUnresolvedFunction (Children n).
Proof. destruct n; cbn; rewrite ?orb_false_r; reflexivity. Qed.

Lemma instantiatePlan_resolved a n :
  planHasUnresolvedFunction n = false -> instantiatePlan a n = n.
Proof.
  induction n as [| | | | | | | | | | | |ss IH|];
    cbn [planHasUnresolvedFunction Expressions existsb instantiatePlan]; intros H;
    repeat match goal with
           | H : _ || _ = false |- _ => apply orb_false_elim in H as [H ?]
           end;
    rewrite ?IHn, ?IHn1, ?IHn2, ?instantiate_resolved by assumption;
    try reflexivity.
  - f_equal. apply map_id_Forall, Forall_forall. intros e He.
    apply instantiate_resolved.
    destruct (hasUnresolvedFunction e) eqn:Hu; [|reflexivity].
    assert (existsb hasUnresolvedFunction Projections = true)
      by (apply existsb_exists; exists e; split; [apply list_elem_of_In, He|exact Hu]).
    congruence.
  - f_equal. apply list_all_Forall in IH.
    apply map_id_Forall, (existsb_Forall_impl _ _ _ IH). assumption.
Qed.

Lemma planCallsKnown_resolved a n :
  planHasUnresolvedFunction n = false -> planCallsKnown a n = true.
Proof.
  induction n as [n IH] using Node_Children_ind.
  rewrite planHasUnresolvedFunction_unfold, planCallsKnown_unfold.
  intros [H1 H2]%orb_false_elim. apply andb_true_intro. split.
  - apply Forall_forallb, Forall_forall. intros e He. apply callsKnown_resolved.
    destruct (hasUnresolvedFunction e) eqn:Hu; [|reflexivity].
    assert (existsb hasUnresolvedFunction (Expressions n) = true)
      by (apply existsb_exists; exists e; split; [apply list_elem_of_In, He|exact Hu]).
    congruence.
  - apply Forall_forallb, (existsb_Forall_impl _ _ _ IH H2).
Qed.

Lemma instantiatePlan_resolves a n :
  planCallsKnown a n = true -> planHasUnresolvedFunction (instantiatePlan a n) = false.
Proof.
  induction n as [| | | | | | | | | | | |ss IH|];
    cbn [planCallsKnown Expressions forallb instantiatePlan
         planHasUnresolvedFunction existsb]; intros H;
    repeat match goal with
           | H : _ && _ = true |- _ => apply andb_prop in H as [H ?]
           end;
    rewrite ?IHn, ?IHn1, ?IHn2, ?instantiate_resolves by assumption;
    try reflexivity.
  - rewrite orb_false_r. apply existsb_map_false, Forall_forall. intros e He.
    apply instantiate_resolves. rewrite forallb_forall in H.
    apply H, list_elem_of_In, He.
  - apply existsb_map_false. apply list_all_Forall in IH.
    apply (forallb_Forall_impl _ _ _ IH). assumption.
Qed.

Lemma NodeResolved_no_calls n :
  NodeResolved n = true -> planHasUnresolvedFunction n = false.
Proof.
  induction n as [| | | | | | | | | | | |ss IH|];
    cbn [NodeResolved planHasUnresolvedFunction Expressions existsb]; intros H;
    repeat match goal with
           | H : _ && _ = true |- _ => apply andb_prop in H as [H ?]
           end;
    rewrite ?IHn, ?IHn1, ?IHn2, ?ExprResolved_no_calls by assumption;
    try reflexivity; try discriminate.
  - rewrite orb_false_r. apply Forall_existsb, Forall_forall. intros e He.
    apply ExprResolved_no_calls. rewrite forallb_forall in H.
    apply H, list_elem_of_In, He.
  - apply list_all_Forall in IH.
    apply Forall_existsb, (forallb_Forall_impl _ _ _ IH H).
Qed.

(** The visitor of [resolveFunctions] on a node whose children hold no
    unresolved call any more. *)
Lemma resolveFunctions_step a n :
  forallb (callsKnown a) (Expressions n) = true ->
  existsb planHasUnresolvedFunction (Children n) = false ->
  (if NodeResolved n then Ok n
   else plan_TransformExpressionsUp n (resolveFunctionsInExpr a))
  = Ok (instantiatePlan a n).
Proof.
  intros Hown Hchildren. destruct (NodeResolved n) eqn:Hres.
  - rewrite instantiatePlan_resolved; [reflexivity|].
    apply NodeResolved_no_calls, Hres.
  - apply plan_TransformExpressionsUp_known.
    rewrite planCallsKnown_unfold, Hown. cbn [andb].
    apply Forall_forallb.
    apply (existsb_Forall_impl planHasUnresolvedFunction _ (Children n));
      [|assumption].
    apply Forall_forall. intros c _. apply planCallsKnown_resolved.
Qed.

(** When every unresolved call of the plan is known, [resolveFunctions]
    returns the plan with every call instantiated. *)
Lemma resolveFunctions_known a n scope :
  planCallsKnown a n = true ->
  resolveFunctions a n scope = Ok (instantiatePlan a n).
Proof.
  unfold resolveFunctions.
  induction n as [| | | | | | | | | | | |ss IH|]; cbn [planCallsKnown]; intros H;
    repeat match goal with
           | H : _ && _ = true |- _ => apply andb_prop in H as [H ?]
           end;
    cbn [plan_TransformUp Children];
    rewrite ?IHn, ?IHn1, ?IHn2 by assumption;
    cbn [map sequenceR mbind Result_bind bindR WithChildren];
    try (rewrite resolveFunctions_step;
         [cbn [instantiatePlan];
          rewrite ?(instantiatePlan_resolved a (instantiatePlan a _))
            by (apply instantiatePlan_resolves; assumption);
          reflexivity
         |assumption
         |cbn [Children existsb];
          rewrite ?instantiatePlan_resolves by assumption; reflexivity]).
  destruct ss as [|s0 ss].
  - rewrite resolveFunctions_step by reflexivity. reflexivity.
  - apply list_all_Forall in IH.
    assert (Hss : Forall (fun c => planCallsKnown a c = true) (s0 :: ss)).
    { apply Forall_forall. intros c Hc.
      match goal with
      | H : forallb (planCallsKnown a) _ = true |- _ =>
          rewrite forallb_forall in H; apply H, list_elem_of_In, Hc
      end. }
    rewrite (sequenceR_map _ (instantiatePlan a)).
    2:{ apply Forall_forall. intros c Hc. rewrite Forall_forall in IH.
        apply (IH c Hc). rewrite Forall_forall in Hss. apply (Hss c Hc). }
    cbn [mbind Result_bind bindR]. unfold WithChildren.
    rewrite length_map, decide_True by reflexivity. cbn [mbind Result_bind bindR].
    rewrite resolveFunctions_step.
    + cbn [instantiatePlan]. f_equal. f_equal. rewrite map_map.
      apply map_ext_Forall. eapply Forall_impl; [exact Hss|]. cbn. intros c Hc.
      apply instantiatePlan_resolved, instantiatePlan_resolves, Hc.
    + reflexivity.
    + cbn [Children]. apply existsb_map_false.
      eapply Forall_impl; [exact Hss|]. cbn. intros c Hc.
      apply instantiatePlan_resolves, Hc.
Qed.

(** C8.  Function resolution turns an unresolved call whose name the
    catalog holds into the instance of that function on the call's
    arguments, with the window of the call when the function is an
    aggregation or window aggregation, and fails with [ErrFunctionNotFound]
    on a name the catalog does not hold.  On a plan all of whose unresolved
    calls are known, [resolveFunctions] returns the plan with every call
    instantiated, and no unresolved call is left; on a plan with an
    unresolved call to a name the catalog does not hold it returns an error
    of the catalog and no plan. *)
Theorem resolveFunctions_spec (a : Analyzer) (n : Node) (scope : Scope) :
  (forall nm args w,
      Catalog a !! nm = None ->
      resolveFunctionsInExpr a (UnresolvedFunction nm args w)
      = Err (ErrFunctionNotFound nm))
  /\ (forall nm args w f,
      Catalog a !! nm = Some f -> knownCall a nm (length args) = true ->
      resolveFunctionsInExpr a (UnresolvedFunction nm args w)
      = Ok (FunctionCall nm (fnKind f) (fnNonDeterministic f) args (instanceWindow f w)))
  /\ (planCallsKnown a n = true ->
      resolveFunctions a n scope = Ok (instantiatePlan a n)
      /\ planHasUnresolvedFunction (instantiatePlan a n) = false)
  /\ (forall m e nm args w,
      m ∈ allNodes n -> e ∈ Expressions m ->
      UnresolvedFunction nm args w ∈ subExprs e ->
      Catalog a !! nm = None ->
      exists err, resolveFunctions a n scope = Err err /\ catalogError a err).
Proof.
  split; [|split; [|split]].
  - intros nm args w. apply resolveFunctionsInExpr_unknown.
  - intros nm args w f. apply resolveFunctionsInExpr_known.
  - intros H. split; [apply resolveFunctions_known|apply instantiatePlan_resolves];
      assumption.
  - intros m e nm args w Hm He Hcall Hnone.
    pose proof (resolveFunctions_unknown a n scope m e nm args w Hm He Hcall Hnone) as Hf.
    destruct (resolveFunctions a n scope) as [r|err] eqn:Hr; [discriminate Hf|].
    exists err. split; [reflexivity|]. apply (resolveFunctions_Err _ _ _ _ Hr).
Qed.

(** A catalog with the aggregation [count] of one argument and the plain
    function [now] without arguments. *)
Definition sampleCatalog : gmap string FunctionImpl :=
  {[ "count" := MkFunctionImpl Aggregation false (Some 1%nat);
     "now" := MkFunctionImpl PlainFunction true (Some 0%nat) ]}.

Definition sampleAnalyzer : Analyzer :=
  MkAnalyzer (fun n _ _ => idleAnalysis n) (fun n _ _ => idleAnalysis n)
             (fun n _ => idleAnalysis n) sampleCatalog.

Lemma resolveFunctions_spec_witness :
  let w := Some (MkWindow ["a"] ["b"] "rows") in
  let table := ResolvedTable "t" 1 in
  resolveFunctions sampleAnalyzer
    (Project [UnresolvedFunction "count" [GetField 0 "x"] w;
              UnresolvedFunction "now" [] w] table) None
  = Ok (Project [FunctionCall "count" Aggregation false [GetField 0 "x"] w;
                 FunctionCall "now" PlainFunction true [] None] table)
  /\ (exists err,
        resolveFunctions sampleAnalyzer
          (Filter (Equals (UnresolvedFunction "nope" [] None) (Literal 1)) table) None
        = Err err /\ catalogError sampleAnalyzer err).
Proof.
  cbv zeta. split.
  - apply (proj1 (proj2 (proj2 (resolveFunctions_spec sampleAnalyzer
      (Project [UnresolvedFunction "count" [GetField 0 "x"]
                  (Some (MkWindow ["a"] ["b"] "rows"));
                UnresolvedFunction "now" [] (Some (MkWindow ["a"] ["b"] "rows"))]
         (ResolvedTable "t" 1)) None))) ltac:(vm_compute; reflexivity)).
  - eapply (proj2 (proj2 (proj2 (resolveFunctions_spec sampleAnalyzer _ None)))).
    + left.
    + left.
    + cbn. right. left.
    + vm_compute. reflexivity.
Defined.

(** ** The change identity of the rules on subqueries *)

(** [visit.Nodes] reports [SameTree] only with its input when its visitor
    does: with [SameTree] for the children the visitor is handed the node
    itself. *)
Lemma visit_Nodes_SameTree (f : NodeFunc) n t :
  (forall m y, f m = Ok (y, SameTree) -> y = m) ->
  visit_Nodes f n = Ok (t, SameTree) -> t = n.
Proof.
  intros Hf. rewrite visit_Nodes_unfold. unfold transformNode.
  destruct (Children n) as [|c0 cs0]; [apply Hf|].
  destruct (collectChildren _ _) as [[cs' idc]|]; cbn; [|discriminate].
  destruct idc; cbn.
  - destruct (f n) as [[y idn]|] eqn:Hn; cbn; [|discriminate].
    destruct idn; [|discriminate]. intros H. inversion H; subst. apply Hf, Hn.
  - destruct (WithChildren n cs'); cbn; [|discriminate].
    destruct (f _) as [[y idn]|]; cbn; discriminate.
Qed.

Lemma OneNodeExprsWithNode_SameTree (f : ExprWithNodeFunc) m y :
  OneNodeExprsWithNode f m = Ok (y, SameTree) -> y = m.
Proof.
  unfold OneNodeExprsWithNode. destruct (isExpressioner m).
  - destruct (collectChildren _ _) as [[es' id]|]; cbn; [|discriminate].
    destruct id; cbn.
    + intros H. inversion H. reflexivity.
    + destruct (WithExpressions m es'); cbn; discriminate.
  - intros H. inversion H. reflexivity.
Qed.

Lemma cacheSubqueryResults_SameTree a n scope t :
  cacheSubqueryResults a n scope = Ok (t, SameTree) -> t = n.
Proof.
  unfold cacheSubqueryResults, visit_NodesExprsWithNode.
  destruct n; try (apply visit_Nodes_SameTree; apply OneNodeExprsWithNode_SameTree).
  intros H. inversion H. reflexivity.
Qed.

Lemma resolveSubqueryAlias_SameTree analyze m y :
  resolveSubqueryAlias analyze m = Ok (y, SameTree) -> y = m.
Proof.
  destruct m; cbn; try (intros H; inversion H; reflexivity).
  destruct (analyze m None "default-rules") as [[child same] [e|]]; [discriminate|].
  destruct (columnCountMismatch Columns m); [discriminate|].
  destruct same; cbn; [|discriminate]. intros H. inversion H. reflexivity.
Qed.

Lemma resolveSubqueries_SameTree a n scope t :
  resolveSubqueries a n scope = Ok (t, SameTree) -> t = n.
Proof. apply visit_Nodes_SameTree. apply resolveSubqueryAlias_SameTree. Qed.

Lemma finalizeSubqueries_SameTree a n scope t :
  finalizeSubqueries a n scope = Ok (t, SameTree) -> t = n.
Proof. apply visit_Nodes_SameTree. apply resolveSubqueryAlias_SameTree. Qed.

(** The visitor of [setJoinScopeLen] is the one that does not. *)
Example setJoinScopeLenVisit_SameTree_changed :
  let l := StripRowNode (ResolvedTable "a" 1) 1 in
  let r := StripRowNode (ResolvedTable "b" 1) 1 in
  setJoinScopeLenVisit 2 (JoinNode JoinTypeInner 1 (Literal 1) l r)
  = Ok (JoinNode JoinTypeInner 2 (Literal 1) l r, SameTree).
Proof. reflexivity. Qed.

(** * The subquery-alias rules as a recursion over the plan *)

(** What the rules are to do at a subquery alias whose child they have been
    through: analyze the child in the empty scope, whatever the scope of the
    enclosing analysis; return the error of that analysis; then check the
    number of columns; then keep the alias, or splice the analyzed child in
    without its pass-through wrappers. *)
Definition spliceAlias (analyze : Node -> Scope -> string -> Analysis)
    (nm : string) (cols : list string) (child : Node) : Result Node :=
  match analyze child None "default-rules" with
  | (_, _, Some e) => Err e
  | (analyzed, same, None) =>
      if negb (length cols =? 0)%nat
         && negb (schemaLength child =? Z.of_nat (length cols))
      then Err ErrColumnCountMismatch
      else match same with
           | SameTree => Ok (SubqueryAlias nm cols child)
           | NewTree => Ok (SubqueryAlias nm cols (StripPassthroughNodes analyzed))
           end
  end.

(** The plan the rules are to return: every subquery alias of the plan,
    the innermost first and the operands of a join from left to right, goes
    through [spliceAlias]; the first error ends the walk. *)
Fixpoint analyzeAliases (analyze : Node -> Scope -> string -> Analysis)
    (n : Node) : Result Node :=
  match n with
  | ResolvedTable _ _ | UnresolvedTable _ => Ok n
  | Project es c => c' ← analyzeAliases analyze c; Ok (Project es c')
  | Filter e c => c' ← analyzeAliases analyze c; Ok (Filter e c')
  | SubqueryAlias nm cols c =>
      c' ← analyzeAliases analyze c; spliceAlias analyze nm cols c'
  | TableAlias nm c => c' ← analyzeAliases analyze c; Ok (TableAlias nm c')
  | CachedResults c => c' ← analyzeAliases analyze c; Ok (CachedResults c')
  | StripRowNode c k => c' ← analyzeAliases analyze c; Ok (StripRowNode c' k)
  | QueryProcess c => c' ← analyzeAliases analyze c; Ok (QueryProcess c')
  | StartTransaction c => c' ← analyzeAliases analyze c; Ok (StartTransaction c')
  | JoinNode jt sl e l r =>
      l' ← analyzeAliases analyze l; r' ← analyzeAliases analyze r;
      Ok (JoinNode jt sl e l' r')
  | IndexedJoin jt sl e l r =>
      l' ← analyzeAliases analyze l; r' ← analyzeAliases analyze r;
      Ok (IndexedJoin jt sl e l' r')
  | CreateTrigger nm t b =>
      t' ← analyzeAliases analyze t; b' ← analyzeAliases analyze b;
      Ok (CreateTrigger nm t' b')
  | TriggerBeginEndBlock ss =>
      ss' ← sequenceR (map (analyzeAliases analyze) ss);
      Ok (TriggerBeginEndBlock ss')
  end.

(** The recursive analysis of the child of every subquery alias of the plan
    succeeds, on the child as the rule has left it. *)
Definition childAnalysesSucceed (analyze : Node -> Scope -> string -> Analysis)
    (n : Node) : Prop :=
  forall nm cols c c',
    SubqueryAlias nm cols c ∈ allNodes n ->
    analyzeAliases analyze c = Ok c' ->
    snd (analyze c' None "default-rules") = None.

(** Some subquery alias of the plan has a non-empty column list whose length
    is not the number of output columns of its child, as the rule has left
    that child. *)
Definition columnCountMismatchIn (analyze : Node -> Scope -> string -> Analysis)
    (n : Node) : Prop :=
  exists nm cols c c',
    SubqueryAlias nm cols c ∈ allNodes n
    /\ analyzeAliases analyze c = Ok c'
    /\ cols <> []
    /\ schemaLength c' <> Z.of_nat (length cols).

(** One step of [analyzeAliases], on a node whose children are done. *)
Definition aliasStep (analyze : Node -> Scope -> string -> Analysis)
    (n : Node) : Result Node :=
  match n with
  | SubqueryAlias nm cols c => spliceAlias analyze nm cols c
  | _ => Ok n
  end.

(** A result of the engine agrees with a result without change identity. *)
Definition agrees (spec : Result Node) (n : Node)
    (r : Result (Node * TreeIdentity)) : Prop :=
  match spec with
  | Ok t => honestResult n r t
  | Err e => r = Err e
  end.

Lemma analyzeAliases_unfold analyze n :
  analyzeAliases analyze n
  = (cs ← sequenceR (map (analyzeAliases analyze) (Children n));
     n' ← WithChildren n cs; aliasStep analyze n').
Proof.
  destruct n; cbn [analyzeAliases Children map sequenceR];
    try reflexivity;
    repeat match goal with
           | |- context [analyzeAliases analyze ?c] =>
               destruct (analyzeAliases analyze c); cbn
           end;
    try reflexivity.
  destruct (sequenceR (map (analyzeAliases analyze) statements)) as [ss'|e] eqn:Hs;
    cbn; [|reflexivity].
  apply sequenceR_length in Hs. rewrite length_map in Hs.
  rewrite decide_True by exact Hs. reflexivity.
Qed.

Lemma spliceAlias_columnCountMismatch analyze nm cols c :
  spliceAlias analyze nm cols c
  = match analyze c None "default-rules" with
    | (_, _, Some e) => Err e
    | (analyzed, same, None) =>
        if columnCountMismatch cols c then Err ErrColumnCountMismatch
        else if isSame same then Ok (SubqueryAlias nm cols c)
        else Ok (SubqueryAlias nm cols (StripPassthroughNodes analyzed))
    end.
Proof.
  unfold spliceAlias, columnCountMismatch.
  destruct (analyze c None "default-rules") as [[analyzed same] [e|]]; [reflexivity|].
  replace (0 <? Z.of_nat (length cols)) with (negb (length cols =? 0)%nat).
  - destruct (_ && _); [reflexivity|]. destruct same; reflexivity.
  - destruct cols; cbn [length]; [reflexivity|].
    symmetry. apply Z.ltb_lt. lia.
Qed.

Lemma resolveSubqueryAlias_step analyze m :
  agrees (aliasStep analyze m) m (resolveSubqueryAlias analyze m).
Proof.
  unfold agrees, honestResult.
  destruct m; cbn [aliasStep resolveSubqueryAlias]; try (exists SameTree; auto; fail).
  rewrite spliceAlias_columnCountMismatch.
  destruct (analyze m None "default-rules") as [[analyzed same] [e|]]; [reflexivity|].
  destruct (columnCountMismatch Columns m); [reflexivity|].
  destruct same; cbn.
  - exists SameTree. auto.
  - exists NewTree. split; [reflexivity|discriminate].
Qed.

Lemma collectChildren_agrees (rec : Node -> Result (Node * TreeIdentity))
    (spec : Node -> Result Node) (cs : list Node) :
  Forall (fun c => agrees (spec c) c (rec c)) cs ->
  match sequenceR (map spec cs) with
  | Ok cs' => Forall3 honestResult cs (map rec cs) cs'
  | Err e => collectChildren cs (map rec cs) = Err e
  end.
Proof.
  induction 1 as [|c cs Hc _ IH]; cbn [map sequenceR]; [constructor|].
  unfold agrees in Hc. destruct (spec c) as [t|e]; cbn.
  - destruct (sequenceR (map spec cs)) as [cs'|e]; cbn.
    + constructor; assumption.
    + destruct Hc as (id & -> & _). cbn. rewrite IH. reflexivity.
  - rewrite Hc. reflexivity.
Qed.

(** [visit.Nodes] with the visitor of the two rules computes
    [analyzeAliases]. *)
Lemma visit_Nodes_analyzeAliases analyze n :
  agrees (analyzeAliases analyze n) n (visit_Nodes (resolveSubqueryAlias analyze) n).
Proof.
  induction n as [n IH] using Node_Children_ind.
  rewrite analyzeAliases_unfold, visit_Nodes_unfold. unfold transformNode.
  pose proof (collectChildren_agrees _ _ _ IH) as Hcs.
  destruct (sequenceR (map (analyzeAliases analyze) (Children n))) as [cs'|e] eqn:Hseq;
    cbn [mbind Result_bind bindR].
  - assert (Hlen : length cs' = length (Children n))
      by (apply sequenceR_length in Hseq; rewrite length_map in Hseq; exact Hseq).
    destruct (WithChildren_same_length n cs' Hlen) as [n' Hn'].
    destruct (collectChildren_honest _ _ _ Hcs) as (idc & Hcc & Hidc).
    assert (Hsame : idc = SameTree -> n' = n).
    { intros Hs. rewrite (Hidc Hs) in Hn'. apply WithChildren_Children, Hn'. }
    rewrite Hn'. cbn [mbind Result_bind bindR].
    pose proof (resolveSubqueryAlias_step analyze n') as Hstep.
    destruct (Children n) as [|c0 cs0] eqn:Hch.
    + destruct cs'; [|discriminate Hlen].
      rewrite <- Hch in Hn'. apply WithChildren_Children in Hn'. subst n'.
      exact Hstep.
    + cbv beta iota. rewrite Hcc. cbn [mbind Result_bind bindR].
      replace (if isSame idc then Ok n else WithChildren n cs')
        with (Ok (A:=Node) n')
        by (destruct idc; cbn; [rewrite Hsame by reflexivity; reflexivity|auto]).
      cbn [mbind Result_bind bindR]. unfold agrees in *.
      destruct (aliasStep analyze n') as [t|e].
      * destruct Hstep as (idn & -> & Hidn). cbn.
        exists (andT idc idn). split; [reflexivity|].
        destruct idc; cbn; [|discriminate]. intros Hs.
        rewrite (Hidn Hs). auto.
      * rewrite Hstep. reflexivity.
  - destruct (Children n) as [|c0 cs0]; [discriminate Hseq|].
    cbv beta iota. rewrite Hcs. reflexivity.
Qed.

(** An error of [analyzeAliases] is the error of one subquery alias of the
    plan, whose child went through without error. *)
Lemma analyzeAliases_Err analyze n e :
  analyzeAliases analyze n = Err e ->
  exists nm cols c c',
    SubqueryAlias nm cols c ∈ allNodes n
    /\ analyzeAliases analyze c = Ok c'
    /\ spliceAlias analyze nm cols c' = Err e.
Proof.
  induction n as [n IH] using Node_Children_ind.
  destruct (analyzeAliases analyze n) as [t|e'] eqn:Hn; [discriminate|].
  intros [= ->].
  assert (Hchild : forall c, c ∈ Children n -> analyzeAliases analyze c = Err e ->
            exists nm cols c0 c', SubqueryAlias nm cols c0 ∈ allNodes n
              /\ analyzeAliases analyze c0 = Ok c'
              /\ spliceAlias analyze nm cols c' = Err e).
  { intros c Hc He. rewrite Forall_forall in IH.
    destruct (IH c Hc He) as (nm & cols & c0 & c' & Hin & H1 & H2).
    exists nm, cols, c0, c'. split; [|auto].
    rewrite allNodes_unfold. right.
    clear -Hc Hin. induction (Children n) as [|x xs IHxs]; [inversion Hc|].
    cbn. apply elem_of_app. apply elem_of_cons in Hc as [->|Hc]; auto. }
  destruct n; cbn [analyzeAliases] in Hn; cbn [Children] in Hchild;
    try discriminate Hn;
    repeat match type of Hn with
           | context [analyzeAliases analyze ?c] =>
               let H := fresh "Hc" in
               destruct (analyzeAliases analyze c) eqn:H; cbn in Hn;
               [|injection Hn as ->; apply (Hchild c);
                 [repeat constructor|assumption]]
           end;
    try discriminate Hn.
  - do 4 eexists. split; [left|]. split; [eassumption|exact Hn].
  - destruct (sequenceR (map (analyzeAliases analyze) statements)) as [ss'|e'] eqn:Hs;
      cbn in Hn; [discriminate|]. injection Hn as ->.
    apply sequenceR_Err in Hs. apply list_elem_of_fmap in Hs as (c & Hce & Hc).
    apply (Hchild c Hc). symmetry. exact Hce.
Qed.

(** A part of the plan on which [analyzeAliases] fails makes it fail on the
    plan. *)
Lemma analyzeAliases_fails analyze n m :
  m ∈ allNodes n ->
  isOk (analyzeAliases analyze m) = false -> isOk (analyzeAliases analyze n) = false.
Proof.
  induction n as [n IH] using Node_Children_ind.
  rewrite allNodes_unfold. intros [->|Hm]%elem_of_cons Hfail; [exact Hfail|].
  apply elem_of_concat in Hm as (l & Hml & Hl).
  apply list_elem_of_fmap in Hl as (c & -> & Hc).
  rewrite Forall_forall in IH. specialize (IH c Hc Hml Hfail).
  rewrite analyzeAliases_unfold.
  assert (Hseq : isOk (sequenceR (map (analyzeAliases analyze) (Children n))) = false).
  { apply (sequenceR_fails _ (analyzeAliases analyze c)); [|exact IH].
    apply list_elem_of_fmap. exists c. auto. }
  destruct (sequenceR _); [discriminate Hseq|reflexivity].
Qed.

(** On a plan without subquery alias [analyzeAliases] returns the plan. *)
Lemma analyzeAliases_aliasFree analyze n :
  aliasFree n = true -> analyzeAliases analyze n = Ok n.
Proof.
  intros Hfree.
  pose proof (visit_Nodes_analyzeAliases analyze n) as H.
  rewrite (resolveSubqueryAlias_aliasFree _ _ Hfree) in H. unfold agrees in H.
  destruct (analyzeAliases analyze n) as [t|e]; [|discriminate H].
  destruct H as (id & [= <- <-] & _). reflexivity.
Qed.

Lemma spliceAlias_Err_mismatch analyze nm cols c :
  snd (analyze c None "default-rules") = None ->
  forall e, spliceAlias analyze nm cols c = Err e ->
            e = ErrColumnCountMismatch
            /\ cols <> [] /\ schemaLength c <> Z.of_nat (length cols).
Proof.
  unfold spliceAlias.
  destruct (analyze c None "default-rules") as [[analyzed same] [e0|]]; cbn;
    [discriminate|]. intros _ e.
  destruct cols as [|x cols].
  - cbn [length Nat.eqb negb andb]. destruct same; discriminate.
  - change (length (x :: cols) =? 0)%nat with false. cbn [negb andb].
    destruct (schemaLength c =? _) eqn:Heq; cbn [negb].
    + destruct same; discriminate.
    + intros [= <-]. apply Z.eqb_neq in Heq. split; [reflexivity|]. split; [discriminate|].
      exact Heq.
Qed.

Lemma spliceAlias_mismatch analyze nm cols c :
  snd (analyze c None "default-rules") = None ->
  cols <> [] -> schemaLength c <> Z.of_nat (length cols) ->
  spliceAlias analyze nm cols c = Err ErrColumnCountMismatch.
Proof.
  unfold spliceAlias.
  destruct (analyze c None "default-rules") as [[analyzed same] [e0|]]; cbn;
    [discriminate|]. intros _ Hcols Hlen.
  destruct cols as [|x cols]; [contradiction|].
  apply Z.eqb_neq in Hlen. change (length (x :: cols) =? 0)%nat with false.
  cbn [negb andb]. rewrite Hlen. reflexivity.
Qed.

(** With every recursive analysis succeeding, [analyzeAliases] fails exactly
    on a column count that does not match, and with that error only. *)
Lemma analyzeAliases_mismatch analyze n :
  childAnalysesSucceed analyze n ->
  (forall e, analyzeAliases analyze n = Err e -> e = ErrColumnCountMismatch)
  /\ (analyzeAliases analyze n = Err ErrColumnCountMismatch
      <-> columnCountMismatchIn analyze n).
Proof.
  intros Hok.
  assert (Herr : forall e, analyzeAliases analyze n = Err e ->
                   e = ErrColumnCountMismatch /\ columnCountMismatchIn analyze n).
  { intros e He.
    destruct (analyzeAliases_Err _ _ _ He) as (nm & cols & c & c' & Hin & Hc & Hs).
    destruct (spliceAlias_Err_mismatch _ _ _ _ (Hok _ _ _ _ Hin Hc) _ Hs)
      as (-> & Hcols & Hlen).
    split; [reflexivity|]. exists nm, cols, c, c'. auto. }
  split; [intros e He; apply (Herr e He)|]. split; [intros He; apply (Herr _ He)|].
  intros (nm & cols & c & c' & Hin & Hc & Hcols & Hlen).
  assert (Hfail : isOk (analyzeAliases analyze n) = false).
  { apply (analyzeAliases_fails _ _ _ Hin). cbn [analyzeAliases]. rewrite Hc. cbn.
    rewrite (spliceAlias_mismatch _ _ _ _ (Hok _ _ _ _ Hin Hc) Hcols Hlen).
    reflexivity. }
  destruct (analyzeAliases analyze n) as [t|e] eqn:Hn; [discriminate Hfail|].
  f_equal. apply (Herr e eq_refl).
Qed.

Lemma agrees_Err spec n r :
  agrees spec n r -> forall e, r = Err e <-> spec = Err e.
Proof.
  unfold agrees, honestResult. destruct spec as [t|e0]; intros H e.
  - destruct H as (id & -> & _). split; discriminate.
  - subst r. split; intros [= ->]; reflexivity.
Qed.

(** An analyzer that resolves the column [o] of the outer query: its
    analysis succeeds in a scope that holds the outer query and fails in the
    empty scope. *)
Definition outerColumnAnalysis (c : Node) (s : Scope) : Analysis :=
  match s with
  | None => (c, SameTree, Some (ErrColumnNotFound "o"))
  | Some _ => (c, NewTree, None)
  end.

Definition outerColumnAnalyzer : Analyzer :=
  MkAnalyzer (fun c s _ => outerColumnAnalysis c s)
             (fun c s _ => outerColumnAnalysis c s)
             outerColumnAnalysis ∅.

(** C4.  In every enclosing scope, [resolveSubqueries] and
    [finalizeSubqueries] compute [analyzeAliases] with their entry point of
    the recursive analysis: the child of every subquery alias of the plan is
    handed to that analysis in the empty scope, and what the analysis
    answers there is what the rule does with the alias.  Hence, when the
    analysis in the empty scope fails on the child of some alias of the plan,
    as it does on a column that only the outer query has, the rule fails,
    whatever the analysis would answer in the enclosing scope. *)
Theorem subquery_alias_scope_opaque (a : Analyzer) (n : Node) (scope : Scope) :
  match analyzeAliases (analyzeThroughBatch a) n with
  | Ok t => exists id, resolveSubqueries a n scope = Ok (t, id)
                       /\ (id = SameTree -> t = n)
  | Err e => resolveSubqueries a n scope = Err e
  end
  /\ match analyzeAliases (analyzeStartingAtBatch a) n with
     | Ok t => exists id, finalizeSubqueries a n scope = Ok (t, id)
                          /\ (id = SameTree -> t = n)
     | Err e => finalizeSubqueries a n scope = Err e
     end
  /\ (forall nm cols c c' partial id e,
        SubqueryAlias nm cols c ∈ allNodes n ->
        analyzeAliases (analyzeThroughBatch a) c = Ok c' ->
        analyzeThroughBatch a c' None "default-rules" = (partial, id, Some e) ->
        exists e', resolveSubqueries a n scope = Err e')
  /\ (forall nm cols c c' partial id e,
        SubqueryAlias nm cols c ∈ allNodes n ->
        analyzeAliases (analyzeStartingAtBatch a) c = Ok c' ->
        analyzeStartingAtBatch a c' None "default-rules" = (partial, id, Some e) ->
        exists e', finalizeSubqueries a n scope = Err e').
Proof.
  assert (Hfail : forall analyze nm cols c c' partial id e,
            SubqueryAlias nm cols c ∈ allNodes n ->
            analyzeAliases analyze c = Ok c' ->
            analyze c' None "default-rules" = (partial, id, Some e) ->
            exists e', visit_Nodes (resolveSubqueryAlias analyze) n = Err e').
  { intros analyze nm cols c c' partial id e Hin Hc Ha.
    assert (Hn : isOk (analyzeAliases analyze n) = false).
    { apply (analyzeAliases_fails _ _ _ Hin). cbn [analyzeAliases]. rewrite Hc. cbn.
      unfold spliceAlias. rewrite Ha. reflexivity. }
    pose proof (visit_Nodes_analyzeAliases analyze n) as Hv. unfold agrees in Hv.
    destruct (analyzeAliases analyze n) as [t|e']; [discriminate Hn|]. eauto. }
  split; [apply visit_Nodes_analyzeAliases|].
  split; [apply visit_Nodes_analyzeAliases|].
  split; apply Hfail.
Qed.

(** [SELECT x FROM (SELECT o FROM t) AS s] inside a query block that has the
    column [o]: the analysis would resolve [o] in the enclosing scope, and
    both rules fail on it. *)
Lemma subquery_alias_scope_opaque_witness :
  let alias := SubqueryAlias "s" [] (Project [UnresolvedColumn "o"] (ResolvedTable "t" 1)) in
  let n := Project [GetField 0 "x"] alias in
  let outer := Filter (Literal 1) (ResolvedTable "outer" 1) in
  outerColumnAnalysis (Project [UnresolvedColumn "o"] (ResolvedTable "t" 1)) (Some [outer])
  = (Project [UnresolvedColumn "o"] (ResolvedTable "t" 1), NewTree, None)
  /\ resolveSubqueries outerColumnAnalyzer n (Some [outer]) = Err (ErrColumnNotFound "o")
  /\ finalizeSubqueries outerColumnAnalyzer n (Some [outer]) = Err (ErrColumnNotFound "o").
Proof.
  cbv zeta. split; [reflexivity|].
  destruct (subquery_alias_scope_opaque outerColumnAnalyzer
              (Project [GetField 0 "x"]
                 (SubqueryAlias "s" []
                    (Project [UnresolvedColumn "o"] (ResolvedTable "t" 1))))
              (Some [Filter (Literal 1) (ResolvedTable "outer" 1)]))
    as (Hresolve & Hfinalize & _).
  split; [exact Hresolve|exact Hfinalize].
Defined.

(** C6, as amended.  On a plan in which the recursive analysis of the child
    of every subquery alias succeeds, [resolveSubqueries] and
    [finalizeSubqueries] fail with [ErrColumnCountMismatch] exactly when some
    subquery alias of the plan, at any depth, has a non-empty column list
    whose length is not the number of output columns of its child, and they
    fail with no other error.  The child is the one the rule has been
    through; it is the child of the plan when that holds no further
    alias. *)
Theorem ColumnCountMismatch_iff (a : Analyzer) (n : Node) (scope : Scope) :
  (childAnalysesSucceed (analyzeThroughBatch a) n ->
   (resolveSubqueries a n scope = Err ErrColumnCountMismatch
    <-> columnCountMismatchIn (analyzeThroughBatch a) n)
   /\ (forall e, resolveSubqueries a n scope = Err e -> e = ErrColumnCountMismatch))
  /\ (childAnalysesSucceed (analyzeStartingAtBatch a) n ->
      (finalizeSubqueries a n scope = Err ErrColumnCountMismatch
       <-> columnCountMismatchIn (analyzeStartingAtBatch a) n)
      /\ (forall e, finalizeSubqueries a n scope = Err e -> e = ErrColumnCountMismatch))
  /\ (forall analyze c, aliasFree c = true -> analyzeAliases analyze c = Ok c).
Proof.
  assert (Hrule : forall analyze,
            childAnalysesSucceed analyze n ->
            (visit_Nodes (resolveSubqueryAlias analyze) n = Err ErrColumnCountMismatch
             <-> columnCountMismatchIn analyze n)
            /\ (forall e, visit_Nodes (resolveSubqueryAlias analyze) n = Err e ->
                          e = ErrColumnCountMismatch)).
  { intros analyze Hok.
    destruct (analyzeAliases_mismatch analyze n Hok) as [Honly Hiff].
    pose proof (agrees_Err _ _ _ (visit_Nodes_analyzeAliases analyze n)) as Herr.
    split.
    - rewrite Herr. exact Hiff.
    - intros e He. apply Honly, Herr, He. }
  split; [apply Hrule|]. split; [apply Hrule|].
  intros analyze c. apply analyzeAliases_aliasFree.
Qed.

(** [SELECT x FROM (SELECT a, b FROM t) AS s (x)]: one alias for two
    columns, beneath a projection. *)
Lemma ColumnCountMismatch_iff_witness :
  let child := Project [GetField 0 "a"; GetField 1 "b"] (ResolvedTable "t" 2) in
  let n := Project [GetField 0 "x"] (SubqueryAlias "s" ["x"] child) in
  resolveSubqueries idleAnalyzer n None = Err ErrColumnCountMismatch
  /\ finalizeSubqueries idleAnalyzer n None = Err ErrColumnCountMismatch.
Proof.
  cbv zeta.
  destruct (ColumnCountMismatch_iff idleAnalyzer
              (Project [GetField 0 "x"]
                 (SubqueryAlias "s" ["x"]
                    (Project [GetField 0 "a"; GetField 1 "b"] (ResolvedTable "t" 2))))
              None) as (Hresolve & Hfinalize & _).
  assert (Hin : columnCountMismatchIn (fun n _ _ => idleAnalysis n)
                  (Project [GetField 0 "x"]
                     (SubqueryAlias "s" ["x"]
                        (Project [GetField 0 "a"; GetField 1 "b"]
                           (ResolvedTable "t" 2))))).
  { exists "s", ["x"],
      (Project [GetField 0 "a"; GetField 1 "b"] (ResolvedTable "t" 2)),
      (Project [GetField 0 "a"; GetField 1 "b"] (ResolvedTable "t" 2)).
    split; [right; left|]. split; [reflexivity|].
    split; [discriminate|vm_compute; discriminate]. }
  split.
  - apply (proj1 (Hresolve ltac:(intros nm cols c c' _ _; reflexivity))), Hin.
  - apply (proj1 (Hfinalize ltac:(intros nm cols c c' _ _; reflexivity))), Hin.
Defined.

(** Without the success of the recursive analysis C6 fails in both
    directions: the analysis comes before the count, so an alias with one
    name for two columns fails with the error of the analysis, and an alias
    without column list fails with [ErrColumnCountMismatch] when that is the
    error of the analysis. *)
Theorem ColumnCountMismatch_analysis_error_counterexample :
  let child := Project [GetField 0 "a"; GetField 1 "b"] (ResolvedTable "t" 2) in
  let mismatchAnalyzer :=
    MkAnalyzer (fun c _ _ => (c, SameTree, Some ErrColumnCountMismatch))
               (fun c _ _ => (c, SameTree, Some ErrColumnCountMismatch))
               (fun c _ => idleAnalysis c) ∅ in
  schemaLength child <> Z.of_nat (length ["x"])
  /\ resolveSubqueries fatalAnalyzer (SubqueryAlias "s" ["x"] child) None
     = Err (ErrOther 1)
  /\ finalizeSubqueries fatalAnalyzer (SubqueryAlias "s" ["x"] child) None
     = Err (ErrOther 1)
  /\ resolveSubqueries mismatchAnalyzer (SubqueryAlias "s" [] child) None
     = Err ErrColumnCountMismatch
  /\ finalizeSubqueries mismatchAnalyzer (SubqueryAlias "s" [] child) None
     = Err ErrColumnCountMismatch.
Proof.
  cbv zeta. split; [vm_compute; discriminate|]. repeat split; reflexivity.
Qed.

(** * Further properties of the analyzer rules *)

(** ** Stripping the pass-through nodes *)

Definition isPassthrough (n : Node) : bool :=
  match n with
  | QueryProcess _ | StartTransaction _ => true
  | _ => false
  end.

Lemma StripPassthroughNodes_not_passthrough n :
  isPassthrough (StripPassthroughNodes n) = false.
Proof. induction n; cbn; auto. Qed.




Lemma StripPassthroughNodes_schemaLength n :
  schemaLength (StripPassthroughNodes n) = schemaLength n.
Proof. induction n; cbn [StripPassthroughNodes schemaLength]; auto. Qed.


(** ** Splicing the analyzed child of a subquery alias *)

(** When the visitor of [resolveSubqueries] and [finalizeSubqueries]
    succeeds at a subquery alias, it returns the alias itself with
    [SameTree], or with [NewTree] the alias with its name and column list
    and, as its child, the analyzed plan without its pass-through wrappers;
    a node that is not a subquery alias is returned as it is. *)
Theorem resolveSubqueryAlias_splice
    (analyze : Node -> Scope -> string -> Analysis) (n t : Node) (id : TreeIdentity) :
  resolveSubqueryAlias analyze n = Ok (t, id) ->
  match n with
  | SubqueryAlias nm cols child =>
      let '(analyzed, same, err) := analyze child None "default-rules" in
      err = None
      /\ columnCountMismatch cols child = false
      /\ id = same
      /\ t = match same with
             | SameTree => n
             | NewTree => SubqueryAlias nm cols (StripPassthroughNodes analyzed)
             end
      /\ (id = NewTree -> exists c, t = SubqueryAlias nm cols c /\ isPassthrough c = false)
  | _ => t = n /\ id = SameTree
  end.
Proof.
  destruct n; cbn; try (intros H; inversion H; auto; fail).
  destruct (analyze n None "default-rules") as [[analyzed same] [e|]]; [discriminate|].
  destruct (columnCountMismatch Columns n); [discriminate|].
  destruct same; cbn; intros H; inversion H; subst; repeat split; try discriminate.
  intros _. eexists. split; [reflexivity|apply StripPassthroughNodes_not_passthrough].
Qed.

Lemma resolveSubqueryAlias_splice_witness :
  let child := Project [Literal 1] (ResolvedTable "t" 1) in
  let wrapping : Node -> Scope -> string -> Analysis :=
    fun c _ _ => (QueryProcess (StartTransaction c), NewTree, None) in
  exists c, SubqueryAlias "s" ["x"] child = SubqueryAlias "s" ["x"] c
            /\ isPassthrough c = false.
Proof.
  cbv zeta.
  pose proof (resolveSubqueryAlias_splice
    (fun c _ _ => (QueryProcess (StartTransaction c), NewTree, None))
    (SubqueryAlias "s" ["x"] (Project [Literal 1] (ResolvedTable "t" 1)))
    (SubqueryAlias "s" ["x"] (Project [Literal 1] (ResolvedTable "t" 1)))
    NewTree eq_refl) as H.
  cbn in H. destruct H as (_ & _ & _ & _ & H). apply H. reflexivity.
Defined.

(** ** Flattening table aliases *)

(** The visitor of [flattenTableAliases] as a rewrite. *)
Definition flattenAlias (n : Node) : Node :=
  match n with
  | TableAlias nm (SubqueryAlias _ cols c) => SubqueryAlias nm cols c
  | TableAlias nm (TableAlias _ c) => TableAlias nm c
  | _ => n
  end.

Definition flattenAlias_id (n : Node) : TreeIdentity :=
  match n with
  | TableAlias _ (SubqueryAlias _ _ _) | TableAlias _ (TableAlias _ _) => NewTree
  | _ => SameTree
  end.

Definition flattenAliasVisit : NodeFunc := fun n =>
  match n with
  | TableAlias nm (SubqueryAlias _ cols c) => Ok (SubqueryAlias nm cols c, NewTree)
  | TableAlias nm (TableAlias _ c) => Ok (TableAlias nm c, NewTree)
  | _ => Ok (n, SameTree)
  end.

Lemma flattenAliasVisit_total n :
  flattenAliasVisit n = Ok (flattenAlias n, flattenAlias_id n).
Proof.
  destruct n as [| | | | | | |? c| | | | | |]; try reflexivity. destruct c; reflexivity.
Qed.

Lemma flattenAlias_honest n : flattenAlias_id n = SameTree -> flattenAlias n = n.
Proof.
  destruct n as [| | | | | | |? c| | | | | |]; try reflexivity.
  destruct c; try reflexivity; discriminate.
Qed.

(** A table alias wraps a subquery alias or another table alias directly,
    somewhere in the plan. *)
Definition isAliasOverAlias (n : Node) : bool :=
  match n with
  | TableAlias _ (SubqueryAlias _ _ _) | TableAlias _ (TableAlias _ _) => true
  | _ => false
  end.

Definition hasAliasOverAlias (n : Node) : bool := existsb isAliasOverAlias (allNodes n).

(** The name a table alias or subquery alias gives. *)
Definition aliasName (n : Node) : option string :=
  match n with
  | TableAlias nm _ | SubqueryAlias nm _ _ => Some nm
  | _ => None
  end.

(** The plan the rule computes. *)
Definition flattenedPlan (n : Node) : Node :=
  rewriteWithCtx None (fun c => flattenAlias (ctxNode c)) n None (-1).

Lemma flattenTableAliases_rewrite a n scope :
  exists id, flattenTableAliases a n scope = Ok (flattenedPlan n, id)
             /\ (id = SameTree -> flattenedPlan n = n).
Proof.
  unfold flattenTableAliases. fold flattenAliasVisit.
  rewrite <- (visit_Nodes_as_ctx flattenAliasVisit n None (-1)).
  apply (nodesWithCtxHelper_honest None (fun c => flattenAliasVisit (ctxNode c))
           (fun c => flattenAlias (ctxNode c)) (fun c => flattenAlias_id (ctxNode c))).
  - intros c. apply flattenAliasVisit_total.
  - intros c. apply flattenAlias_honest.
Qed.

(** The plain bottom-up rewrite of a plan by a function of the node. *)
Fixpoint rewriteUp (h : Node -> Node) (n : Node) : Node :=
  h match n with
    | ResolvedTable _ _ | UnresolvedTable _ => n
    | Project es c => Project es (rewriteUp h c)
    | Filter e c => Filter e (rewriteUp h c)
    | SubqueryAlias nm cols c => SubqueryAlias nm cols (rewriteUp h c)
    | TableAlias nm c => TableAlias nm (rewriteUp h c)
    | CachedResults c => CachedResults (rewriteUp h c)
    | StripRowNode c k => StripRowNode (rewriteUp h c) k
    | QueryProcess c => QueryProcess (rewriteUp h c)
    | StartTransaction c => StartTransaction (rewriteUp h c)
    | JoinNode jt sl e l r => JoinNode jt sl e (rewriteUp h l) (rewriteUp h r)
    | IndexedJoin jt sl e l r => IndexedJoin jt sl e (rewriteUp h l) (rewriteUp h r)
    | CreateTrigger nm t b => CreateTrigger nm (rewriteUp h t) (rewriteUp h b)
    | TriggerBeginEndBlock ss => TriggerBeginEndBlock (map (rewriteUp h) ss)
    end.

Lemma rewriteWithCtx_rewriteUp (h : Node -> Node) n :
  forall parent i,
    rewriteWithCtx None (fun c => h (ctxNode c)) n parent i = rewriteUp h n.
Proof.
  induction n as [| | | | | | | | | | | |ss IH|]; intros parent i;
    cbn [rewriteWithCtx rewriteUp selected ctxNode];
    rewrite ?IHn, ?IHn1, ?IHn2; try reflexivity.
  do 2 f_equal. apply list_all_Forall in IH.
  generalize 0. generalize (Some (TriggerBeginEndBlock ss)).
  induction IH as [|c cs Hc _ IHcs]; intros p j; cbn; [reflexivity|].
  rewrite Hc, IHcs. reflexivity.
Qed.

Lemma existsb_concat_map {A B} (p : B -> bool) (h : A -> list B) (l : list A) :
  existsb p (concat (map h l)) = existsb (fun x => existsb p (h x)) l.
Proof.
  induction l as [|x l IH]; cbn; [reflexivity|].
  rewrite existsb_app, IH. reflexivity.
Qed.

Lemma hasAliasOverAlias_unfold n :
  hasAliasOverAlias n
  = isAliasOverAlias n || existsb hasAliasOverAlias (Children n).
Proof.
  unfold hasAliasOverAlias at 1. rewrite allNodes_unfold. cbn [existsb].
  rewrite existsb_concat_map. reflexivity.
Qed.

Lemma flattenAlias_flat n :
  existsb hasAliasOverAlias (Children n) = false ->
  hasAliasOverAlias (flattenAlias n) = false.
Proof.
  intros Hc.
  destruct (isAliasOverAlias n) eqn:Hn.
  - destruct n as [| | | | | | |nm c| | | | | |]; try discriminate Hn.
    cbn in Hc. rewrite orb_false_r in Hc.
    rewrite hasAliasOverAlias_unfold in Hc. apply orb_false_elim in Hc as [Hc1 Hc2].
    destruct c; try discriminate Hn; cbn [flattenAlias];
      rewrite hasAliasOverAlias_unfold; cbn [Children] in *; rewrite Hc2.
    + reflexivity.
    + rewrite orb_false_r. cbn in Hc1. cbn. destruct c; try reflexivity; discriminate.
  - assert (flattenAlias n = n) as ->.
    { destruct n as [| | | | | | |nm c| | | | | |]; try reflexivity.
      destruct c; try reflexivity; discriminate. }
    rewrite hasAliasOverAlias_unfold, Hn, Hc. reflexivity.
Qed.

Lemma rewriteUp_flattenAlias_flat n :
  hasAliasOverAlias (rewriteUp flattenAlias n) = false.
Proof.
  induction n as [| | | | | | | | | | | |ss IH|]; cbn [rewriteUp];
    apply flattenAlias_flat; cbn [Children existsb];
    rewrite ?IHn, ?IHn1, ?IHn2; try reflexivity.
  apply existsb_map_false, list_all_Forall, IH.
Qed.

Lemma flattenAliasVisit_flat m :
  isAliasOverAlias m = false -> flattenAliasVisit m = Ok (m, SameTree).
Proof.
  destruct m as [| | | | | | |nm c| | | | | |]; try reflexivity.
  destruct c; try reflexivity; discriminate.
Qed.

Lemma flattenTableAliases_flat a n scope :
  hasAliasOverAlias n = false -> flattenTableAliases a n scope = Ok (n, SameTree).
Proof.
  intros H. unfold flattenTableAliases. fold flattenAliasVisit.
  apply visit_Nodes_fixed, Forall_forall. intros m Hm.
  apply flattenAliasVisit_flat.
  destruct (isAliasOverAlias m) eqn:Hmm; [|reflexivity].
  assert (hasAliasOverAlias n = true); [|congruence].
  apply existsb_exists. exists m. split; [apply list_elem_of_In, Hm|exact Hmm].
Qed.

(** [flattenTableAliases] never fails.  In the plan it returns no table
    alias wraps a subquery alias or another table alias directly, and an
    alias at the root keeps the name of the outermost alias; it reports
    [SameTree] only with its input; and handed its own result, or any plan
    without such a nesting, it returns it with [SameTree]. *)
Theorem flattenTableAliases_flattens (a : Analyzer) (n : Node) (scope : Scope) :
  exists t id,
    flattenTableAliases a n scope = Ok (t, id)
    /\ hasAliasOverAlias t = false
    /\ (forall nm c, n = TableAlias nm c -> aliasName t = Some nm)
    /\ (id = SameTree -> t = n)
    /\ flattenTableAliases a t scope = Ok (t, SameTree)
    /\ (hasAliasOverAlias n = false -> t = n /\ id = SameTree).
Proof.
  destruct (flattenTableAliases_rewrite a n scope) as (id & Hr & Hid).
  unfold flattenedPlan in *. rewrite rewriteWithCtx_rewriteUp in *.
  exists (rewriteUp flattenAlias n), id.
  split; [exact Hr|].
  split; [apply rewriteUp_flattenAlias_flat|].
  split.
  { intros nm c ->. cbn [rewriteUp].
    destruct (rewriteUp flattenAlias c); reflexivity. }
  split; [exact Hid|].
  split; [apply flattenTableAliases_flat, rewriteUp_flattenAlias_flat|].
  intros Hflat. rewrite (flattenTableAliases_flat a n scope Hflat) in Hr.
  injection Hr as H1 H2. split; congruence.
Qed.

Lemma flattenTableAliases_flattens_witness :
  let q := Project [Literal 1] (ResolvedTable "t" 1) in
  flattenTableAliases idleAnalyzer
    (TableAlias "a" (TableAlias "b" (SubqueryAlias "s" ["x"] q))) None
  = Ok (SubqueryAlias "a" ["x"] q, NewTree)
  /\ flattenTableAliases idleAnalyzer (SubqueryAlias "a" ["x"] q) None
     = Ok (SubqueryAlias "a" ["x"] q, SameTree).
Proof.
  cbv zeta. split; [reflexivity|].
  destruct (flattenTableAliases_flattens idleAnalyzer
              (SubqueryAlias "a" ["x"] (Project [Literal 1] (ResolvedTable "t" 1))) None)
    as (t & id & Hr & _ & _ & _ & _ & Hflat).
  destruct (Hflat eq_refl) as [-> ->]. exact Hr.
Defined.

(** ** Determinism of a plan *)

(** Modelled from the spec: [visit.InspectExpressions] walks the plan and,
    at every node that carries expressions, walks each of them with
    [sql.Inspect]. *)
Definition visit_InspectExpressions {S} (n : Node)
    (f : option Expression -> S -> bool * S) (s : S) : S :=
  visit_Inspect
    (fun node s =>
       match node with
       | Some m =>
           (true, if isExpressioner m
                  then fold_left (fun s e => sql_Inspect f e s) (Expressions m) s
                  else s)
       | None => (true, s)
       end) n s.

(** The closure of [isDeterminstic]; its state is the local [res], and
    [rec] is [isDeterminstic] itself, called on the plan of a subquery. *)
Definition isDeterminsticVisit (rec : Node -> bool)
    (e : option Expression) (res : bool) : bool * bool :=
  match e with
  | Some (Subquery q _) => (false, if rec q then res else false)
  | Some e' => if IsNonDeterministic e' then (false, false) else (true, res)
  | None => (true, res)
  end.

(** [isDeterminstic] calls itself from inside the closure it hands to the
    walk; the recursion is written out along the walk, on the plan and on
    its expressions, and [isDeterminstic_eq] below gives the function back
    in the form of the source. *)
Fixpoint isDeterminsticWalk (n : Node) (res : bool) : bool :=
  match n with
  | ResolvedTable _ _ | UnresolvedTable _ => res
  | Project es c =>
      isDeterminsticWalk c (fold_left (fun r e => isDeterminsticExprWalk e r) es res)
  | Filter e c => isDeterminsticWalk c (isDeterminsticExprWalk e res)
  | JoinNode _ _ e l r | IndexedJoin _ _ e l r =>
      isDeterminsticWalk r (isDeterminsticWalk l (isDeterminsticExprWalk e res))
  | SubqueryAlias _ _ c | TableAlias _ c | CachedResults c | StripRowNode c _
  | QueryProcess c | StartTransaction c => isDeterminsticWalk c res
  | CreateTrigger _ l r => isDeterminsticWalk r (isDeterminsticWalk l res)
  | TriggerBeginEndBlock ss => fold_left (fun r c => isDeterminsticWalk c r) ss res
  end
with isDeterminsticExprWalk (e : Expression) (res : bool) : bool :=
  match e with
  | Literal _ | GetField _ _ | UnresolvedColumn _ => res
  | Subquery q _ => if isDeterminsticWalk q true then res else false
  | Equals l r => isDeterminsticExprWalk r (isDeterminsticExprWalk l res)
  | UnresolvedFunction _ args _ =>
      fold_left (fun r c => isDeterminsticExprWalk c r) args res
  | FunctionCall _ _ nd args _ =>
      if nd then false
      else fold_left (fun r c => isDeterminsticExprWalk c r) args res
  end.

Definition isDeterminstic (n : Node) : bool := isDeterminsticWalk n true.

(** Every expression of a plan: the expressions of its nodes, their
    sub-expressions, and the expressions of the plans of their subqueries. *)
Fixpoint planExprsDeep (n : Node) : list Expression :=
  match n with
  | ResolvedTable _ _ | UnresolvedTable _ => []
  | Project es c => concat (map exprsDeep es) ++ planExprsDeep c
  | Filter e c => exprsDeep e ++ planExprsDeep c
  | JoinNode _ _ e l r | IndexedJoin _ _ e l r =>
      exprsDeep e ++ planExprsDeep l ++ planExprsDeep r
  | SubqueryAlias _ _ c | TableAlias _ c | CachedResults c | StripRowNode c _
  | QueryProcess c | StartTransaction c => planExprsDeep c
  | CreateTrigger _ l r => planExprsDeep l ++ planExprsDeep r
  | TriggerBeginEndBlock ss => concat (map planExprsDeep ss)
  end
with exprsDeep (e : Expression) : list Expression :=
  e :: match e with
       | Literal _ | GetField _ _ | UnresolvedColumn _ => []
       | Subquery q _ => planExprsDeep q
       | Equals l r => exprsDeep l ++ exprsDeep r
       | UnresolvedFunction _ args _ | FunctionCall _ _ _ args _ =>
           concat (map exprsDeep args)
       end.

Scheme Node_deep_ind := Induction for Node Sort Prop
  with Expression_deep_ind := Induction for Expression Sort Prop.
Combined Scheme Node_Expression_deep_ind from Node_deep_ind, Expression_deep_ind.

Definition deterministicExpr (e : Expression) : bool := negb (IsNonDeterministic e).

Lemma fold_left_walk {A} (walk : A -> bool -> bool) (deep : A -> list Expression)
    (l : list A) :
  Forall (fun x => forall res, walk x res = res && forallb deterministicExpr (deep x)) l ->
  forall res, fold_left (fun r x => walk x r) l res
              = res && forallb deterministicExpr (concat (map deep l)).
Proof.
  induction 1 as [|x l Hx _ IH]; intros res; cbn.
  - rewrite andb_true_r. reflexivity.
  - rewrite IH, Hx, forallb_app, andb_assoc. reflexivity.
Qed.

Lemma isDeterminsticWalk_forallb :
  (forall n res,
      isDeterminsticWalk n res = res && forallb deterministicExpr (planExprsDeep n))
  /\ (forall e res,
      isDeterminsticExprWalk e res = res && forallb deterministicExpr (exprsDeep e)).
Proof.
  apply Node_Expression_deep_ind; intros;
    cbn [isDeterminsticWalk isDeterminsticExprWalk planExprsDeep exprsDeep forallb
         deterministicExpr IsNonDeterministic negb andb];
    rewrite ?forallb_app;
    repeat match goal with
           | H : list_all _ _ _ |- _ => apply list_all_Forall in H
           end;
    try (rewrite ?andb_true_r; reflexivity).
  - rewrite H0, (fold_left_walk _ exprsDeep _ H), andb_assoc. reflexivity.
  - rewrite H0, H, andb_assoc. reflexivity.
  - rewrite H1, H0, H, !andb_assoc. reflexivity.
  - rewrite H1, H0, H, !andb_assoc. reflexivity.
  - apply H.
  - apply H.
  - apply H.
  - apply H.
  - apply H.
  - apply H.
  - apply (fold_left_walk _ planExprsDeep _ H).
  - rewrite H0, H, andb_assoc. reflexivity.
  - rewrite H0, H, andb_assoc. reflexivity.
  - apply (fold_left_walk _ exprsDeep _ H).
  - destruct nondet; cbn.
    + rewrite andb_false_r. reflexivity.
    + apply (fold_left_walk _ exprsDeep _ H).
  - rewrite H. cbn [andb]. clear H.
    destruct (forallb _ _); destruct res; reflexivity.
Qed.

Lemma isDeterminsticExprWalk_Inspect e :
  forall res,
    isDeterminsticExprWalk e res
    = sql_Inspect (isDeterminsticVisit isDeterminstic) e res.
Proof.
  assert (Hfold : forall es, Forall (fun e => forall res,
              isDeterminsticExprWalk e res
              = sql_Inspect (isDeterminsticVisit isDeterminstic) e res) es ->
            forall res,
              fold_left (fun r c => isDeterminsticExprWalk c r) es res
              = fold_left (fun s c => sql_Inspect (isDeterminsticVisit isDeterminstic) c s)
                  es res).
  { induction 1 as [|x es Hx _ IH]; intros res; cbn; [reflexivity|].
    rewrite Hx. apply IH. }
  induction e as [v|i nm|nm|l IHl r IHr|nm args IH w|nm k nd args IH w|q c];
    intros res; cbn [isDeterminsticExprWalk sql_Inspect isDeterminsticVisit
                     IsNonDeterministic snd]; try reflexivity.
  - rewrite IHl, IHr. reflexivity.
  - apply Hfold, list_all_Forall, IH.
  - destruct nd; [reflexivity|]. cbn [snd]. apply Hfold, list_all_Forall, IH.
Qed.

Lemma isDeterminsticWalk_InspectExpressions n :
  forall res,
    isDeterminsticWalk n res
    = visit_InspectExpressions n (isDeterminsticVisit isDeterminstic) res.
Proof.
  unfold visit_InspectExpressions.
  induction n as [| | | | | | | | | | | |ss IH|]; intros res;
    cbn [isDeterminsticWalk visit_Inspect isExpressioner Expressions fold_left snd];
    rewrite <- ?isDeterminsticExprWalk_Inspect, <- ?IHn, <- ?IHn1, <- ?IHn2;
    try reflexivity.
  - f_equal. generalize res. induction Projections as [|e es IHes]; intros r; cbn;
      [reflexivity|]. rewrite isDeterminsticExprWalk_Inspect. apply IHes.
  - apply list_all_Forall in IH. revert res.
    induction IH as [|c cs Hc _ IHcs]; intros res; cbn; [reflexivity|].
    rewrite Hc. apply IHcs.
Qed.

(** [isDeterminstic] is the function of the source, a walk over the
    expressions of the plan whose closure calls [isDeterminstic] on the plan
    of every subquery; and a plan is deterministic exactly when no
    expression of the plan, of its subqueries or of their subqueries reports
    itself non-deterministic. *)
Theorem isDeterminstic_spec (n : Node) :
  isDeterminstic n
  = visit_InspectExpressions n (isDeterminsticVisit isDeterminstic) true
  /\ (isDeterminstic n = true
      <-> forall e, e ∈ planExprsDeep n -> IsNonDeterministic e = false).
Proof.
  split; [apply isDeterminsticWalk_InspectExpressions|].
  unfold isDeterminstic. rewrite (proj1 isDeterminsticWalk_forallb).
  cbn [andb]. rewrite forallb_forall. split.
  - intros H e He. apply list_elem_of_In, H in He.
    apply negb_true_iff in He. exact He.
  - intros H e He. apply negb_true_iff, H, list_elem_of_In, He.
Qed.

(** SELECT (SELECT rand() FROM t) FROM u: the non-deterministic call sits in
    the plan of a subquery, beneath a subquery alias. *)
Example isDeterminstic_nested :
  let rand := FunctionCall "rand" PlainFunction true [] None in
  let inner := SubqueryAlias "s" [] (Project [rand] (ResolvedTable "t" 1)) in
  let plan := Project [Subquery inner false] (ResolvedTable "u" 1) in
  isDeterminstic plan = false /\ nodeIsCacheable inner 0 = true.
Proof. split; reflexivity. Qed.

(** ** Cacheability and the width of the scope *)

(** Raising the lowest allowed index can only lose cacheability: what is
    cacheable inside a scope of [j] columns is cacheable inside any narrower
    scope. *)
Theorem cacheable_antitone (e : Expression) (q : Node) (i j : Z) :
  i <= j ->
  (exprIsCacheable e j = true -> exprIsCacheable e i = true)
  /\ (nodeIsCacheable q j = true -> nodeIsCacheable q i = true).
Proof.
  intros Hij.
  assert (Hrefs : forall x, refsAtOrAbove j x -> refsAtOrAbove i x).
  { intros x [Hidx Hnd]. split; [|exact Hnd].
    intros idx nm Hin. specialize (Hidx idx nm Hin). lia. }
  split.
  - rewrite !exprIsCacheable_iff. apply Hrefs.
  - rewrite !nodeIsCacheable_iff. intros H n e' Hn He'. apply Hrefs, (H n e' Hn He').
Qed.

Lemma cacheable_antitone_witness :
  let q := Project [GetField 3 "x"] (ResolvedTable "t" 1) in
  nodeIsCacheable q 2 = true.
Proof.
  cbv zeta.
  apply (proj2 (cacheable_antitone (Literal 0)
                  (Project [GetField 3 "x"] (ResolvedTable "t" 1)) 2 3 ltac:(lia))).
  reflexivity.
Defined.

(** ** Running the join rules a second time *)

Lemma setJoinScopeLenVisit_annotated k t m :
  joinsAnnotated k t = true -> m ∈ allNodes t ->
  setJoinScopeLenVisit k m = Ok (m, SameTree).
Proof.
  revert m.
  induction t as [| | | |jt sl e l IHl r IHr| | | | | | | |ss IH|];
    cbn [joinsAnnotated allNodes]; intros m Ht Hm;
    repeat match goal with
           | H : _ && _ = true |- _ => apply andb_prop in H as [H ?]
           end;
    apply elem_of_cons in Hm as [->|Hm];
    try reflexivity;
    try (apply elem_of_app in Hm as [Hm|Hm]); eauto;
    try (inversion Hm; fail).
  - cbn. apply Z.eqb_eq in Ht. subst sl.
    destruct l; try discriminate. reflexivity.
  - apply list_all_Forall in IH. rewrite Forall_forall in IH.
    apply elem_of_concat in Hm as (l' & Hml & Hl).
    apply list_elem_of_fmap in Hl as (c & -> & Hc).
    apply (IH c Hc m); [|exact Hml].
    rewrite forallb_forall in Ht. apply Ht, list_elem_of_In, Hc.
Qed.

(** [setJoinScopeLen] is idempotent: on a plan that was not annotated for
    another width, the plan it returns is returned as it is, with
    [SameTree], by a second run in the same scope. *)
Theorem setJoinScopeLen_idempotent (a : Analyzer) (n : Node) (scope : Scope) :
  adaptedJoinsCarry (scopeSchemaLen scope) n = true ->
  exists t id,
    setJoinScopeLen a n scope = Ok (t, id)
    /\ setJoinScopeLen a t scope = Ok (t, SameTree).
Proof.
  intros Hn. unfold setJoinScopeLen.
  destruct (scopeSchemaLen scope =? 0) eqn:Hk; [eauto|].
  destruct (visit_Nodes_setJoinScopeLen _ _ Hn) as (id & Hv & _).
  exists (annotateJoins (scopeSchemaLen scope) n), id. split; [exact Hv|].
  apply visit_Nodes_fixed, Forall_forall. intros m Hm.
  apply (setJoinScopeLenVisit_annotated _ (annotateJoins (scopeSchemaLen scope) n));
    [apply annotateJoins_annotated|exact Hm].
Qed.

Lemma setJoinScopeLen_idempotent_witness :
  let j := JoinNode JoinTypeInner 0 (Literal 1)
             (ResolvedTable "a" 1) (ResolvedTable "b" 1) in
  let scope := Some [Filter (Literal 1) (ResolvedTable "o" 2)] in
  exists t id,
    setJoinScopeLen idleAnalyzer j scope = Ok (t, id)
    /\ setJoinScopeLen idleAnalyzer t scope = Ok (t, SameTree).
Proof.
  cbv zeta. apply setJoinScopeLen_idempotent. reflexivity.
Defined.

Lemma cacheAliasUnderJoin_leaves c :
  (isJoinNode (Parent c) || isIndexedJoin (Parent c)) && isSubqueryAlias (ctxNode c) = false ->
  cacheAliasUnderJoin c = Ok (ctxNode c, SameTree).
Proof.
  intros H. rewrite cacheAliasUnderJoin_total.
  unfold cacheAliasUnderJoin_node, cacheAliasUnderJoin_id. rewrite H. reflexivity.
Qed.

Lemma collectChildren_fixed_idx (cs : list Node)
    (h : Node -> Z -> Result (Node * TreeIdentity)) :
  Forall (fun c => forall i, h c i = Ok (c, SameTree)) cs ->
  forall i, collectChildren cs (mapWithIndex h cs i) = Ok (cs, SameTree).
Proof.
  induction 1 as [|c cs Hc _ IH]; intros i; cbn; [reflexivity|].
  rewrite Hc, IH. reflexivity.
Qed.

(** The first pass leaves alone a plan in which no join has a bare subquery
    alias as an operand. *)
Lemma cacheAliasUnderJoin_fixed n :
  forall parent i,
    bareAliasUnderJoin false n = false ->
    (isJoinNode parent || isIndexedJoin parent) && isSubqueryAlias n = false ->
    nodesWithCtxHelper None cacheAliasUnderJoin n parent i = Ok (n, SameTree).
Proof.
  induction n as [| | | |jt sl e l IHl r IHr|jt sl e l IHl r IHr| | | | | | |ss IH|];
    intros parent i Hb Hp; cbn [bareAliasUnderJoin andb negb] in Hb;
    rewrite ?andb_true_r in Hb;
    repeat match goal with
           | H : _ || _ = false |- _ => apply orb_false_elim in H as [H ?]
           end;
    cbn [nodesWithCtxHelper selected]; unfold transformNodeWithCtx;
    cbn [Children ctxNode Parent ChildNum];
    try (apply cacheAliasUnderJoin_leaves; exact Hp);
    try (rewrite IHn by (assumption || reflexivity));
    try (rewrite IHn1, IHn2 by (assumption || reflexivity));
    try (rewrite IHl, IHr by (cbn; assumption));
    try (cbn [collectChildren mbind Result_bind bindR isSame andT];
         rewrite cacheAliasUnderJoin_leaves by exact Hp; reflexivity).
  apply list_all_Forall in IH.
  assert (Hcs : Forall (fun c => forall i,
                  nodesWithCtxHelper None cacheAliasUnderJoin c
                    (Some (TriggerBeginEndBlock ss)) i = Ok (c, SameTree)) ss).
  { rewrite Forall_forall in IH. apply Forall_forall. intros c Hc j.
    apply IH; [exact Hc| |reflexivity].
    destruct (bareAliasUnderJoin false c) eqn:Hc'; [|reflexivity].
    rewrite <- Hb. symmetry. apply existsb_exists. exists c. split; [|exact Hc'].
    apply list_elem_of_In, Hc. }
  destruct ss as [|s0 ss']; [apply cacheAliasUnderJoin_leaves; exact Hp|].
  rewrite (collectChildren_fixed_idx _ _ Hcs).
  cbn [mbind Result_bind bindR isSame andT].
  rewrite cacheAliasUnderJoin_leaves by exact Hp. reflexivity.
Qed.

(** No [CachedResults] lies on the path of the primary operands, and off
    that path no join has a bare subquery alias as an operand: the shape of a
    plan the rule has been through outside every scope. *)
Fixpoint primaryClean (n : Node) : bool :=
  match n with
  | ResolvedTable _ _ | UnresolvedTable _ => true
  | CachedResults _ => false
  | Project _ c | Filter _ c | SubqueryAlias _ _ c | TableAlias _ c
  | StripRowNode c _ | QueryProcess c | StartTransaction c => primaryClean c
  | JoinNode jt _ _ l r =>
      if primaryIsFirst jt
      then primaryClean l && negb (isSubqueryAlias r) && negb (bareAliasUnderJoin false r)
      else primaryClean r && negb (isSubqueryAlias l) && negb (bareAliasUnderJoin false l)
  | IndexedJoin _ _ _ l r =>
      primaryClean l && negb (isSubqueryAlias r) && negb (bareAliasUnderJoin false r)
  | CreateTrigger _ l r => primaryClean l && primaryClean r
  | TriggerBeginEndBlock ss => forallb primaryClean ss
  end.

Lemma wrapJoinAliases_fixed n :
  forall b,
    bareAliasUnderJoin false n = false -> b && isSubqueryAlias n = false ->
    wrapJoinAliases b n = n.
Proof.
  induction n as [| | | |jt sl e l IHl r IHr|jt sl e l IHl r IHr| | | | | | |ss IH|];
    intros b Hb Hp; cbn [bareAliasUnderJoin andb negb] in Hb;
    rewrite ?andb_true_r in Hb;
    repeat match goal with
           | H : _ || _ = false |- _ => apply orb_false_elim in H as [H ?]
           end;
    cbn [wrapJoinAliases]; rewrite Hp;
    rewrite ?IHn, ?IHn1, ?IHn2, ?IHl, ?IHr
      by (assumption || reflexivity || (rewrite andb_true_l; assumption));
    try reflexivity.
  f_equal. apply list_all_Forall in IH. rewrite Forall_forall in IH.
  rewrite <- (map_id ss) at 2. apply map_ext_in. intros c Hc.
  apply IH; [apply list_elem_of_In, Hc| |reflexivity].
  destruct (bareAliasUnderJoin false c) eqn:Hc'; [|reflexivity].
  rewrite <- Hb. symmetry. apply existsb_exists. exists c. split; assumption.
Qed.

Lemma unwrapPrimary_primaryClean n :
  bareAliasUnderJoin false n = false -> primaryClean (unwrapPrimary n) = true.
Proof.
  induction n as [| | | |jt sl e l IHl r IHr|jt sl e l IHl r IHr| | | | | | |ss IH|];
    intros Hb; cbn [bareAliasUnderJoin andb negb] in Hb;
    rewrite ?andb_true_r in Hb;
    repeat match goal with
           | H : _ || _ = false |- _ => apply orb_false_elim in H as [H ?]
           end;
    try (destruct jt); cbn [unwrapPrimary primaryClean primaryIsFirst];
    rewrite ?IHn, ?IHn1, ?IHn2, ?IHl, ?IHr by assumption;
    repeat match goal with
           | H : ?x = false |- context [negb ?x] => rewrite H
           end;
    try reflexivity.
  apply forallb_forall. intros c Hc. apply in_map_iff in Hc as (c0 & <- & Hc0).
  apply list_all_Forall in IH. rewrite Forall_forall in IH.
  apply IH; [apply list_elem_of_In, Hc0|].
  destruct (bareAliasUnderJoin false c0) eqn:Hc'; [|reflexivity].
  rewrite <- Hb. symmetry. apply existsb_exists. exists c0. split; assumption.
Qed.

Lemma unwrapPrimary_wrapJoinAliases_fixed n :
  primaryClean n = true ->
  forall b, unwrapPrimary (wrapJoinAliases b n) = n.
Proof.
  induction n as [| | | |jt sl e l IHl r IHr|jt sl e l IHl r IHr| | | | | | |ss IH|];
    cbn [primaryClean]; intros Hc b; try discriminate Hc;
    try (destruct (primaryIsFirst jt) eqn:Hjt);
    repeat match goal with
           | H : _ && _ = true |- _ => apply andb_prop in H as [H ?]
           | H : negb _ = true |- _ => apply negb_true_iff in H
           end;
    cbn [wrapJoinAliases isSubqueryAlias]; rewrite ?andb_false_r;
    try (destruct b; cbn [andb unwrapPrimary];
         rewrite ?IHn, ?IHn1, ?IHn2 by assumption; reflexivity).
  - destruct jt; try discriminate Hjt; cbn [unwrapPrimary];
      rewrite IHl by assumption;
      rewrite (wrapJoinAliases_fixed r true) by (cbn; assumption); reflexivity.
  - destruct jt; try discriminate Hjt; cbn [unwrapPrimary];
      rewrite IHr by assumption;
      rewrite (wrapJoinAliases_fixed l true) by (cbn; assumption); reflexivity.
  - cbn [unwrapPrimary]. rewrite IHl by assumption.
    rewrite (wrapJoinAliases_fixed r true) by (cbn; assumption). reflexivity.
  - cbn [unwrapPrimary]. rewrite IHl by assumption.
    rewrite (wrapJoinAliases_fixed r true) by (cbn; assumption). reflexivity.
  - cbn [unwrapPrimary]. rewrite map_map. f_equal.
    apply list_all_Forall in IH. rewrite Forall_forall in IH.
    rewrite forallb_forall in Hc.
    rewrite <- (map_id ss) at 2. apply map_ext_in. intros c Hin.
    apply IH; [apply list_elem_of_In, Hin|apply Hc, Hin].
Qed.

(** [cacheSubqueryAlisesInJoins] is idempotent on plans: run on its own
    result, in the same kind of scope, it returns that plan again; inside a
    subquery scope it also reports [SameTree] then. *)
Theorem cacheSubqueryAlisesInJoins_idempotent (a : Analyzer) (n : Node) (scope : Scope) :
  exists t id id',
    cacheSubqueryAlisesInJoins a n scope = Ok (t, id)
    /\ cacheSubqueryAlisesInJoins a t scope = Ok (t, id')
    /\ bareAliasUnderJoin true t = false
    /\ (forall sc, scope = Some sc -> id' = SameTree).
Proof.
  destruct (cacheSubqueryAlisesInJoins_rewrites a n) as [Hs Hn].
  destruct scope as [sc|].
  - destruct (Hs sc) as (id & Hid).
    exists (wrapJoinAliases false n), id, SameTree.
    split; [exact Hid|]. split; [|split; [apply wrapJoinAliases_wraps|reflexivity]].
    unfold cacheSubqueryAlisesInJoins, visit_NodesWithCtx.
    rewrite cacheAliasUnderJoin_fixed by (apply wrapJoinAliases_wraps || reflexivity).
    reflexivity.
  - destruct Hn as (id & Hid).
    set (t := unwrapPrimary (wrapJoinAliases false n)).
    destruct (cacheSubqueryAlisesInJoins_rewrites a t) as [_ (id' & Hid')].
    exists t, id, id'. split; [exact Hid|]. split; [|split; [|discriminate]].
    + rewrite Hid'. f_equal. f_equal.
      apply unwrapPrimary_wrapJoinAliases_fixed, unwrapPrimary_primaryClean,
        wrapJoinAliases_wraps.
    + apply unwrapPrimary_keeps_secondary, wrapJoinAliases_wraps.
Qed.

(** * The CREATE TRIGGER node *)

Module DdlTrigger.

(** The node of the plan tree of the analyzer, which keeps the name and the
    two children of the statement. *)
Definition planNodeOf (nm : string) (table body : Node) : Node :=
  CreateTrigger nm table body.

Record TriggerOrderT := MkTriggerOrder {
  PrecedesOrFollows : string;
  OtherTriggerName : string
}.

(** The struct [CreateTrigger] with every field; [db] is the field of the
    embedded [ddlNode], and [TriggerOrder] is [None] for a nil pointer. *)
Record CreateTrigger := MkCreateTrigger {
  db : Database;
  TriggerName : string;
  TriggerTime : string;
  TriggerEvent : string;
  TriggerOrder : option TriggerOrderT;
  Table : Node;
  Body : Node;
  CreateTriggerString : string;
  BodyString : string;
  CreatedAt : Z
}.

Definition NewCreateTrigger (triggerDb : Database)
    (triggerName triggerTime triggerEvent : string)
    (triggerOrder : option TriggerOrderT) (table body : Node)
    (createTriggerString bodyString : string) (createdAt : Z) : CreateTrigger :=
  {| db := triggerDb;
     TriggerName := triggerName;
     TriggerTime := triggerTime;
     TriggerEvent := triggerEvent;
     TriggerOrder := triggerOrder;
     Table := table;
     Body := body;
     BodyString := bodyString;
     CreateTriggerString := createTriggerString;
     CreatedAt := createdAt |}.

Definition CreateTrigger_Database (c : CreateTrigger) : Database := db c.

(** [ct := *c; ct.db = database]: a copy with the database replaced. *)
Definition CreateTrigger_WithDatabase (c : CreateTrigger) (database : Database)
  : Result CreateTrigger :=
  Ok {| db := database;
        TriggerName := TriggerName c;
        TriggerTime := TriggerTime c;
        TriggerEvent := TriggerEvent c;
        TriggerOrder := TriggerOrder c;
        Table := Table c;
        Body := Body c;
        CreateTriggerString := CreateTriggerString c;
        BodyString := BodyString c;
        CreatedAt := CreatedAt c |}.

Definition CreateTrigger_Children (c : CreateTrigger) : list Node :=
  [Table c; Body c].

(** [nc := *c; nc.Table = children[0]; nc.Body = children[1]] when there are
    two children. *)
Definition CreateTrigger_WithChildren (c : CreateTrigger) (children : list Node)
  : Result CreateTrigger :=
  if negb (length children =? 2)%nat then Err ErrInvalidChildrenNumber
  else
    match children with
    | c0 :: c1 :: _ =>
        Ok {| db := db c;
              TriggerName := TriggerName c;
              TriggerTime := TriggerTime c;
              TriggerEvent := TriggerEvent c;
              TriggerOrder := TriggerOrder c;
              Table := c0;
              Body := c1;
              CreateTriggerString := CreateTriggerString c;
              BodyString := BodyString c;
              CreatedAt := CreatedAt c |}
    | _ => Err ErrInvalidChildrenNumber
    end.

(** [RowIter]: the iterator over the definition [{Name: c.TriggerName,
    CreateStatement: c.CreateTriggerString, CreatedAt: c.CreatedAt}]; its
    database is [c.db]. *)
Definition RowIter (c : CreateTrigger) : createTriggerIter * Database :=
  (CreateTrigger_RowIter (TriggerName c) (CreateTriggerString c) (CreatedAt c), db c).

Definition planNode (c : CreateTrigger) : Node :=
  planNodeOf (TriggerName c) (Table c) (Body c).

(** Everything but the two children. *)
Definition sameStatement (c c' : CreateTrigger) : Prop :=
  db c' = db c /\ TriggerName c' = TriggerName c /\ TriggerTime c' = TriggerTime c
  /\ TriggerEvent c' = TriggerEvent c /\ TriggerOrder c' = TriggerOrder c
  /\ CreateTriggerString c' = CreateTriggerString c
  /\ BodyString c' = BodyString c /\ CreatedAt c' = CreatedAt c.

(** [CreateTrigger.WithChildren] succeeds on exactly two children; the copy
    has them as table and body and is otherwise the statement it was, so the
    iterator it builds is the same and the old children bring the old node
    back; any other number of children is [ErrInvalidChildrenNumber].  The
    node of the plan tree follows it. *)
Theorem CreateTrigger_WithChildren_spec (c : CreateTrigger) (children : list Node) :
  match CreateTrigger_WithChildren c children with
  | Ok c' =>
      length children = 2%nat
      /\ CreateTrigger_Children c' = children
      /\ sameStatement c c'
      /\ RowIter c' = RowIter c
      /\ CreateTrigger_WithChildren c' (CreateTrigger_Children c) = Ok c
      /\ WithChildren (planNode c) children = Ok (planNode c')
  | Err e =>
      length children <> 2%nat
      /\ e = ErrInvalidChildrenNumber
      /\ WithChildren (planNode c) children = Err ErrInvalidChildrenNumber
  end
  /\ Children (planNode c) = CreateTrigger_Children c.
Proof.
  split; [|reflexivity].
  destruct children as [|c0 [|c1 [|c2 cs]]]; cbn; try (repeat split; (lia || reflexivity)).
  destruct c. unfold sameStatement. cbn. repeat split; reflexivity.
Qed.

(** [WithDatabase] never fails; the copy answers [Database] with the new
    database, keeps the children and the stored definition, commutes with
    [WithChildren], and the old database brings the old node back. *)
Theorem CreateTrigger_WithDatabase_spec (c : CreateTrigger) (database : Database)
    (children : list Node) :
  exists c',
    CreateTrigger_WithDatabase c database = Ok c'
    /\ CreateTrigger_Database c' = database
    /\ CreateTrigger_Children c' = CreateTrigger_Children c
    /\ planNode c' = planNode c
    /\ RowIter c' = (fst (RowIter c), database)
    /\ CreateTrigger_WithDatabase c' (CreateTrigger_Database c) = Ok c
    /\ (c'' ← CreateTrigger_WithChildren c children;
        CreateTrigger_WithDatabase c'' database)
       = CreateTrigger_WithChildren c' children.
Proof.
  eexists. split; [reflexivity|]. destruct c.
  repeat (split; [reflexivity|]).
  destruct children as [|c0 [|c1 [|c2 cs]]]; reflexivity.
Qed.

(** Executing the node [NewCreateTrigger] builds, on a database that takes
    the trigger: the first [Next] stores the definition made of the trigger's
    name, the text of the whole statement (not the text of the body) and the
    creation time, and returns one [OkResult]; every later [Next] is
    [io.EOF]. *)
Theorem NewCreateTrigger_RowIter_stores
    (dn : string) (ts calls : list TriggerDefinition)
    (refuses : list TriggerDefinition -> TriggerDefinition -> option Error)
    (triggerName triggerTime triggerEvent : string)
    (triggerOrder : option TriggerOrderT) (table body : Node)
    (createTriggerString bodyString : string) (createdAt : Z) (n : nat) :
  let c := NewCreateTrigger (TriggerDatabase dn ts calls refuses)
             triggerName triggerTime triggerEvent triggerOrder table body
             createTriggerString bodyString createdAt in
  let def := MkTriggerDefinition triggerName createTriggerString createdAt in
  refuses ts def = None ->
  createTriggerIter_run (S n) (fst (RowIter c)) (snd (RowIter c))
  = (Ok [OkResult 0] :: replicate n (Err EOF),
     MkCreateTriggerIter true def,
     TriggerDatabase dn (def :: ts) (def :: calls) refuses).
Proof.
  intros c def Hr. cbn [createTriggerIter_run].
  cbn. unfold Database_CreateTrigger. fold def. rewrite Hr.
  rewrite createTriggerIter_run_done. reflexivity.
Qed.

Lemma NewCreateTrigger_RowIter_stores_witness :
  let c := NewCreateTrigger (TriggerDatabase "db" [] [] (fun _ _ => None))
             "trg" "before" "insert" None (ResolvedTable "t" 1)
             (Project [Literal 1] (ResolvedTable "t" 1))
             "create trigger trg ..." "select 1" 5 in
  let def := MkTriggerDefinition "trg" "create trigger trg ..." 5 in
  createTriggerIter_run 3 (fst (RowIter c)) (snd (RowIter c))
  = ([Ok [OkResult 0]; Err EOF; Err EOF],
     MkCreateTriggerIter true def,
     TriggerDatabase "db" [def] [def] (fun _ _ => None)).
Proof.
  cbv zeta.
  apply (NewCreateTrigger_RowIter_stores "db" [] [] (fun _ _ => None)
           "trg" "before" "insert" None (ResolvedTable "t" 1)
           (Project [Literal 1] (ResolvedTable "t" 1))
           "create trigger trg ..." "select 1" 5 2).
  reflexivity.
Defined.

End DdlTrigger.

(** * Function resolution a second time *)

(** A plan [resolveFunctions] has been through is a fixed point of the rule
    whatever the catalog holds then: with no unresolved call left the catalog
    is never asked.  A plan without unresolved call is returned as it is. *)
Theorem resolveFunctions_fixed (a : Analyzer) (n : Node) (scope : Scope) :
  planCallsKnown a n = true ->
  exists t,
    resolveFunctions a n scope = Ok t
    /\ (forall a' scope', resolveFunctions a' t scope' = Ok t)
    /\ (planHasUnresolvedFunction n = false -> t = n).
Proof.
  intros Hk. exists (instantiatePlan a n).
  split; [apply resolveFunctions_known, Hk|]. split.
  - intros a' scope'.
    pose proof (instantiatePlan_resolves a n Hk) as Hr.
    rewrite (resolveFunctions_known a' _ scope' (planCallsKnown_resolved a' _ Hr)).
    rewrite (instantiatePlan_resolved a' _ Hr). reflexivity.
  - apply instantiatePlan_resolved.
Qed.

Lemma resolveFunctions_fixed_witness :
  let w := Some (MkWindow ["a"] ["b"] "rows") in
  exists t,
    resolveFunctions sampleAnalyzer
      (Project [UnresolvedFunction "count" [GetField 0 "x"] w] (ResolvedTable "t" 1))
      None = Ok t
    /\ (forall a' scope', resolveFunctions a' t scope' = Ok t)
    /\ (planHasUnresolvedFunction
          (Project [UnresolvedFunction "count" [GetField 0 "x"] w]
             (ResolvedTable "t" 1)) = false ->
        t = Project [UnresolvedFunction "count" [GetField 0 "x"] w]
              (ResolvedTable "t" 1)).
Proof.
  cbv zeta. apply resolveFunctions_fixed. vm_compute. reflexivity.
Defined.

(** Without subquery alias in the plan, [resolveSubqueries] and
    [finalizeSubqueries] return the plan with [SameTree] and never enter the
    analyzer: the result does not depend on it. *)
Theorem resolveSubqueries_aliasFree (a : Analyzer) (n : Node) (scope : Scope) :
  aliasFree n = true ->
  resolveSubqueries a n scope = Ok (n, SameTree)
  /\ finalizeSubqueries a n scope = Ok (n, SameTree).
Proof.
  intros H. split; apply resolveSubqueryAlias_aliasFree, H.
Qed.

Lemma resolveSubqueries_aliasFree_witness :
  let n := Filter (Literal 1) (TableAlias "x" (ResolvedTable "t" 2)) in
  resolveSubqueries fatalAnalyzer n None = Ok (n, SameTree)
  /\ finalizeSubqueries fatalAnalyzer n None = Ok (n, SameTree).
Proof.
  cbv zeta. apply resolveSubqueries_aliasFree. reflexivity.
Defined.

(** * Window framers *)

Module WindowFramers.

(** Go's [int] is a 64-bit signed integer; [wrap] is its wrap-around. *)
Definition maxInt : Z := 2 ^ 63 - 1.
Definition wrap (z : Z) : Z := (z + 2 ^ 63) mod 2 ^ 64 - 2 ^ 63.

(** [sql.WindowInterval{Start, End}]: the rows [Start <= i < End]. *)
Record WindowInterval := MkInterval {
  iStart : Z;
  iEnd : Z
}.

Inductive FramerError := EOF | ErrPartitionNotSet.

(** [(sql.WindowInterval, error)]: the interval, or the error. *)
Definition IntervalResult := (WindowInterval + FramerError)%type.

Module RowFramer.

Record RowFramer := MkRowFramer {
  idx : Z;
  partitionStart : Z;
  partitionEnd : Z;
  frameStart : Z;
  frameEnd : Z;
  partitionSet : bool;
  followingOffset : Z;
  precedingOffset : Z;
  unboundedPreceding : bool;
  unboundedFollowing : bool
}.

(** The fields the literal leaves out have Go's zero value. *)
Definition NewUnboundedPrecedingToCurrentRowFramer : RowFramer :=
  {| idx := 0;
     partitionStart := -1;
     partitionEnd := -1;
     frameStart := -1;
     frameEnd := -1;
     partitionSet := false;
     followingOffset := 0;
     precedingOffset := 0;
     unboundedPreceding := true;
     unboundedFollowing := false |}.

Definition NewFramer (f : RowFramer) (interval : WindowInterval) : RowFramer :=
  {| idx := iStart interval;
     partitionStart := iStart interval;
     partitionEnd := iEnd interval;
     frameStart := -1;
     frameEnd := -1;
     partitionSet := true;
     unboundedPreceding := unboundedPreceding f;
     unboundedFollowing := unboundedFollowing f;
     followingOffset := followingOffset f;
     precedingOffset := precedingOffset f |}.

Definition Interval (f : RowFramer) : IntervalResult :=
  if negb (partitionSet f) then inr ErrPartitionNotSet
  else inl (MkInterval (frameStart f) (frameEnd f)).

(** [Next] mutates the framer: the result and the framer after the call. *)
Definition Next (f : RowFramer) : IntervalResult * RowFramer :=
  if (negb (idx f =? 0) && (partitionEnd f <=? idx f)) || negb (partitionSet f)
  then (inr EOF, f)
  else
    let newStart := wrap (idx f - precedingOffset f) in
    let newStart :=
      if unboundedPreceding f || (newStart <? partitionStart f)
      then partitionStart f else newStart in
    let newEnd := wrap (wrap (idx f + followingOffset f) + 1) in
    let newEnd :=
      if unboundedFollowing f || (partitionEnd f <? newEnd)
      then partitionEnd f else newEnd in
    let f' :=
      {| idx := wrap (idx f + 1);
         partitionStart := partitionStart f;
         partitionEnd := partitionEnd f;
         frameStart := newStart;
         frameEnd := newEnd;
         partitionSet := partitionSet f;
         followingOffset := followingOffset f;
         precedingOffset := precedingOffset f;
         unboundedPreceding := unboundedPreceding f;
         unboundedFollowing := unboundedFollowing f |} in
    (Interval f', f').

Definition FirstIdx (f : RowFramer) : Z := frameEnd f.
Definition LastIdx (f : RowFramer) : Z := frameStart f.

(** The framer after [k] calls of [Next]. *)
Fixpoint after (k : nat) (f : RowFramer) : RowFramer :=
  match k with
  | O => f
  | S k' => snd (Next (after k' f))
  end.

End RowFramer.

Module PartitionFramer.

Record PartitionFramer := MkPartitionFramer {
  idx : Z;
  partitionStart : Z;
  partitionEnd : Z;
  followOffset : Z;
  precOffset : Z;
  frameStart : Z;
  frameEnd : Z;
  partitionSet : bool
}.

Definition NewPartitionFramer : PartitionFramer :=
  {| idx := -1;
     frameEnd := -1;
     frameStart := -1;
     partitionStart := -1;
     partitionEnd := -1;
     followOffset := 0;
     precOffset := 0;
     partitionSet := false |}.

Definition NewFramer (f : PartitionFramer) (interval : WindowInterval)
  : PartitionFramer :=
  {| idx := iStart interval;
     frameEnd := iEnd interval;
     frameStart := iStart interval;
     partitionStart := iStart interval;
     partitionEnd := iEnd interval;
     followOffset := 0;
     precOffset := 0;
     partitionSet := true |}.

Definition Interval (f : PartitionFramer) : IntervalResult :=
  if negb (partitionSet f) then inr ErrPartitionNotSet
  else inl (MkInterval (frameStart f) (frameEnd f)).

Definition Next (f : PartitionFramer) : IntervalResult * PartitionFramer :=
  if negb (partitionSet f) then (inr EOF, f)
  else if (idx f =? 0) || ((0 <? idx f) && (idx f <? partitionEnd f)) then
    let f' :=
      {| idx := wrap (idx f + 1);
         partitionStart := partitionStart f;
         partitionEnd := partitionEnd f;
         followOffset := followOffset f;
         precOffset := precOffset f;
         frameStart := frameStart f;
         frameEnd := frameEnd f;
         partitionSet := partitionSet f |} in
    (Interval f', f')
  else (inr EOF, f).

Definition FirstIdx (f : PartitionFramer) : Z := frameStart f.
Definition LastIdx (f : PartitionFramer) : Z := frameEnd f.

Fixpoint after (k : nat) (f : PartitionFramer) : PartitionFramer :=
  match k with
  | O => f
  | S k' => snd (Next (after k' f))
  end.

End PartitionFramer.

Module GroupByFramer.

Record GroupByFramer := MkGroupByFramer {
  evaluated : bool;
  partitionStart : Z;
  partitionEnd : Z;
  frameStart : Z;
  frameEnd : Z;
  partitionSet : bool
}.

Definition NewGroupByFramer : GroupByFramer :=
  {| evaluated := false;
     frameEnd := -1;
     frameStart := -1;
     partitionStart := -1;
     partitionEnd := -1;
     partitionSet := false |}.

Definition NewFramer (f : GroupByFramer) (interval : WindowInterval)
  : GroupByFramer :=
  {| evaluated := false;
     frameEnd := iEnd interval;
     frameStart := iStart interval;
     partitionStart := iStart interval;
     partitionEnd := iEnd interval;
     partitionSet := true |}.

Definition Interval (f : GroupByFramer) : IntervalResult :=
  if negb (partitionSet f) then inr ErrPartitionNotSet
  else inl (MkInterval (frameStart f) (frameEnd f)).

Definition Next (f : GroupByFramer) : IntervalResult * GroupByFramer :=
  if negb (partitionSet f) then (inr EOF, f)
  else if negb (evaluated f) then
    let f' :=
      {| evaluated := true;
         partitionStart := partitionStart f;
         partitionEnd := partitionEnd f;
         frameStart := frameStart f;
         frameEnd := frameEnd f;
         partitionSet := partitionSet f |} in
    (Interval f', f')
  else (inr EOF, f).

Definition FirstIdx (f : GroupByFramer) : Z := frameStart f.
Definition LastIdx (f : GroupByFramer) : Z := frameEnd f.

Fixpoint after (k : nat) (f : GroupByFramer) : GroupByFramer :=
  match k with
  | O => f
  | S k' => snd (Next (after k' f))
  end.

End GroupByFramer.

(** The number of frames a row or partition framer yields on the partition
    [s <= i < e]: one for each row, and one for the empty partition at row
    0, which the test [f.idx != 0] of [Next] lets through. *)
Definition frameCount (s e : Z) : nat :=
  if (s =? 0) && (e =? 0) then 1%nat else Z.to_nat (e - s).

Lemma wrap_small z : - 2 ^ 63 <= z < 2 ^ 63 -> wrap z = z.
Proof. intros H. unfold wrap. rewrite Z.mod_small; lia. Qed.

Lemma frameCount_cases s e :
  0 <= s <= e ->
  (s = 0 /\ e = 0 /\ frameCount s e = 1%nat)
  \/ (0 < e /\ Z.of_nat (frameCount s e) = e - s).
Proof.
  intros H. unfold frameCount.
  destruct (s =? 0) eqn:Hs, (e =? 0) eqn:He; cbn [andb]; lia.
Qed.

(** ** The row framer *)

Section RowFramerFrames.
Import RowFramer.
Variables (s e foll prec : Z) (up uf : bool).
Hypothesis Hse : 0 <= s <= e.
Hypothesis Hprec : 0 <= prec <= maxInt.
Hypothesis Hfoll : 0 <= foll.
Hypothesis Hmax : e + foll < maxInt.

(** The frame of row [i]. *)
Definition rowFrame (i : Z) : WindowInterval :=
  MkInterval (if up then s else Z.max s (i - prec))
             (if uf then e else Z.min e (i + foll + 1)).

Lemma RowFramer_Next_step i fs fe :
  s <= i <= e -> i = 0 \/ i < e ->
  Next (MkRowFramer i s e fs fe true foll prec up uf)
  = (inl (rowFrame i),
     MkRowFramer (i + 1) s e (iStart (rowFrame i)) (iEnd (rowFrame i)) true
       foll prec up uf).
Proof.
  intros Hi Hlt. unfold Next, Interval, rowFrame.
  pose proof Hprec as Hprec'. pose proof Hmax as Hmax'. unfold maxInt in Hprec', Hmax'.
  cbn [idx partitionStart partitionEnd frameStart frameEnd partitionSet
       followingOffset precedingOffset unboundedPreceding unboundedFollowing
       negb orb iStart iEnd].
  rewrite orb_false_r.
  assert (Hc : negb (i =? 0) && (e <=? i) = false).
  { destruct (i =? 0) eqn:H0; cbn; [reflexivity|]. lia. }
  rewrite Hc.
  rewrite !wrap_small by (rewrite ?wrap_small by lia; lia).
  assert (H1 : (if up || (i - prec <? s) then s else i - prec)
               = (if up then s else Z.max s (i - prec))).
  { destruct up; cbn [orb]; [reflexivity|].
    destruct (i - prec <? s) eqn:Hlt'; lia. }
  assert (H2 : (if uf || (e <? i + foll + 1) then e else i + foll + 1)
               = (if uf then e else Z.min e (i + foll + 1))).
  { destruct uf; cbn [orb]; [reflexivity|].
    destruct (e <? i + foll + 1) eqn:Hlt'; lia. }
  rewrite H1, H2. reflexivity.
Qed.

Lemma RowFramer_Next_done i fs fe :
  i <> 0 -> e <= i ->
  Next (MkRowFramer i s e fs fe true foll prec up uf)
  = (inr EOF, MkRowFramer i s e fs fe true foll prec up uf).
Proof.
  intros H0 Hi. unfold Next. cbn [idx partitionEnd partitionSet].
  assert (Hc : negb (i =? 0) && (e <=? i) = true).
  { apply andb_true_intro. split; [apply negb_true_iff|]; lia. }
  rewrite Hc. reflexivity.
Qed.

Lemma RowFramer_after_state f0 (k : nat) :
  followingOffset f0 = foll -> precedingOffset f0 = prec ->
  unboundedPreceding f0 = up -> unboundedFollowing f0 = uf ->
  (k <= frameCount s e)%nat ->
  exists fs fe,
    after k (NewFramer f0 (MkInterval s e))
    = MkRowFramer (s + Z.of_nat k) s e fs fe true foll prec up uf.
Proof.
  intros H1 H2 H3 H4. unfold NewFramer. rewrite H1, H2, H3, H4.
  cbn [iStart iEnd]. induction k as [|k IH]; intros Hk.
  - exists (-1), (-1). cbn. f_equal. lia.
  - destruct IH as (fs & fe & IH); [lia|].
    cbn [after]. rewrite IH.
    rewrite RowFramer_Next_step.
    + eexists _, _. cbn [snd]. f_equal. lia.
    + destruct (frameCount_cases s e Hse) as [(? & ? & ?)|[? ?]]; lia.
    + destruct (frameCount_cases s e Hse) as [(? & ? & ?)|[? ?]]; lia.
Qed.

Lemma RowFramer_after_done f0 (k : nat) :
  followingOffset f0 = foll -> precedingOffset f0 = prec ->
  unboundedPreceding f0 = up -> unboundedFollowing f0 = uf ->
  (frameCount s e <= k)%nat ->
  after k (NewFramer f0 (MkInterval s e))
  = after (frameCount s e) (NewFramer f0 (MkInterval s e)).
Proof.
  intros H1 H2 H3 H4. induction k as [|k IH]; intros Hk.
  - replace (frameCount s e) with 0%nat by lia. reflexivity.
  - destruct (decide (frameCount s e = S k)) as [->|Hne]; [reflexivity|].
    cbn [after]. rewrite IH by lia.
    destruct (RowFramer_after_state f0 (frameCount s e) H1 H2 H3 H4 (le_n _))
      as (fs & fe & ->).
    rewrite RowFramer_Next_done; [reflexivity| |];
      destruct (frameCount_cases s e Hse) as [(? & ? & ?)|[? ?]]; lia.
Qed.

Lemma RowFramer_Next_after f0 (k : nat) :
  followingOffset f0 = foll -> precedingOffset f0 = prec ->
  unboundedPreceding f0 = up -> unboundedFollowing f0 = uf ->
  Next (after k (NewFramer f0 (MkInterval s e)))
  = if (k <? frameCount s e)%nat
    then (inl (rowFrame (s + Z.of_nat k)),
          after (S k) (NewFramer f0 (MkInterval s e)))
    else (inr EOF, after (frameCount s e) (NewFramer f0 (MkInterval s e))).
Proof.
  intros H1 H2 H3 H4. destruct (k <? frameCount s e)%nat eqn:Hk.
  - apply Nat.ltb_lt in Hk. cbn [after].
    destruct (RowFramer_after_state f0 k H1 H2 H3 H4) as (fs & fe & ->); [lia|].
    rewrite RowFramer_Next_step; [reflexivity| |];
      destruct (frameCount_cases s e Hse) as [(? & ? & ?)|[? ?]]; lia.
  - apply Nat.ltb_ge in Hk. rewrite (RowFramer_after_done f0 k) by assumption.
    destruct (RowFramer_after_state f0 (frameCount s e) H1 H2 H3 H4 (le_n _))
      as (fs & fe & ->).
    apply RowFramer_Next_done;
      destruct (frameCount_cases s e Hse) as [(? & ? & ?)|[? ?]]; lia.
Qed.

End RowFramerFrames.

(** On the partition [s <= i < e], with offsets that cannot overflow, the
    call of [RowFramer.Next] number [k] (from 0) returns the frame of the row
    [s + k]: from [s], or [preceding] rows before the row, up to [e], or
    [following] rows after the row, both cut to the partition.  After
    one frame for each row (one frame for the empty partition at row 0)
    every call returns [io.EOF]. *)
Theorem RowFramer_Next_kth (f0 : RowFramer.RowFramer) (s e : Z) (k : nat) :
  0 <= s <= e ->
  0 <= RowFramer.precedingOffset f0 <= maxInt ->
  0 <= RowFramer.followingOffset f0 ->
  e + RowFramer.followingOffset f0 < maxInt ->
  fst (RowFramer.Next
         (RowFramer.after k (RowFramer.NewFramer f0 (MkInterval s e))))
  = if (k <? frameCount s e)%nat
    then inl (MkInterval
                (if RowFramer.unboundedPreceding f0 then s
                 else Z.max s (s + Z.of_nat k - RowFramer.precedingOffset f0))
                (if RowFramer.unboundedFollowing f0 then e
                 else Z.min e (s + Z.of_nat k + RowFramer.followingOffset f0 + 1)))
    else inr EOF.
Proof.
  intros Hse Hp Hf Hm.
  rewrite (RowFramer_Next_after s e _ _ _ _ Hse Hp Hf Hm f0 k) by reflexivity.
  destruct (k <? frameCount s e)%nat; reflexivity.
Qed.

Lemma RowFramer_Next_kth_witness :
  let f0 := RowFramer.MkRowFramer 0 (-1) (-1) (-1) (-1) false 1 2 false false in
  fst (RowFramer.Next
         (RowFramer.after 3 (RowFramer.NewFramer f0 (MkInterval 10 15))))
  = inl (MkInterval 11 15).
Proof.
  cbv zeta.
  rewrite (RowFramer_Next_kth
             (RowFramer.MkRowFramer 0 (-1) (-1) (-1) (-1) false 1 2 false false)
             10 15 3);
    [reflexivity|cbn; lia|cbn; unfold maxInt; lia|cbn; lia|cbn; unfold maxInt; lia].
Defined.

(** Every frame [RowFramer.Next] returns for a row of the partition lies
    within the partition and contains the row.  After the call [FirstIdx] is
    the end of the frame and [LastIdx] its start, so the first index is
    above the last. *)
Theorem RowFramer_frame_bounds (f0 : RowFramer.RowFramer) (s e : Z) (k : nat) :
  0 <= s <= e ->
  0 <= RowFramer.precedingOffset f0 <= maxInt ->
  0 <= RowFramer.followingOffset f0 ->
  e + RowFramer.followingOffset f0 < maxInt ->
  s + Z.of_nat k < e ->
  exists iv f',
    RowFramer.Next (RowFramer.after k (RowFramer.NewFramer f0 (MkInterval s e)))
    = (inl iv, f')
    /\ s <= iStart iv <= s + Z.of_nat k
    /\ s + Z.of_nat k < iEnd iv <= e
    /\ RowFramer.FirstIdx f' = iEnd iv
    /\ RowFramer.LastIdx f' = iStart iv
    /\ RowFramer.LastIdx f' < RowFramer.FirstIdx f'.
Proof.
  intros Hse Hp Hf Hm Hk.
  assert (Hlt : (k < frameCount s e)%nat)
    by (destruct (frameCount_cases s e Hse) as [(? & ? & ?)|[? ?]]; lia).
  destruct (RowFramer_after_state s e _ _ _ _ Hse Hp Hf Hm f0 k
              eq_refl eq_refl eq_refl eq_refl) as (fs & fe & ->); [lia|].
  rewrite (RowFramer_Next_step s e _ _ _ _ Hse Hp Hf Hm) by lia.
  eexists _, _. split; [reflexivity|].
  unfold RowFramer.FirstIdx, RowFramer.LastIdx, rowFrame. cbn.
  destruct (RowFramer.unboundedPreceding f0), (RowFramer.unboundedFollowing f0); lia.
Qed.

Lemma RowFramer_frame_bounds_witness :
  let f0 := RowFramer.NewUnboundedPrecedingToCurrentRowFramer in
  exists iv f',
    RowFramer.Next (RowFramer.after 2 (RowFramer.NewFramer f0 (MkInterval 4 9)))
    = (inl iv, f')
    /\ 4 <= iStart iv <= 4 + Z.of_nat 2
    /\ 4 + Z.of_nat 2 < iEnd iv <= 9
    /\ RowFramer.FirstIdx f' = iEnd iv
    /\ RowFramer.LastIdx f' = iStart iv
    /\ RowFramer.LastIdx f' < RowFramer.FirstIdx f'.
Proof.
  cbv zeta.
  apply (RowFramer_frame_bounds RowFramer.NewUnboundedPrecedingToCurrentRowFramer
           4 9 2); cbn; unfold maxInt; lia.
Defined.

(** ** The partition framer *)

Lemma PartitionFramer_after_state f0 s e (k : nat) :
  0 <= s <= e -> e <= maxInt -> (k <= frameCount s e)%nat ->
  PartitionFramer.after k (PartitionFramer.NewFramer f0 (MkInterval s e))
  = PartitionFramer.MkPartitionFramer (s + Z.of_nat k) s e 0 0 s e true.
Proof.
  intros Hse He. unfold PartitionFramer.NewFramer. cbn [iStart iEnd].
  induction k as [|k IH]; intros Hk.
  - cbn. f_equal. lia.
  - cbn [PartitionFramer.after]. rewrite IH by lia.
    unfold PartitionFramer.Next, PartitionFramer.Interval. cbn.
    assert (Hc : (s + Z.of_nat k =? 0)
                 || (0 <? s + Z.of_nat k) && (s + Z.of_nat k <? e) = true).
    { destruct (frameCount_cases s e Hse) as [(? & ? & ?)|[? ?]].
      - replace (s + Z.of_nat k) with 0 by lia. reflexivity.
      - destruct (s + Z.of_nat k =? 0) eqn:Hz; [reflexivity|]. cbn [orb].
        apply andb_true_intro. lia. }
    rewrite Hc. cbn [snd]. f_equal. unfold maxInt in He.
    rewrite wrap_small; [lia|].
    destruct (frameCount_cases s e Hse) as [(? & ? & ?)|[? ?]]; lia.
Qed.

Lemma PartitionFramer_Next_done i s e :
  i <> 0 -> e <= i ->
  PartitionFramer.Next (PartitionFramer.MkPartitionFramer i s e 0 0 s e true)
  = (inr EOF, PartitionFramer.MkPartitionFramer i s e 0 0 s e true).
Proof.
  intros H0 Hi. unfold PartitionFramer.Next. cbn.
  assert (Hc : (i =? 0) || (0 <? i) && (i <? e) = false).
  { apply orb_false_intro; [lia|]. apply andb_false_iff. right. lia. }
  rewrite Hc. reflexivity.
Qed.

Lemma PartitionFramer_after_done f0 s e (k : nat) :
  0 <= s <= e -> e <= maxInt -> (frameCount s e <= k)%nat ->
  PartitionFramer.after k (PartitionFramer.NewFramer f0 (MkInterval s e))
  = PartitionFramer.after (frameCount s e)
      (PartitionFramer.NewFramer f0 (MkInterval s e)).
Proof.
  intros Hse He. induction k as [|k IH]; intros Hk.
  - replace (frameCount s e) with 0%nat by lia. reflexivity.
  - destruct (decide (frameCount s e = S k)) as [->|Hne]; [reflexivity|].
    cbn [PartitionFramer.after]. rewrite IH by lia.
    rewrite (PartitionFramer_after_state f0 s e _ Hse He (le_n _)).
    rewrite PartitionFramer_Next_done; [reflexivity| |];
      destruct (frameCount_cases s e Hse) as [(? & ? & ?)|[? ?]]; lia.
Qed.

(** On the partition [s <= i < e], [PartitionFramer.Next] returns the whole
    partition as the frame, once for each of its rows (once for the empty
    partition at row 0), and [io.EOF] from then on; [FirstIdx] and [LastIdx]
    are the bounds of the partition throughout. *)
Theorem PartitionFramer_Next_kth (f0 : PartitionFramer.PartitionFramer)
    (s e : Z) (k : nat) :
  0 <= s <= e -> e <= maxInt ->
  let f := PartitionFramer.after k (PartitionFramer.NewFramer f0 (MkInterval s e)) in
  fst (PartitionFramer.Next f)
  = (if (k <? frameCount s e)%nat then inl (MkInterval s e) else inr EOF)
  /\ PartitionFramer.FirstIdx f = s
  /\ PartitionFramer.LastIdx f = e.
Proof.
  intros Hse He f.
  assert (Hf : exists i, f = PartitionFramer.MkPartitionFramer i s e 0 0 s e true
                         /\ i = s + Z.of_nat (Nat.min k (frameCount s e))).
  { subst f. destruct (le_lt_dec k (frameCount s e)) as [Hk|Hk].
    - rewrite PartitionFramer_after_state by assumption.
      eexists. split; [reflexivity|]. lia.
    - rewrite PartitionFramer_after_done by (assumption || lia).
      rewrite PartitionFramer_after_state by (assumption || lia).
      eexists. split; [reflexivity|]. lia. }
  destruct Hf as (i & Hf & Hi). split; [|rewrite Hf; split; reflexivity].
  destruct (k <? frameCount s e)%nat eqn:Hk.
  - apply Nat.ltb_lt in Hk.
    change (fst (PartitionFramer.Next f))
      with (fst (PartitionFramer.Next
                   (PartitionFramer.after k
                      (PartitionFramer.NewFramer f0 (MkInterval s e))))).
    pose proof (PartitionFramer_after_state f0 s e (S k) Hse He ltac:(lia)) as HS.
    cbn [PartitionFramer.after] in HS.
    rewrite (PartitionFramer_after_state f0 s e k Hse He ltac:(lia)) in HS |- *.
    unfold PartitionFramer.Next, PartitionFramer.Interval in HS |- *. cbn in HS |- *.
    destruct ((s + Z.of_nat k =? 0) || (0 <? s + Z.of_nat k) && (s + Z.of_nat k <? e));
      [reflexivity|].
    cbn in HS. inversion HS. lia.
  - apply Nat.ltb_ge in Hk. rewrite Hf, PartitionFramer_Next_done; [reflexivity| |];
      destruct (frameCount_cases s e Hse) as [(? & ? & ?)|[? ?]]; lia.
Qed.

Lemma PartitionFramer_Next_kth_witness :
  fst (PartitionFramer.Next
         (PartitionFramer.after 2
            (PartitionFramer.NewFramer PartitionFramer.NewPartitionFramer
               (MkInterval 3 6))))
  = inl (MkInterval 3 6).
Proof.
  apply (proj1 (PartitionFramer_Next_kth PartitionFramer.NewPartitionFramer 3 6 2
                  ltac:(lia) ltac:(unfold maxInt; lia))).
Defined.

(** ** The group-by framer *)

Lemma GroupByFramer_after_S f0 iv (k : nat) :
  GroupByFramer.after (S k) (GroupByFramer.NewFramer f0 iv)
  = GroupByFramer.MkGroupByFramer true (iStart iv) (iEnd iv) (iStart iv) (iEnd iv) true.
Proof.
  induction k as [|k IH]; [reflexivity|].
  change (GroupByFramer.after (S (S k)) (GroupByFramer.NewFramer f0 iv))
    with (snd (GroupByFramer.Next
                 (GroupByFramer.after (S k) (GroupByFramer.NewFramer f0 iv)))).
  rewrite IH. reflexivity.
Qed.

(** Whatever the partition, [GroupByFramer.Next] returns it as the only
    frame: the first call returns the partition, every later call
    [io.EOF]. *)
Theorem GroupByFramer_Next_kth (f0 : GroupByFramer.GroupByFramer)
    (iv : WindowInterval) (k : nat) :
  fst (GroupByFramer.Next (GroupByFramer.after k (GroupByFramer.NewFramer f0 iv)))
  = match k with O => inl iv | S _ => inr EOF end.
Proof.
  destruct k as [|k].
  - destruct iv. reflexivity.
  - rewrite GroupByFramer_after_S. reflexivity.
Qed.

(** ** Framers without partition *)

Lemma RowFramer_after_unset f (k : nat) :
  RowFramer.partitionSet f = false -> RowFramer.after k f = f.
Proof.
  intros H. induction k as [|k IH]; [reflexivity|].
  cbn [RowFramer.after]. rewrite IH. unfold RowFramer.Next. rewrite H.
  rewrite orb_true_r. reflexivity.
Qed.

Lemma PartitionFramer_after_unset f (k : nat) :
  PartitionFramer.partitionSet f = false -> PartitionFramer.after k f = f.
Proof.
  intros H. induction k as [|k IH]; [reflexivity|].
  cbn [PartitionFramer.after]. rewrite IH. unfold PartitionFramer.Next. rewrite H.
  reflexivity.
Qed.

Lemma GroupByFramer_after_unset f (k : nat) :
  GroupByFramer.partitionSet f = false -> GroupByFramer.after k f = f.
Proof.
  intros H. induction k as [|k IH]; [reflexivity|].
  cbn [GroupByFramer.after]. rewrite IH. unfold GroupByFramer.Next. rewrite H.
  reflexivity.
Qed.

(** A framer as its constructor returns it, before [NewFramer] gives it a
    partition, yields no frame: every [Next] is [io.EOF] and leaves the
    framer as it is, and [Interval] is [ErrPartitionNotSet]. *)
Theorem framers_without_partition (k : nat) :
  let r := RowFramer.after k RowFramer.NewUnboundedPrecedingToCurrentRowFramer in
  let p := PartitionFramer.after k PartitionFramer.NewPartitionFramer in
  let g := GroupByFramer.after k GroupByFramer.NewGroupByFramer in
  (RowFramer.Next r = (inr EOF, RowFramer.NewUnboundedPrecedingToCurrentRowFramer)
   /\ RowFramer.Interval r = inr ErrPartitionNotSet)
  /\ (PartitionFramer.Next p = (inr EOF, PartitionFramer.NewPartitionFramer)
      /\ PartitionFramer.Interval p = inr ErrPartitionNotSet)
  /\ (GroupByFramer.Next g = (inr EOF, GroupByFramer.NewGroupByFramer)
      /\ GroupByFramer.Interval g = inr ErrPartitionNotSet).
Proof.
  cbv zeta.
  rewrite RowFramer_after_unset, PartitionFramer_after_unset,
    GroupByFramer_after_unset by reflexivity.
  repeat split; reflexivity.
Qed.

End WindowFramers.

(** * The window function LAG *)

Module LagFunction.

(** The dynamic value of a literal: of one of Go's signed integer types, or
    of any other type. *)
Inductive GoValue :=
| VInt (z : Z)
| VInt8 (z : Z)
| VInt16 (z : Z)
| VInt32 (z : Z)
| VInt64 (z : Z)
| VOther (description : string).

(** An argument of LAG: an [expression.Literal], or another expression. *)
Inductive Expr :=
| Literal (v : GoValue)
| Other (name : string).

Inductive LagError :=
| ErrInvalidLagOffset
| ErrInvalidArgumentNumber (found : nat)
| ErrInvalidChildrenNumber (found : nat).

Record Lag := MkLag {
  window : option Window;
  ChildExpressions : list Expr;
  offset : Z;
  pos : Z
}.

Definition getLagOffset (e : Expr) : Z + LagError :=
  match e with
  | Literal val =>
      match
        match val with
        | VInt e' | VInt8 e' | VInt16 e' | VInt32 e' | VInt64 e' => Some e'
        | VOther _ => None
        end
      with
      | None => inr ErrInvalidLagOffset
      | Some offset =>
          if offset <? 0 then inr ErrInvalidLagOffset else inl offset
      end
  | Other _ => inr ErrInvalidLagOffset
  end.

Definition NewLag (e : list Expr) : Lag + LagError :=
  match e with
  | [e0] => inl (MkLag None [e0] 1 0)
  | [e0; e1] =>
      match getLagOffset e1 with
      | inr err => inr err
      | inl offset => inl (MkLag None [e0] offset 0)
      end
  | [e0; e1; e2] =>
      match getLagOffset e1 with
      | inr err => inr err
      | inl offset => inl (MkLag None [e0; e2] offset 0)
      end
  | _ => inr (ErrInvalidArgumentNumber (length e))
  end.

Definition WithWindow (l : Lag) (w : option Window) : Lag + LagError :=
  inl (MkLag w (ChildExpressions l) (offset l) (pos l)).

Section WithChildren.
(** [window.FromExpressions] is not among the source files; the guard of
    [WithChildren] runs before it. *)
Variable FromExpressions : option Window -> list Expr -> option Window + LagError.

Definition WithChildren (l : Lag) (children : list Expr) : Lag + LagError :=
  if (length children <? 2)%nat then inr (ErrInvalidChildrenNumber (length children))
  else
    let numWindowExpr := (length children - length (ChildExpressions l))%nat in
    match FromExpressions (window l) (take numWindowExpr children) with
    | inr err => inr err
    | inl window => inl (MkLag window (drop numWindowExpr children) (offset l) (pos l))
    end.
End WithChildren.

(** The integer a value holds, if it is of a signed integer type. *)
Definition intValue (v : GoValue) : option Z :=
  match v with
  | VInt z | VInt8 z | VInt16 z | VInt32 z | VInt64 z => Some z
  | VOther _ => None
  end.

(** The expression is a literal of a non-negative signed integer. *)
Definition isOffset (e : Expr) : bool :=
  match e with
  | Literal v => match intValue v with Some z => 0 <=? z | None => false end
  | Other _ => false
  end.

(** [getLagOffset] accepts exactly the literals of a non-negative signed
    integer, and returns that integer. *)
Lemma getLagOffset_spec e :
  match getLagOffset e with
  | inl off =>
      isOffset e = true /\ 0 <= off
      /\ exists v, e = Literal v /\ intValue v = Some off
  | inr err => isOffset e = false /\ err = ErrInvalidLagOffset
  end.
Proof.
  destruct e as [[z|z|z|z|z|d]|nm]; cbn; try (split; reflexivity);
    destruct (z <? 0) eqn:Hz; cbn;
    try (split; [apply Z.leb_gt; lia|reflexivity]);
    (split; [apply Z.leb_le; lia|split; [lia|eexists; split; reflexivity]]).
Qed.

(** [NewLag] takes one, two or three arguments, the second a literal of a
    non-negative signed integer.  The offset is that integer, 1 without a
    second argument; the child expressions are the first argument and, if
    there is one, the third: the offset is not a child.  The node has no
    window, and [WithChildren] refuses its child expressions when they are
    fewer than two. *)
Theorem NewLag_spec
    (FromExpressions : option Window -> list Expr -> option Window + LagError)
    (e : list Expr) :
  match NewLag e with
  | inl l =>
      window l = None /\ pos l = 0 /\ 0 <= offset l
      /\ head (ChildExpressions l) = head e
      /\ ChildExpressions l = take 1 e ++ drop 2 e
      /\ (1 <= length e <= 3)%nat
      /\ match e !! 1%nat with
         | None => offset l = 1
         | Some e1 =>
             isOffset e1 = true
             /\ exists v, e1 = Literal v /\ intValue v = Some (offset l)
         end
      /\ ((length e < 3)%nat ->
          WithChildren FromExpressions l (ChildExpressions l)
          = inr (ErrInvalidChildrenNumber 1))
  | inr err =>
      match e !! 1%nat with
      | Some e1 =>
          if (length e <=? 3)%nat
          then isOffset e1 = false /\ err = ErrInvalidLagOffset
          else err = ErrInvalidArgumentNumber (length e)
      | None => e = [] /\ err = ErrInvalidArgumentNumber 0
      end
  end.
Proof.
  destruct e as [|e0 [|e1 [|e2 [|e3 es]]]]; cbn [NewLag].
  - cbn. auto.
  - cbn. repeat split; (lia || reflexivity).
  - pose proof (getLagOffset_spec e1) as H.
    destruct (getLagOffset e1) as [off|err]; cbn.
    + destruct H as (H1 & H2 & H3). repeat split; auto; lia.
    + exact H.
  - pose proof (getLagOffset_spec e1) as H.
    destruct (getLagOffset e1) as [off|err]; cbn.
    + destruct H as (H1 & H2 & H3). repeat split; auto; lia.
    + exact H.
  - cbn. reflexivity.
Qed.

End LagFunction.

(** * Parsers of date formats *)

Module parsedate.

(** A Go string is a sequence of bytes. *)
Definition GoString := list Ascii.ascii.

(** The fields of [datetime] the parsers assign; [None] is the nil
    pointer. *)
Record datetime := MkDatetime {
  year : option Z;
  month : option Z;
  day : option Z;
  weekday : option Z;
  dayOfYear : option Z;
  hours : option Z;
  minutes : option Z;
  seconds : option Z;
  microseconds : option Z;
  am : option bool
}.

Definition set_am (result : datetime) (v : bool) : datetime :=
  MkDatetime (year result) (month result) (day result) (weekday result)
    (dayOfYear result) (hours result) (minutes result) (seconds result)
    (microseconds result) (Some v).

Definition set_year (result : datetime) (v : Z) : datetime :=
  MkDatetime (Some v) (month result) (day result) (weekday result)
    (dayOfYear result) (hours result) (minutes result) (seconds result)
    (microseconds result) (am result).

(** The errors of [fmt.Errorf], by the place that creates them, and the
    errors of the number readers. *)
Inductive ParseError :=
| ErrExpectedChars (atLeast found : nat)
| ErrNumber (code : Z).

(** What a parser returns: the datetime after the call, the rest of the
    input and the error ([None] for nil). *)
Definition Parsed := (datetime * GoString * option ParseError)%type.

(** [str[count:]] panics on a negative [count]: [None]. *)
Definition trimPrefix (count : Z) (str : GoString) : option GoString :=
  if count <? Z.of_nat (length str) then
    if count <? 0 then None else Some (drop (Z.to_nat count) str)
  else Some [].

Definition lit (s : string) : GoString := String.list_ascii_of_string s.

(** The [default] case returns the named result [err], which is nil
    there. *)
Definition parseAmPm (result : datetime) (chars : GoString) : option Parsed :=
  if (length chars <? 2)%nat
  then Some (result, [], Some (ErrExpectedChars 2 (length chars)))
  else if decide (take 2 chars = lit "am") then
    rest ← trimPrefix 2 chars; Some (set_am result true, rest, None)
  else if decide (take 2 chars = lit "pm") then
    rest ← trimPrefix 2 chars; Some (set_am result false, rest, None)
  else Some (result, [], None).

Section Numbers.
(** [takeNumberAtMostNChars] is not among the source files: it reads a
    number from the front of the input and returns it with the rest, or an
    error. *)
Variable takeNumberAtMostNChars : Z -> GoString -> Z * GoString * option ParseError.

Definition wrapInt (z : Z) : Z := (z + 2 ^ 63) mod 2 ^ 64 - 2 ^ 63.

Definition parseYear2DigitNumeric (result : datetime) (chars : GoString) : Parsed :=
  let '(year, rest, err) := takeNumberAtMostNChars 2 chars in
  match err with
  | Some e => (result, [], Some e)
  | None =>
      let year := if 70 <=? year then wrapInt (year + 1900) else wrapInt (year + 2000) in
      (set_year result year, rest, None)
  end.

End Numbers.

Lemma trimPrefix_drop count str :
  0 <= count -> trimPrefix count str = Some (drop (Z.to_nat count) str).
Proof.
  intros H. unfold trimPrefix.
  destruct (count <? Z.of_nat (length str)) eqn:Hlt.
  - destruct (count <? 0) eqn:H0; [lia|reflexivity].
  - rewrite drop_ge by lia. reflexivity.
Qed.

(** [trimPrefix] drops the first [count] bytes, and everything when the
    string has no more than that; a negative [count] panics.  Two calls in
    a row drop the sum. *)
Theorem trimPrefix_spec (count : Z) (str : GoString) :
  trimPrefix count str
  = (if count <? 0 then None else Some (drop (Z.to_nat count) str))
  /\ (forall rest, trimPrefix count str = Some rest ->
        length rest = (length str - Z.to_nat count)%nat
        /\ str = take (Z.to_nat count) str ++ rest)
  /\ (forall a, 0 <= a -> 0 <= count ->
        (rest ← trimPrefix count str; trimPrefix a rest) = trimPrefix (a + count) str).
Proof.
  assert (H1 : trimPrefix count str
               = (if count <? 0 then None else Some (drop (Z.to_nat count) str))).
  { destruct (count <? 0) eqn:H0; [|apply trimPrefix_drop; lia].
    unfold trimPrefix. rewrite H0.
    destruct (count <? Z.of_nat (length str)) eqn:Hlt; [reflexivity|].
    apply Z.ltb_lt in H0. apply Z.ltb_ge in Hlt. lia. }
  split; [exact H1|]. split.
  - intros rest. rewrite H1. destruct (count <? 0); [discriminate|].
    intros [= <-]. rewrite length_drop, take_drop. split; reflexivity.
  - intros a Ha Hc. rewrite !trimPrefix_drop by lia. cbn.
    rewrite trimPrefix_drop by lia. rewrite drop_drop. do 2 f_equal. lia.
Qed.

(** The fields of the datetime other than the flag. *)
Definition sameButAm (result r : datetime) : Prop :=
  year r = year result /\ month r = month result /\ day r = day result
  /\ weekday r = weekday result /\ dayOfYear r = dayOfYear result
  /\ hours r = hours result /\ minutes r = minutes result
  /\ seconds r = seconds result /\ microseconds r = microseconds result.

(** [parseAmPm] never panics, touches no field but the flag, and fails on
    fewer than two bytes and on nothing else, with the datetime as it was.
    On an input that starts with [am], in lower case, it sets the flag to
    true and returns the input after the marker, on [pm] it sets it to
    false; on any other two bytes it reports success as well, leaves the
    datetime as it was and returns the empty rest, so the remaining input is
    dropped. *)
Theorem parseAmPm_spec (result : datetime) (chars : GoString) :
  exists r rest err,
    parseAmPm result chars = Some (r, rest, err)
    /\ sameButAm result r
    /\ (err <> None <-> (length chars < 2)%nat)
    /\ ((length chars < 2)%nat ->
        r = result /\ rest = []
        /\ err = Some (ErrExpectedChars 2 (length chars)))
    /\ (forall tail, chars = lit "am" ++ tail ->
        am r = Some true /\ rest = tail /\ err = None)
    /\ (forall tail, chars = lit "pm" ++ tail ->
        am r = Some false /\ rest = tail /\ err = None)
    /\ ((forall tail, chars <> lit "am" ++ tail) ->
        (forall tail, chars <> lit "pm" ++ tail) ->
        r = result /\ rest = []).
Proof.
  assert (Hsame : forall v, sameButAm result (set_am result v))
    by (intros v; repeat split).
  assert (Hrefl : sameButAm result result) by (repeat split).
  assert (Hpre : forall m, (2 <= length chars)%nat ->
            (take 2 chars = lit m <-> exists tail, chars = lit m ++ tail) \/
            length (lit m) <> 2%nat).
  { intros m Hlen. destruct (decide (length (lit m) = 2%nat)) as [Hm|Hm]; [left|right; exact Hm].
    split.
    - intros Ht. exists (drop 2 chars). rewrite <- Ht. symmetry. apply take_drop.
    - intros (tail & ->). rewrite take_app_length' by (symmetry; exact Hm). reflexivity. }
  unfold parseAmPm.
  destruct (length chars <? 2)%nat eqn:Hlen.
  - apply Nat.ltb_lt in Hlen. eexists _, _, _. split; [reflexivity|].
    split; [exact Hrefl|].
    split; [split; [intros _; exact Hlen|discriminate]|].
    split; [auto|].
    split; [|split; [|auto]];
      intros tail ->; rewrite length_app in Hlen; cbn in Hlen; lia.
  - apply Nat.ltb_ge in Hlen.
    rewrite (trimPrefix_drop 2 chars) by lia. cbn [mbind option_bind].
    change (Z.to_nat 2) with 2%nat.
    destruct (Hpre "am" Hlen) as [Ham|Hbad]; [|exfalso; apply Hbad; reflexivity].
    destruct (Hpre "pm" Hlen) as [Hpm|Hbad]; [|exfalso; apply Hbad; reflexivity].
    destruct (decide (take 2 chars = lit "am")) as [Ha|Ha];
      [|destruct (decide (take 2 chars = lit "pm")) as [Hp|Hp]];
      eexists _, _, _; (split; [reflexivity|]).
    + split; [apply Hsame|]. split; [split; [congruence|lia]|]. split; [lia|].
      split; [|split].
      * intros tail ->. repeat split.
      * intros tail ->. rewrite take_app_length' in Ha by reflexivity. discriminate Ha.
      * intros Hno. exfalso. apply Ham in Ha as (tail & Ht). apply (Hno tail Ht).
    + split; [apply Hsame|]. split; [split; [congruence|lia]|]. split; [lia|].
      split; [|split].
      * intros tail ->. rewrite take_app_length' in Hp by reflexivity. discriminate Hp.
      * intros tail ->. repeat split.
      * intros _ Hno. exfalso. apply Hpm in Hp as (tail & Ht). apply (Hno tail Ht).
    + split; [exact Hrefl|]. split; [split; [congruence|lia]|]. split; [lia|].
      split; [|split; [|auto]].
      * intros tail Ht. exfalso. apply Ha, Ham. eauto.
      * intros tail Ht. exfalso. apply Hp, Hpm. eauto.
Qed.

(** A number of at most two digits is read as a year of the window 1970 to
    2069: from 70 on in the 1900s, below in the 2000s; the last two digits of
    the year are the number. *)
Theorem parseYear2DigitNumeric_window
    (takeNumberAtMostNChars : Z -> GoString -> Z * GoString * option ParseError)
    (result : datetime) (chars rest : GoString) (num : Z) :
  takeNumberAtMostNChars 2 chars = (num, rest, None) ->
  0 <= num < 100 ->
  exists y,
    parseYear2DigitNumeric takeNumberAtMostNChars result chars
    = (set_year result y, rest, None)
    /\ 1970 <= y <= 2069
    /\ y mod 100 = num
    /\ (y < 2000 <-> 70 <= num).
Proof.
  intros Ht Hn. unfold parseYear2DigitNumeric. rewrite Ht.
  destruct (70 <=? num) eqn:H70; eexists; (split; [reflexivity|]);
    unfold wrapInt; rewrite Z.mod_small by lia.
  - replace (num + 1900 + 2 ^ 63 - 2 ^ 63) with (num + 1900) by lia.
    split; [lia|]. split; [|lia].
    replace (num + 1900) with (num + 19 * 100) by lia.
    rewrite Z_mod_plus_full. apply Z.mod_small. lia.
  - replace (num + 2000 + 2 ^ 63 - 2 ^ 63) with (num + 2000) by lia.
    split; [lia|]. split; [|lia].
    replace (num + 2000) with (num + 20 * 100) by lia.
    rewrite Z_mod_plus_full. apply Z.mod_small. lia.
Qed.

Lemma parseYear2DigitNumeric_window_witness :
  let takeTwo := fun (_ : Z) (s : GoString) => (85, drop 2 s, @None ParseError) in
  let result := MkDatetime None None None None None None None None None None in
  exists y,
    parseYear2DigitNumeric takeTwo result (lit "85-01") = (set_year result y, lit "-01", None)
    /\ 1970 <= y <= 2069
    /\ y mod 100 = 85
    /\ (y < 2000 <-> 70 <= 85).
Proof.
  cbv zeta.
  apply (parseYear2DigitNumeric_window
           (fun (_ : Z) (s : GoString) => (85, drop 2 s, @None ParseError))
           (MkDatetime None None None None None None None None None None)
           (lit "85-01") (lit "-01") 85); [reflexivity|lia].
Defined.

End parsedate.
